(** * ItemFactory: the plugin registry of CopyQ (src/item/itemfactory.cpp)

    A shallow embedding of [ItemFactory] and of the anonymous-namespace
    helpers of itemfactory.cpp.  The factory owns three members:
    the ordered loader collection [m_loaders], the set of disabled
    loaders [m_disabledLoaders] and the map [m_loaderChildren] from a
    created widget to the loader that made it.  Everything a plugin
    does is outside the factory; a plugin is modelled by the functions
    of its interface over an abstract plugin state, and every call the
    factory makes to the outside is returned in a call list, in order. *)

From stdpp Require Import gmap strings list fin_maps sorting.
From Stdlib Require Import ZArith.

Local Open Scope Z_scope.

(** ** Data *)

(** Identity (address) of a [QObject]/[QWidget]. *)
Abbreviation QObject := nat (only parsing).

(** Identity of a loaded plugin instance, the pointee of a non-null
    [ItemLoaderInterfacePtr]. *)
Abbreviation Handle := nat (only parsing).

(** [ItemLoaderInterfacePtr] is a [QSharedPointer]: [None] is the null
    pointer, and pointers are compared by the address they hold. *)
Abbreviation ItemLoaderInterfacePtr := (option nat) (only parsing).

(** The fields of a [QModelIndex] that the factory reads with
    [index.data(contentType::text)] and [index.data(contentType::notes)]. *)
Record QModelIndex := mkIndex {
  indexRow : nat;
  dataText : string;
  dataNotes : string
}.

(** An [ItemWidget*] that is not null.  [DummyItem] is the class of the
    anonymous namespace (a [QLabel]); every other item is made by a
    plugin.  Both record the widget returned by [widget()] and that
    widget's [parentWidget()]. *)
Inductive ItemWidget :=
| DummyItem (w : QObject) (parent : QObject) (labelText : string)
| PluginItem (w : QObject) (parent : QObject) (maker : Handle).

Definition widget (item : ItemWidget) : QObject :=
  match item with
  | DummyItem w _ _ => w
  | PluginItem w _ _ => w
  end.

Definition parentWidget (item : ItemWidget) : QObject :=
  match item with
  | DummyItem _ p _ => p
  | PluginItem _ p _ => p
  end.

(** A [QFile] open for random access: its position and its bytes. *)
Record QFile := mkFile {
  filePos : Z;
  fileData : list Byte.byte
}.

(** [file->seek(pos)] *)
Definition seek (pos : Z) (file : QFile) : QFile :=
  mkFile pos (fileData file).

(** Modelled from the spec: the virtual interface [ItemLoaderInterface]
    (its header is not part of the sources), with the operations of the
    spec's loader capability interface as the source calls them.  The
    operations run over the state [Ext] that plugins keep outside the
    factory (their own members, the widgets they make, the item model
    they fill). *)
Record ItemLoaderInterface (Ext : Type) := mkLoader {
  name : string;
  priority : Z;
  create : QModelIndex → QObject → Ext → option ItemWidget * Ext;
  transform : ItemWidget → QModelIndex → Ext → option ItemWidget * Ext;
  loaderFormatsToSave : Ext → list string;
  loaderLoadItems : string → nat → QFile → Ext → bool * QFile * Ext;
  loaderSaveItems : string → nat → QFile → Ext → bool * QFile * Ext;
  loaderItemsLoaded : string → nat → QFile → Ext → QFile * Ext
}.
Arguments name {Ext} _.
Arguments priority {Ext} _.
Arguments create {Ext} _ _ _ _.
Arguments transform {Ext} _ _ _ _.
Arguments loaderFormatsToSave {Ext} _ _.
Arguments loaderLoadItems {Ext} _ _ _ _ _.
Arguments loaderSaveItems {Ext} _ _ _ _ _.
Arguments loaderItemsLoaded {Ext} _ _ _ _ _.

(** Modelled from the spec: the member declarations of [ItemFactory]
    (itemfactory.h is not part of the sources).  The spec's Ordered
    Loader Collection, Enablement Set and Created-Item Ownership Map;
    the source uses them as a [QList] ([indexOf], [operator[]], [size]),
    a [QSet] ([insert], [remove], [contains]) and an associative
    container indexed by the widget ([operator[]], [remove]).
    [loadPlugins] only ever appends non-null loaders, so the collection
    holds handles. *)
Record ItemFactory := mkFactory {
  m_loaders : list Handle;
  m_disabledLoaders : gset ItemLoaderInterfacePtr;
  m_loaderChildren : gmap QObject ItemLoaderInterfacePtr
}.

(** What the factory asks of the outside, in the order it asks. *)
Inductive Call :=
| CallCreate (loader : Handle) (index : QModelIndex) (parent : QObject)
             (res : option ItemWidget)
| CallTransform (loader : Handle) (item : ItemWidget) (index : QModelIndex)
                (res : option ItemWidget)
| NewDummyItem (index : QModelIndex) (parent : QObject) (item : ItemWidget)
| SetToolTip (w : QObject) (notes : string)
| ConnectDestroyed (w : QObject)
| FileSeek (pos : Z)
| CallLoadItems (loader : Handle) (file : QFile) (res : bool)
| CallSaveItems (loader : Handle) (file : QFile) (res : bool)
| CallItemsLoaded (loader : Handle) (file : QFile).

(** The plugin a call enters, if it enters one. *)
Definition callee (c : Call) : option Handle :=
  match c with
  | CallCreate h _ _ _ => Some h
  | CallTransform h _ _ _ => Some h
  | CallLoadItems h _ _ => Some h
  | CallSaveItems h _ _ => Some h
  | CallItemsLoaded h _ => Some h
  | NewDummyItem _ _ _ | SetToolTip _ _ | ConnectDestroyed _ | FileSeek _ => None
  end.

(** A loop that the model has to bound: the three ways a run ends. *)
Inductive Outcome (A : Type) :=
| Returned (a : A)
| AssertFailed
| OutOfFuel.
Arguments Returned {A} _.
Arguments AssertFailed {A}.
Arguments OutOfFuel {A}.

(** [const int dummyItemMaxChars = 4096;] *)
Definition dummyItemMaxChars : nat := 4096.

(** [QString::left(n)] *)
Definition QString_left (n : nat) (s : string) : string := String.substring 0 n s.

(** [QStringList::contains] and [QList::contains] *)
Definition contains `{EqDecision A} (l : list A) (x : A) : bool :=
  bool_decide (x ∈ l).

(** [QList::indexOf]: the first position holding [x], or -1. *)
Fixpoint indexOf_from `{EqDecision A} (l : list A) (x : A) (from : Z) : Z :=
  match l with
  | [] => -1
  | y :: rest => if decide (y = x) then from else indexOf_from rest x (from + 1)
  end.

Definition indexOf `{EqDecision A} (l : list A) (x : A) : Z :=
  indexOf_from l x 0.

Section Factory.

Context {Ext : Type}.

(** The plugin objects that the handles point to. *)
Variable plugin : Handle → ItemLoaderInterface Ext.

(** The factory, the plugins' state and the allocator of fresh widgets. *)
Record World := mkWorld {
  factory : ItemFactory;
  ext : Ext;
  nextObject : QObject
}.

Definition set_factory (f : ItemFactory) (s : World) : World :=
  mkWorld f (ext s) (nextObject s).

Definition set_ext (e : Ext) (s : World) : World :=
  mkWorld (factory s) e (nextObject s).

(** ** Effects: state passing with the list of outside calls *)

Definition Eff (A : Type) : Type := World → A * World * list Call.

Definition ret {A} (a : A) : Eff A := λ s, (a, s, []).

Definition bind {A B} (m : Eff A) (k : A → Eff B) : Eff B :=
  λ s, let '(a, s1, t1) := m s in
       let '(b, s2, t2) := k a s1 in
       (b, s2, t1 ++ t2).

Notation "'do' x <- m ; k" := (bind m (λ x, k))
  (at level 10, x name, m at level 100, k at level 200).
Notation "'run' m ; k" := (bind m (λ _, k))
  (at level 10, m at level 100, k at level 200).

Definition result {A} (r : A * World * list Call) : A := r.1.1.
Definition final {A} (r : A * World * list Call) : World := r.1.2.
Definition calls {A} (r : A * World * list Call) : list Call := r.2.

Definition call_create (loader : Handle) (index : QModelIndex) (parent : QObject)
  : Eff (option ItemWidget) :=
  λ s, let '(r, e) := create (plugin loader) index parent (ext s) in
       (r, set_ext e s, [CallCreate loader index parent r]).

Definition call_transform (loader : Handle) (item : ItemWidget) (index : QModelIndex)
  : Eff (option ItemWidget) :=
  λ s, let '(r, e) := transform (plugin loader) item index (ext s) in
       (r, set_ext e s, [CallTransform loader item index r]).

(** [new DummyItem(index, parent)]: a fresh label showing the first
    [dummyItemMaxChars] characters of the text. *)
Definition new_DummyItem (index : QModelIndex) (parent : QObject) : Eff ItemWidget :=
  λ s, let item := DummyItem (nextObject s) parent
                     (QString_left dummyItemMaxChars (dataText index)) in
       (item, mkWorld (factory s) (ext s) (S (nextObject s)),
        [NewDummyItem index parent item]).

Definition setToolTip (w : QObject) (notes : string) : Eff unit :=
  λ s, (tt, s, [SetToolTip w notes]).

Definition connect_destroyed (w : QObject) : Eff unit :=
  λ s, (tt, s, [ConnectDestroyed w]).

(** ** ItemFactory *)

(** [ItemFactory::isLoaderEnabled] *)
Definition isLoaderEnabled (f : ItemFactory) (loader : ItemLoaderInterfacePtr) : bool :=
  negb (bool_decide (loader ∈ m_disabledLoaders f)).

(** [ItemFactory::setLoaderEnabled] *)
Definition setLoaderEnabled (loader : ItemLoaderInterfacePtr) (enabled : bool)
    (f : ItemFactory) : ItemFactory :=
  if enabled
  then mkFactory (m_loaders f) (m_disabledLoaders f ∖ {[loader]}) (m_loaderChildren f)
  else mkFactory (m_loaders f) (m_disabledLoaders f ∪ {[loader]}) (m_loaderChildren f).

(** [ItemFactory::transformItem]; the loop over [m_loaders]. *)
Fixpoint transformItem_from (loaders : list Handle) (item : ItemWidget)
    (index : QModelIndex) : Eff ItemWidget :=
  match loaders with
  | [] => ret item
  | loader :: rest =>
      λ s,
        if isLoaderEnabled (factory s) (Some loader)
        then (do newItem <- call_transform loader item index;
              match newItem with
              | Some newItem => transformItem_from rest newItem index
              | None => transformItem_from rest item index
              end) s
        else transformItem_from rest item index s
  end.

Definition transformItem (item : ItemWidget) (index : QModelIndex) : Eff ItemWidget :=
  λ s, transformItem_from (m_loaders (factory s)) item index s.

(** [m_loaderChildren[w] = loader;] *)
Definition record_child (w : QObject) (loader : ItemLoaderInterfacePtr) : Eff unit :=
  λ s, let f := factory s in
       (tt, set_factory (mkFactory (m_loaders f) (m_disabledLoaders f)
                           (<[w := loader]> (m_loaderChildren f))) s, []).

(** The block of [createItem] under [if (item != NULL)]: transform,
    tool tip, ownership entry, destruction signal. *)
Definition adopt (loader : ItemLoaderInterfacePtr) (index : QModelIndex)
    (item : ItemWidget) : Eff (option ItemWidget) :=
  do item <- transformItem item index;
  let w := widget item in
  let notes := dataNotes index in
  run (if bool_decide (notes = "") then ret tt else setToolTip w notes);
  run record_child w loader;
  run connect_destroyed w;
  ret (Some item).

(** [ItemFactory::createItem(loader, index, parent)] *)
Definition createItem (loader : ItemLoaderInterfacePtr) (index : QModelIndex)
    (parent : QObject) : Eff (option ItemWidget) :=
  λ s,
    if bool_decide (loader = None) || isLoaderEnabled (factory s) loader
    then (do item <- match loader with
                     | None => do d <- new_DummyItem index parent; ret (Some d)
                     | Some l => call_create l index parent
                     end;
          match item with
          | Some item => adopt loader index item
          | None => ret None
          end) s
    else ret None s.

(** [ItemFactory::createItem(index, parent)]; the [foreach] over
    [m_loaders], then the call with the null loader. *)
Fixpoint createItem_foreach (loaders : list Handle) (index : QModelIndex)
    (parent : QObject) : Eff (option ItemWidget) :=
  match loaders with
  | [] => createItem None index parent
  | loader :: rest =>
      do item <- createItem (Some loader) index parent;
      match item with
      | Some item => ret (Some item)
      | None => createItem_foreach rest index parent
      end
  end.

Definition createItem_any (index : QModelIndex) (parent : QObject)
  : Eff (option ItemWidget) :=
  λ s, createItem_foreach (m_loaders (factory s)) index parent s.

(** The two wrap-around branches at the head of the loop body of
    [otherItemLoader]: [i % size] past the end, [size - 1] before the
    start. *)
Definition wrap (size i : Z) : Z :=
  if bool_decide (size ≤ i) then Z.rem i size
  else if bool_decide (i < 0) then size - 1
  else i.

(** [m_loaders[i]]; [QList::operator[]] asserts that [i] is in range. *)
Definition at_index {A} (l : list A) (i : Z) : option A :=
  if bool_decide (i < 0) then None else l !! Z.to_nat i.

(** The [for] loop of [ItemFactory::otherItemLoader].  The condition
    [i != currentIndex] is tested on the value of [i] before the body
    wraps it. *)
Fixpoint otherItemLoader_loop (fuel : nat) (currentIndex size dir i : Z)
    (index : QModelIndex) (parent : QObject)
  : World → Outcome (option ItemWidget) * World * list Call :=
  match fuel with
  | O => λ s, (OutOfFuel, s, [])
  | S fuel => λ s,
      if bool_decide (i ≠ currentIndex)
      then
        let i := wrap size i in
        match at_index (m_loaders (factory s)) i with
        | None => (AssertFailed, s, [])
        | Some loader =>
            let '(item, s1, t1) := createItem (Some loader) index parent s in
            match item with
            | Some item => (Returned (Some item), s1, t1)
            | None =>
                let '(r, s2, t2) :=
                  otherItemLoader_loop fuel currentIndex size dir (i + dir)
                    index parent s1 in
                (r, s2, t1 ++ t2)
            end
        end
      else (Returned None, s, [])
  end.

(** [ItemLoaderInterfacePtr currentLoader = m_loaderChildren[w];]
    [m_loaderChildren] is a member of a non-const method, so this is the
    non-const [operator[]]: a widget without an entry gets one holding a
    default-constructed (null) pointer. *)
Definition lookup_child (w : QObject) : Eff ItemLoaderInterfacePtr :=
  λ s, let f := factory s in
       let currentLoader := default None (m_loaderChildren f !! w) in
       (currentLoader,
        set_factory (mkFactory (m_loaders f) (m_disabledLoaders f)
                       (<[w := currentLoader]> (m_loaderChildren f))) s, []).

(** [ItemFactory::otherItemLoader], with the [Q_ASSERT]s checked. *)
Definition otherItemLoader (fuel : nat) (index : QModelIndex) (current : ItemWidget)
    (dir : Z) : World → Outcome (option ItemWidget) * World * list Call :=
  λ s,
    if negb (bool_decide (dir = -1) || bool_decide (dir = 1))
    then (AssertFailed, s, [])
    else
      let w := widget current in
      let '(currentLoader, s, _) := lookup_child w s in
      match currentLoader with
      | None => (Returned None, s, [])
      | Some loader =>
          let currentIndex := indexOf (m_loaders (factory s)) loader in
          if bool_decide (currentIndex = -1)
          then (AssertFailed, s, [])
          else
            let size := Z.of_nat (length (m_loaders (factory s))) in
            otherItemLoader_loop fuel currentIndex size dir (currentIndex + dir)
              index (parentWidget current) s
      end.

(** [ItemFactory::nextItemLoader] and [ItemFactory::previousItemLoader] *)
Definition nextItemLoader (fuel : nat) (index : QModelIndex) (current : ItemWidget) :=
  otherItemLoader fuel index current 1.

Definition previousItemLoader (fuel : nat) (index : QModelIndex) (current : ItemWidget) :=
  otherItemLoader fuel index current (-1).

(** [ItemFactory::loaderChildDestroyed] *)
Definition loaderChildDestroyed (obj : QObject) (f : ItemFactory) : ItemFactory :=
  mkFactory (m_loaders f) (m_disabledLoaders f) (delete obj (m_loaderChildren f)).

(** ** Formats *)

(** The two fixed internal format identifiers [mimeItemNotes] (the
    item-notes marker) and [mimeItems] (the item-collection marker).
    They are defined in a header that is not part of the sources, so
    they are parameters here. *)
Variables mimeItemNotes mimeItems : string.

(** The inner [foreach] of [ItemFactory::formatsToSave]. *)
Fixpoint append_new (formats : list string) (declared : list string) : list string :=
  match declared with
  | [] => formats
  | format :: rest =>
      append_new (if contains formats format then formats else formats ++ [format]) rest
  end.

(** The outer [foreach] of [ItemFactory::formatsToSave]. *)
Fixpoint formats_foreach (f : ItemFactory) (e : Ext) (loaders : list Handle)
    (formats : list string) : list string :=
  match loaders with
  | [] => formats
  | loader :: rest =>
      formats_foreach f e rest
        (if isLoaderEnabled f (Some loader)
         then append_new formats (loaderFormatsToSave (plugin loader) e)
         else formats)
  end.

(** [ItemFactory::formatsToSave] *)
Definition formatsToSave (f : ItemFactory) (e : Ext) : list string :=
  let formats := formats_foreach f e (m_loaders f) [] in
  let formats :=
    if contains formats "text/plain" then formats else "text/plain" :: formats in
  let formats :=
    if contains formats mimeItemNotes then formats else formats ++ [mimeItemNotes] in
  let formats :=
    if contains formats mimeItems then formats else formats ++ [mimeItems] in
  formats.

(** ** Persistence *)

Definition call_loadItems (loader : Handle) (tabName : string) (model : nat)
    (file : QFile) : Eff (bool * QFile) :=
  λ s, let '(r, file', e) := loaderLoadItems (plugin loader) tabName model file (ext s) in
       ((r, file'), set_ext e s, [CallLoadItems loader file r]).

Definition call_saveItems (loader : Handle) (tabName : string) (model : nat)
    (file : QFile) : Eff (bool * QFile) :=
  λ s, let '(r, file', e) := loaderSaveItems (plugin loader) tabName model file (ext s) in
       ((r, file'), set_ext e s, [CallSaveItems loader file r]).

Definition call_itemsLoaded (loader : Handle) (tabName : string) (model : nat)
    (file : QFile) : Eff QFile :=
  λ s, let '(file', e) := loaderItemsLoaded (plugin loader) tabName model file (ext s) in
       (file', set_ext e s, [CallItemsLoaded loader file]).

Definition file_seek (pos : Z) (file : QFile) : Eff QFile :=
  λ s, (seek pos file, s, [FileSeek pos]).

(** [ItemFactory::loadItems] *)
Fixpoint loadItems_foreach (loaders : list Handle) (tabName : string) (model : nat)
    (file : QFile) : Eff (bool * QFile) :=
  match loaders with
  | [] => ret (false, file)
  | loader :: rest =>
      λ s,
        if isLoaderEnabled (factory s) (Some loader)
        then (do r <- call_loadItems loader tabName model file;
              if r.1 then ret (true, r.2)
              else loadItems_foreach rest tabName model r.2) s
        else loadItems_foreach rest tabName model file s
  end.

Definition loadItems (tabName : string) (model : nat) (file : QFile)
  : Eff (bool * QFile) :=
  λ s, loadItems_foreach (m_loaders (factory s)) tabName model file s.

(** [ItemFactory::saveItems] *)
Fixpoint saveItems_foreach (loaders : list Handle) (tabName : string) (model : nat)
    (file : QFile) : Eff (bool * QFile) :=
  match loaders with
  | [] => ret (false, file)
  | loader :: rest =>
      λ s,
        if isLoaderEnabled (factory s) (Some loader)
        then (do file <- file_seek 0 file;
              do r <- call_saveItems loader tabName model file;
              if r.1 then ret (true, r.2)
              else saveItems_foreach rest tabName model r.2) s
        else saveItems_foreach rest tabName model file s
  end.

Definition saveItems (tabName : string) (model : nat) (file : QFile)
  : Eff (bool * QFile) :=
  λ s, saveItems_foreach (m_loaders (factory s)) tabName model file s.

(** [ItemFactory::itemsLoaded] *)
Fixpoint itemsLoaded_foreach (loaders : list Handle) (tabName : string) (model : nat)
    (file : QFile) : Eff QFile :=
  match loaders with
  | [] => ret file
  | loader :: rest =>
      λ s,
        if isLoaderEnabled (factory s) (Some loader)
        then (do file <- call_itemsLoaded loader tabName model file;
              itemsLoaded_foreach rest tabName model file) s
        else itemsLoaded_foreach rest tabName model file s
  end.

Definition itemsLoaded (tabName : string) (model : nat) (file : QFile) : Eff QFile :=
  λ s, itemsLoaded_foreach (m_loaders (factory s)) tabName model file s.

(** ** Ordering *)

(** [priorityLessThan] *)
Definition priorityLessThan (lhs rhs : Handle) : bool :=
  bool_decide (priority (plugin lhs) > priority (plugin rhs)).

(** [PluginSorter::value] *)
Definition PluginSorter_value (m_order : list string) (item : Handle) : Z :=
  indexOf m_order (name (plugin item)).

(** [PluginSorter::operator()] *)
Definition PluginSorter (m_order : list string) (lhs rhs : Handle) : bool :=
  let l := PluginSorter_value m_order lhs in
  let r := PluginSorter_value m_order rhs in
  if bool_decide (l = -1)
  then bool_decide (r = -1)
       && bool_decide (priority (plugin lhs) > priority (plugin rhs))
  else if bool_decide (r = -1) then true
  else bool_decide (l < r).

(** What [qSort(begin, end, lessThan)] of QtAlgorithms promises: the
    range is rearranged, and no element is less than one placed before
    it; the promise needs [lessThan] to be a strict weak order:
    irreflexive, transitive, and with a transitive "not less than". *)
Definition strict_order {A} (lessThan : A → A → bool) : Prop :=
  (∀ x, lessThan x x = false) ∧
  (∀ x y z, lessThan x y = true → lessThan y z = true → lessThan x z = true).

Definition strict_weak_order {A} (lessThan : A → A → bool) : Prop :=
  strict_order lessThan ∧
  (∀ x y z, lessThan x y = false → lessThan y z = false → lessThan x z = false).

Definition ascending {A} (lessThan : A → A → bool) (l : list A) : Prop :=
  ∀ (i j : nat) x y, (i < j)%nat → l !! i = Some x → l !! j = Some y →
    lessThan y x = false.

Definition sorts_by_lessThan
    (sort : (Handle → Handle → bool) → list Handle → list Handle) : Prop :=
  ∀ lessThan l, strict_weak_order lessThan →
    Permutation l (sort lessThan l) ∧ ascending lessThan (sort lessThan l).

(** The library's [qSort]. *)
Variable qSort : (Handle → Handle → bool) → list Handle → list Handle.

(** [ItemFactory::setPluginPriority] *)
Definition setPluginPriority (pluginNames : list string) (f : ItemFactory)
  : ItemFactory :=
  mkFactory (qSort (PluginSorter pluginNames) (m_loaders f))
            (m_disabledLoaders f) (m_loaderChildren f).

End Factory.

Arguments World : clear implicits.

(** ** Predicates on call lists *)

(** The Transform Chain as it shows in the calls: each call hands the
    current item to the next loader; a non-null answer becomes the
    current item, a null answer keeps it. *)
Inductive transform_chain (index : QModelIndex)
  : ItemWidget → list Handle → list Call → ItemWidget → Prop :=
| chain_done item : transform_chain index item [] [] item
| chain_keep item h hs cs last :
    transform_chain index item hs cs last →
    transform_chain index item (h :: hs) (CallTransform h item index None :: cs) last
| chain_replace item newItem h hs cs last :
    transform_chain index newItem hs cs last →
    transform_chain index item (h :: hs)
      (CallTransform h item index (Some newItem) :: cs) last.

(** The loaders of the collection that are enabled, in collection order. *)
Definition enabledLoaders (f : ItemFactory) : list Handle :=
  filter (λ h, isLoaderEnabled f (Some h) = true) (m_loaders f).

(** The calls that create an item: a loader's [create] or the
    [DummyItem] constructor. *)
Definition is_creation (c : Call) : bool :=
  match c with
  | CallCreate _ _ _ _ | NewDummyItem _ _ _ => true
  | _ => false
  end.

(** The calls that end a successful [createItem]: the tool tip when the
    index has notes, then the connection of the [destroyed] signal. *)
Definition finishing_calls (index : QModelIndex) (item : ItemWidget) : list Call :=
  (if bool_decide (dataNotes index = "") then []
   else [SetToolTip (widget item) (dataNotes index)])
  ++ [ConnectDestroyed (widget item)].

(** The factory after [m_loaderChildren[w] = loader]. *)
Definition with_child (w : QObject) (loader : ItemLoaderInterfacePtr)
    (f : ItemFactory) : ItemFactory :=
  mkFactory (m_loaders f) (m_disabledLoaders f) (<[w := loader]> (m_loaderChildren f)).

(** The call that makes the item: [create] of the owning loader, or the
    [DummyItem] constructor when the owner is the null loader. *)
Definition creation_call (owner : ItemLoaderInterfacePtr) (index : QModelIndex)
    (parent : QObject) (item : ItemWidget) : Call :=
  match owner with
  | Some h => CallCreate h index parent (Some item)
  | None => NewDummyItem index parent item
  end.

(** A [create] that declined. *)
Definition declined_call (index : QModelIndex) (parent : QObject) (h : Handle) : Call :=
  CallCreate h index parent None.

(** A call list enters the plugin [h]. *)
Definition enters (h : Handle) (cs : list Call) : Prop :=
  Some h ∈ callee <$> cs.

(** A call list enters no plugin that the factory has disabled. *)
Definition enters_only_enabled (f : ItemFactory) (cs : list Call) : Prop :=
  Forall (λ c, ∀ h, callee c = Some h → isLoaderEnabled f (Some h) = true) cs.

(** The factory as it would be without [h] in the collection. *)
Definition without_loader (h : Handle) (f : ItemFactory) : ItemFactory :=
  mkFactory (filter (λ x, x ≠ h) (m_loaders f)) (m_disabledLoaders f)
            (m_loaderChildren f).

(** No dispatch operation started in [s] enters the plugin [h], and the
    formats to save are what they would be without [h]. *)
Definition dispatch_skips {Ext} (plugin : Handle → ItemLoaderInterface Ext)
    (h : Handle) (s : World Ext) : Prop :=
  (∀ p index parent, ¬ enters h (calls (createItem plugin p index parent s))) ∧
  (∀ index parent, ¬ enters h (calls (createItem_any plugin index parent s))) ∧
  (∀ item index, ¬ enters h (calls (transformItem plugin item index s))) ∧
  (∀ fuel index current dir,
     ¬ enters h (calls (otherItemLoader plugin fuel index current dir s))) ∧
  (∀ tabName model file, ¬ enters h (calls (loadItems plugin tabName model file s))) ∧
  (∀ tabName model file, ¬ enters h (calls (saveItems plugin tabName model file s))) ∧
  (∀ tabName model file,
     ¬ enters h (calls (itemsLoaded plugin tabName model file s))) ∧
  (∀ notes items,
     formatsToSave plugin notes items (factory s) (ext s)
     = formatsToSave plugin notes items (without_loader h (factory s)) (ext s)).

(** The operations that go through the whole collection do enter the
    plugin [h], a [createItem] for [h] enters it, and its formats are
    among the formats to save. *)
Definition dispatch_reaches {Ext} (plugin : Handle → ItemLoaderInterface Ext)
    (h : Handle) (s : World Ext) : Prop :=
  (∀ index parent, enters h (calls (createItem plugin (Some h) index parent s))) ∧
  (∀ item index, enters h (calls (transformItem plugin item index s))) ∧
  (∀ tabName model file,
     enters h (calls (itemsLoaded plugin tabName model file s))) ∧
  (∀ notes items x,
     x ∈ loaderFormatsToSave (plugin h) (ext s) →
     x ∈ formatsToSave plugin notes items (factory s) (ext s)).

(** The walk of the cycling claim: from position [i] of [n], the
    positions [i+1], [i+2], ..., [i+n-1] modulo [n], in that order going
    forward and in the reverse order going backward. *)
Definition cycle_positions (n i : nat) (dir : Z) : list nat :=
  let forward := (λ k, ((i + k) mod n)%nat) <$> seq 1 (n - 1) in
  if bool_decide (dir = 1) then forward else reverse forward.

(** The cycling claim in its own words: ask the loaders at the given
    positions in order, through the single-loader [createItem]; return
    the first item made, and no item when every one of them fails. *)
Fixpoint try_positions {Ext} (plugin : Handle → ItemLoaderInterface Ext)
    (loaders : list Handle) (positions : list nat) (index : QModelIndex)
    (parent : QObject) : Eff (option ItemWidget) :=
  match positions with
  | [] => ret None
  | p :: rest =>
      match loaders !! p with
      | None => ret None
      | Some h =>
          bind (createItem plugin (Some h) index parent)
            (λ item, match item with
                     | Some item => ret (Some item)
                     | None => try_positions plugin loaders rest index parent
                     end)
      end
  end.

(** A run that returns. *)
Definition returned {Ext A} (m : Eff A)
  : World Ext → Outcome A * World Ext * list Call :=
  λ s, let '(a, s', t) := m s in (Returned a, s', t).

(** One attempt of [saveItems]: the seek, then the loader's save. *)
Definition save_attempt (a : Handle * QFile * bool) : list Call :=
  [FileSeek 0; CallSaveItems a.1.1 a.1.2 a.2].

(** How many times [x] occurs in [l]. *)
Definition occurrences (l : list string) (x : string) : nat :=
  length (filter (λ y, y = x) l).

(** ** A sort that keeps what [qSort] promises *)

Fixpoint insert_sorted {A} (lessThan : A → A → bool) (x : A) (l : list A) : list A :=
  match l with
  | [] => [x]
  | y :: rest =>
      if lessThan x y then x :: y :: rest
      else y :: insert_sorted lessThan x rest
  end.

Fixpoint insertion_sort {A} (lessThan : A → A → bool) (l : list A) : list A :=
  match l with
  | [] => []
  | x :: rest => insert_sorted lessThan x (insertion_sort lessThan rest)
  end.

(** ** Test plugins

    Plugins for concrete runs.  Their state is a counter from which they
    number the widgets they make. *)
Module Demo.

Record Behaviour := mkBehaviour {
  b_name : string;
  b_priority : Z;
  b_creates : bool;
  b_transforms : bool;
  b_formats : list string;
  b_writes : list Byte.byte;
  b_saves : bool
}.

(** Overwrite the bytes of [data] from position [pos] on. *)
Definition write_at (pos : nat) (bytes data : list Byte.byte) : list Byte.byte :=
  take pos data ++ bytes ++ drop (pos + length bytes) data.

Definition loader_of (h : Handle) (b : Behaviour) : ItemLoaderInterface nat :=
  mkLoader nat (b_name b) (b_priority b)
    (λ index parent e,
       if b_creates b then (Some (PluginItem (100 + e) parent h), S e) else (None, e))
    (λ item index e,
       if b_transforms b
       then (Some (PluginItem (100 + e) (parentWidget item) h), S e) else (None, e))
    (λ e, b_formats b)
    (λ tabName model file e, (false, file, e))
    (λ tabName model file e,
       (b_saves b,
        mkFile (filePos file + Z.of_nat (length (b_writes b)))
               (write_at (Z.to_nat (filePos file)) (b_writes b) (fileData file)),
        e))
    (λ tabName model file e, (file, e)).

Definition silent (n : string) (p : Z) : Behaviour :=
  mkBehaviour n p false false [] [] false.

Definition plugins (table : list Behaviour) (h : Handle) : ItemLoaderInterface nat :=
  loader_of h (default (silent "" 0) (table !! h)).

Definition world (loaders : list Handle) (disabled : list Handle)
    (children : list (QObject * ItemLoaderInterfacePtr)) : World nat :=
  mkWorld (mkFactory loaders (list_to_set (Some <$> disabled)) (list_to_map children))
          0%nat 1%nat.

Definition index1 : QModelIndex := mkIndex 0 "some text" "".

(** Two loaders; the first creates items, the second declines. *)
Definition first_creates : list Behaviour :=
  [ mkBehaviour "A" 2 true false [] [] false;
    silent "B" 1 ].

(** Two loaders; the first declines, the second creates items. *)
Definition second_creates : list Behaviour :=
  [ silent "A" 2;
    mkBehaviour "B" 1 true false [] [] false ].

(** Two loaders that both decline. *)
Definition none_creates : list Behaviour :=
  [ silent "A" 2; silent "B" 1 ].

(** Three loaders; [B] declines, [C] creates, [A] would create. *)
Definition abc : list Behaviour :=
  [ mkBehaviour "A" 3 true false [] [] false;
    silent "B" 2;
    mkBehaviour "C" 1 true false [] [] false ].

(** [A] creates; [B] replaces every item it is shown. *)
Definition creator_and_wrapper : list Behaviour :=
  [ mkBehaviour "A" 2 true false [] [] false;
    mkBehaviour "B" 1 false true [] [] false ].

(** A loader that declares another format before the plain text. *)
Definition html_first : list Behaviour :=
  [ mkBehaviour "H" 1 false false ["text/html"; "text/plain"] [] false ].

(** [A] writes three bytes and fails; [B] writes one byte and succeeds. *)
Definition partial_writer : list Behaviour :=
  [ mkBehaviour "A" 2 false false [] [Byte.x61; Byte.x62; Byte.x63] false;
    mkBehaviour "B" 1 false false [] [Byte.x7a] true ].

(** Loaders to order by name. *)
Definition named : list Behaviour :=
  [ mkBehaviour "text" 10 false false [] [] false;
    mkBehaviour "image" 30 false false [] [] false;
    mkBehaviour "notes" 20 false false [] [] false;
    mkBehaviour "web" 40 false false [] [] false ].

(** Markers for the two internal formats. *)
Definition notes_marker : string := "application/x-copyq-item-notes".
Definition items_marker : string := "application/x-copyq-item".

(** Two loaders whose formats overlap; the second declares a marker. *)
Definition overlapping : list Behaviour :=
  [ mkBehaviour "A" 2 false false ["image/png"; "text/plain"; "image/png"] [] false;
    mkBehaviour "B" 1 false false ["text/uri-list"; "image/png"; notes_marker] []
      false ].

(** The item a plugin made at address [w] under parent 9. *)
Definition shown (w : QObject) (maker : Handle) : ItemWidget := PluginItem w 9 maker.

End Demo.

(** ** Start-up: [ItemFactory::loadPlugins] and the constructor *)

(** The levels of [log(message, level)] that the factory uses. *)
Inductive LogLevel := LogNote | LogError.

(** What [QPluginLoader(path).instance()] gives: no object (the loader
    then has an [errorString()]), an object for which
    [qobject_cast<ItemLoaderInterface *>] is NULL, or a loader. *)
Inductive PluginInstance :=
| NoInstance (errorString : string)
| OtherObject
| LoaderObject (h : Handle).

(** The plugin directory once resolved: [isReadable()],
    [entryList(QDir::Files)] and [absoluteFilePath(fileName)]. *)
Record QDir := mkDir {
  isReadable : bool;
  entryList : list string;
  absoluteFilePath : string → string
}.

(** The libraries on disk: [QLibrary::isLibrary(fileName)] and the
    instance behind a path. *)
Record Libraries := mkLibraries {
  isLibrary : string → bool;
  instance : string → PluginInstance
}.

(** What start-up does to the outside, in order. *)
Inductive StartupEvent :=
| Instantiate (path : string)
| Log (message : string) (level : LogLevel)
| Unload (path : string).

(** The body of the [foreach] over the files of the directory. *)
Definition loadPlugins_file (libs : Libraries) (pluginsDir : QDir) (fileName : string)
    (loaders : list Handle) : list Handle * list StartupEvent :=
  if isLibrary libs fileName
  then
    let path := absoluteFilePath pluginsDir fileName in
    let loading := [Instantiate path;
                    Log (String.append "Loading plugin: " path) LogNote] in
    match instance libs path with
    | NoInstance errorString => (loaders, loading ++ [Log errorString LogError])
    | OtherObject => (loaders, loading ++ [Unload path])
    | LoaderObject loader => (loaders ++ [loader], loading)
    end
  else (loaders, []).

Fixpoint loadPlugins_foreach (libs : Libraries) (pluginsDir : QDir)
    (files : list string) (loaders : list Handle)
  : list Handle * list StartupEvent :=
  match files with
  | [] => (loaders, [])
  | fileName :: rest =>
      let '(loaders, t1) := loadPlugins_file libs pluginsDir fileName loaders in
      let '(loaders, t2) := loadPlugins_foreach libs pluginsDir rest loaders in
      (loaders, t1 ++ t2)
  end.

(** [ItemFactory::loadPlugins].  The three preprocessor branches that
    resolve the directory are taken by their outcome: [None] when the
    branch returns false, the directory otherwise. *)
Definition loadPlugins {Ext} (plugin : Handle → ItemLoaderInterface Ext)
    (qSort : (Handle → Handle → bool) → list Handle → list Handle)
    (libs : Libraries) (pluginsDir : option QDir) (f : ItemFactory)
  : bool * ItemFactory * list StartupEvent :=
  match pluginsDir with
  | None => (false, f, [])
  | Some pluginsDir =>
      if negb (isReadable pluginsDir) then (false, f, [])
      else
        let '(loaders, t) :=
          loadPlugins_foreach libs pluginsDir (entryList pluginsDir) (m_loaders f) in
        (true,
         mkFactory (qSort (priorityLessThan plugin) loaders)
                   (m_disabledLoaders f) (m_loaderChildren f),
         t)
  end.

(** [ItemFactory::ItemFactory] *)
Definition ItemFactory_new {Ext} (plugin : Handle → ItemLoaderInterface Ext)
    (qSort : (Handle → Handle → bool) → list Handle → list Handle)
    (libs : Libraries) (pluginsDir : option QDir)
  : ItemFactory * list StartupEvent :=
  let '(_, f, t) := loadPlugins plugin qSort libs pluginsDir (mkFactory [] ∅ ∅) in
  if bool_decide (m_loaders f = [])
  then (f, t ++ [Log "No plugins loaded" LogNote])
  else (f, t).

(** The loaders behind the library files of a list of file names, in
    the order of the files. *)
Definition loaders_found (libs : Libraries) (pluginsDir : QDir)
    (files : list string) : list Handle :=
  omap (λ fileName,
          if isLibrary libs fileName
          then match instance libs (absoluteFilePath pluginsDir fileName) with
               | LoaderObject h => Some h
               | _ => None
               end
          else None) files.

(** ** More predicates *)

(** The attempts of [loadItems] as the plugins see them: each loader is
    handed the file that the loader before it left, starting with the
    file given, over the plugins' state as it then is. *)
Inductive load_chain {Ext} (plugin : Handle → ItemLoaderInterface Ext)
    (tabName : string) (model : nat)
  : QFile → Ext → list (Handle * QFile * bool) → QFile → Ext → Prop :=
| load_chain_nil file e : load_chain plugin tabName model file e [] file e
| load_chain_cons h file e ok file' e' attempts fileN eN :
    loaderLoadItems (plugin h) tabName model file e = (ok, file', e') →
    load_chain plugin tabName model file' e' attempts fileN eN →
    load_chain plugin tabName model file e ((h, file, ok) :: attempts) fileN eN.

(** The attempts of [saveItems] as the plugins see them: each loader is
    handed, rewound to position 0, the file that the loader before it
    left, with all the bytes that are then in it. *)
Inductive save_chain {Ext} (plugin : Handle → ItemLoaderInterface Ext)
    (tabName : string) (model : nat)
  : QFile → Ext → list (Handle * QFile * bool) → QFile → Ext → Prop :=
| save_chain_nil file e : save_chain plugin tabName model file e [] file e
| save_chain_cons h file e ok file' e' attempts fileN eN :
    loaderSaveItems (plugin h) tabName model (seek 0 file) e = (ok, file', e') →
    save_chain plugin tabName model file' e' attempts fileN eN →
    save_chain plugin tabName model file e ((h, seek 0 file, ok) :: attempts) fileN eN.

Definition load_attempt (a : Handle * QFile * bool) : Call :=
  CallLoadItems a.1.1 a.1.2 a.2.

(** The answer of a [transform] call. *)
Definition transform_answer (c : Call) : option ItemWidget :=
  match c with
  | CallTransform _ _ _ res => res
  | _ => None
  end.

(** Every loader that the ownership map names is in the collection. *)
Definition owners_in_collection (f : ItemFactory) : Prop :=
  ∀ (w : QObject) (h : Handle),
    m_loaderChildren f !! w = Some (Some h) → h ∈ m_loaders f.

(** Descending priority along a list of loaders. *)
Definition priority_descending {Ext} (plugin : Handle → ItemLoaderInterface Ext)
    (l : list Handle) : Prop :=
  ∀ (i j : nat) x y, (i < j)%nat → l !! i = Some x → l !! j = Some y →
    priority (plugin y) ≤ priority (plugin x).

(** The transform chain as the plugins see it: each enabled loader's
    [transform] is applied to the current item over the plugins' state
    as it then is; what it answers is what the call list shows, and a
    non-null answer is the current item from then on. *)
Inductive transform_run {Ext} (plugin : Handle → ItemLoaderInterface Ext)
    (index : QModelIndex)
  : ItemWidget → Ext → list Handle → list Call → ItemWidget → Ext → Prop :=
| transform_run_done item e : transform_run plugin index item e [] [] item e
| transform_run_keep item e h e' hs cs last eN :
    transform (plugin h) item index e = (None, e') →
    transform_run plugin index item e' hs cs last eN →
    transform_run plugin index item e (h :: hs)
      (CallTransform h item index None :: cs) last eN
| transform_run_replace item e h newItem e' hs cs last eN :
    transform (plugin h) item index e = (Some newItem, e') →
    transform_run plugin index newItem e' hs cs last eN →
    transform_run plugin index item e (h :: hs)
      (CallTransform h item index (Some newItem) :: cs) last eN.

(** Loaders whose [create] is asked one after the other and answers
    null each time, over the plugins' state as it then is. *)
Inductive declined_run {Ext} (plugin : Handle → ItemLoaderInterface Ext)
    (index : QModelIndex) (parent : QObject)
  : Ext → list Handle → Ext → Prop :=
| declined_run_nil e : declined_run plugin index parent e [] e
| declined_run_cons e h e' hs eN :
    create (plugin h) index parent e = (None, e') →
    declined_run plugin index parent e' hs eN →
    declined_run plugin index parent e (h :: hs) eN.

(** The making of the item by its owner: the owner's [create] answers
    the item, or the item is the [DummyItem] at the next free address
    when the owner is the null loader. *)
Definition made_by {Ext} (plugin : Handle → ItemLoaderInterface Ext)
    (owner : ItemLoaderInterfacePtr) (index : QModelIndex) (parent : QObject)
    (next : QObject) (e : Ext) (item : ItemWidget) (e' : Ext) : Prop :=
  match owner with
  | Some h => create (plugin h) index parent e = (Some item, e')
  | None =>
      item = DummyItem next parent (QString_left dummyItemMaxChars (dataText index))
      ∧ e' = e
  end.

(** A list without the later occurrences of its elements. *)
Fixpoint first_seen (l : list string) : list string :=
  match l with
  | [] => []
  | x :: rest => x :: filter (λ y, y ≠ x) (first_seen rest)
  end.

(** The formats that the loaders of a list declare, those of the
    enabled ones, one loader after the other in the order of the list. *)
Definition declared_formats {Ext} (plugin : Handle → ItemLoaderInterface Ext)
    (f : ItemFactory) (e : Ext) (loaders : list Handle) : list string :=
  concat ((λ h, loaderFormatsToSave (plugin h) e)
            <$> filter (λ h, isLoaderEnabled f (Some h) = true) loaders).

(** ** More test data *)
Module Demo2.

Import Demo.

(** An index with notes. *)
Definition index2 : QModelIndex := mkIndex 1 "some text" "a note".

(** A directory with a text file, a library that holds loader 1, a
    library that does not load, a library that holds another kind of
    plugin, and a library that holds loader 3. *)
Definition plugin_dir : QDir :=
  mkDir true ["readme.txt"; "image.so"; "broken.so"; "other.so"; "web.so"]
        (λ fileName, String.append "/plugins/" fileName).

Definition on_disk : Libraries :=
  mkLibraries
    (λ fileName, bool_decide (fileName ≠ "readme.txt"))
    (λ path,
       if bool_decide (path = "/plugins/image.so") then LoaderObject 1
       else if bool_decide (path = "/plugins/web.so") then LoaderObject 3
       else if bool_decide (path = "/plugins/other.so") then OtherObject
       else NoInstance "cannot load library").

Definition unreadable_dir : QDir := mkDir false ["image.so"] (λ fileName, fileName).

End Demo2.

(** * Properties *)

Section Properties.

Context {Ext : Type} (plugin : Handle → ItemLoaderInterface Ext).

Implicit Types (s : World Ext) (f : ItemFactory) (h loader : Handle).
Implicit Types (index : QModelIndex) (item : ItemWidget) (file : QFile).

(** Project the three parts of a run. *)
Ltac unpack := unfold result, final, calls in *; simpl in *.

(** ** Enablement *)

Lemma isLoaderEnabled_true f (p : ItemLoaderInterfacePtr) :
  isLoaderEnabled f p = true ↔ p ∉ m_disabledLoaders f.
Proof.
  unfold isLoaderEnabled. rewrite negb_true_iff, bool_decide_eq_false. done.
Qed.

Lemma isLoaderEnabled_false f (p : ItemLoaderInterfacePtr) :
  isLoaderEnabled f p = false ↔ p ∈ m_disabledLoaders f.
Proof.
  unfold isLoaderEnabled. rewrite negb_false_iff, bool_decide_eq_true. done.
Qed.

Lemma enabledLoaders_elem f h :
  h ∈ enabledLoaders f ↔ h ∈ m_loaders f ∧ isLoaderEnabled f (Some h) = true.
Proof. unfold enabledLoaders. rewrite list_elem_of_filter. tauto. Qed.

(** ** The transform chain *)

Lemma transformItem_from_chain loaders item index s :
  let r := transformItem_from plugin loaders item index s in
  factory (final r) = factory s ∧
  nextObject (final r) = nextObject s ∧
  transform_chain index item
    (filter (λ h, isLoaderEnabled (factory s) (Some h) = true) loaders)
    (calls r) (result r).
Proof.
  revert item s. induction loaders as [|l loaders IH]; intros item s; simpl.
  - repeat split. constructor.
  - rewrite filter_cons. destruct (isLoaderEnabled (factory s) (Some l)) eqn:En.
    + rewrite decide_True by done.
      unfold bind, call_transform.
      destruct (transform (plugin l) item index (ext s)) as [newItem e] eqn:Tr.
      destruct newItem as [newItem|].
      * specialize (IH newItem (set_ext e s)). simpl in IH.
        destruct (transformItem_from plugin loaders newItem index (set_ext e s))
          as [[b s2] t2]. simpl in *.
        destruct IH as (? & ? & ?). repeat split; try done. by constructor.
      * specialize (IH item (set_ext e s)). simpl in IH.
        destruct (transformItem_from plugin loaders item index (set_ext e s))
          as [[b s2] t2]. simpl in *.
        destruct IH as (? & ? & ?). repeat split; try done. by constructor.
    + rewrite decide_False by done. apply IH.
Qed.

Lemma transformItem_chain item index s :
  let r := transformItem plugin item index s in
  factory (final r) = factory s ∧
  nextObject (final r) = nextObject s ∧
  transform_chain index item (enabledLoaders (factory s)) (calls r) (result r).
Proof. apply transformItem_from_chain. Qed.

Lemma transform_chain_callees index item hs cs last :
  transform_chain index item hs cs last → callee <$> cs = Some <$> hs.
Proof. induction 1; csimpl; congruence. Qed.

Lemma transform_chain_no_creation index item hs cs last :
  transform_chain index item hs cs last → Forall (λ c, is_creation c = false) cs.
Proof. induction 1; constructor; done. Qed.

(** ** Creating one item *)

Lemma adopt_spec (p : ItemLoaderInterfacePtr) index item0 s :
  let r := adopt plugin p index item0 s in
  ∃ item chain,
    result r = Some item ∧
    transform_chain index item0 (enabledLoaders (factory s)) chain item ∧
    calls r = chain ++ finishing_calls index item ∧
    factory (final r) = with_child (widget item) p (factory s) ∧
    nextObject (final r) = nextObject s.
Proof.
  intros r. subst r. unfold adopt, bind.
  pose proof (transformItem_chain item0 index s) as H. simpl in H.
  destruct (transformItem plugin item0 index s) as [[item s1] chain].
  destruct H as (Hf & Hn & Hc). unfold result, final, calls in *. simpl in *.
  exists item, chain. unfold finishing_calls, with_child.
  destruct (bool_decide (dataNotes index = "")); simpl;
    rewrite ?app_nil_r, Hf; done.
Qed.

Lemma createItem_disabled h index parent s :
  isLoaderEnabled (factory s) (Some h) = false →
  createItem plugin (Some h) index parent s = (None, s, []).
Proof. intros En. unfold createItem. simpl. rewrite En. done. Qed.

Lemma createItem_declined h index parent s e :
  isLoaderEnabled (factory s) (Some h) = true →
  create (plugin h) index parent (ext s) = (None, e) →
  createItem plugin (Some h) index parent s
  = (None, set_ext e s, [CallCreate h index parent None]).
Proof.
  intros En Cr. unfold createItem, bind, call_create. simpl. rewrite En, Cr. done.
Qed.

Lemma createItem_created h index parent s e item0 :
  isLoaderEnabled (factory s) (Some h) = true →
  create (plugin h) index parent (ext s) = (Some item0, e) →
  let r := createItem plugin (Some h) index parent s in
  ∃ item chain,
    result r = Some item ∧
    transform_chain index item0 (enabledLoaders (factory s)) chain item ∧
    calls r = CallCreate h index parent (Some item0)
              :: chain ++ finishing_calls index item ∧
    factory (final r) = with_child (widget item) (Some h) (factory s) ∧
    nextObject (final r) = nextObject s.
Proof.
  intros En Cr. unfold createItem, bind, call_create. simpl. rewrite En, Cr.
  pose proof (adopt_spec (Some h) index item0 (set_ext e s)) as H. simpl in H.
  destruct (adopt plugin (Some h) index item0 (set_ext e s)) as [[r s1] t].
  destruct H as (item & chain & ? & ? & Hcalls & ? & ?). exists item, chain.
  unpack. rewrite Hcalls. done.
Qed.

Lemma createItem_null index parent s :
  let d := DummyItem (nextObject s) parent
             (QString_left dummyItemMaxChars (dataText index)) in
  let r := createItem plugin None index parent s in
  ∃ item chain,
    result r = Some item ∧
    transform_chain index d (enabledLoaders (factory s)) chain item ∧
    calls r = NewDummyItem index parent d :: chain ++ finishing_calls index item ∧
    factory (final r) = with_child (widget item) None (factory s) ∧
    nextObject (final r) = S (nextObject s).
Proof.
  intros d. unfold createItem, bind, new_DummyItem, ret. simpl. fold d.
  pose proof (adopt_spec None index d
                (mkWorld (factory s) (ext s) (S (nextObject s)))) as H.
  simpl in H.
  destruct (adopt plugin None index d _) as [[r s1] t].
  destruct H as (item & chain & ? & ? & Hcalls & ? & ?). exists item, chain.
  unpack. rewrite Hcalls. done.
Qed.

(** What a call of [createItem] with a loader comes to. *)
Lemma createItem_cases h index parent s :
  let r := createItem plugin (Some h) index parent s in
  (isLoaderEnabled (factory s) (Some h) = false ∧ r = (None, s, []))
  ∨ (isLoaderEnabled (factory s) (Some h) = true ∧
     ∃ e, r = (None, set_ext e s, [CallCreate h index parent None]))
  ∨ (isLoaderEnabled (factory s) (Some h) = true ∧
     ∃ item0 item chain,
       result r = Some item ∧
       transform_chain index item0 (enabledLoaders (factory s)) chain item ∧
       calls r = CallCreate h index parent (Some item0)
                 :: chain ++ finishing_calls index item ∧
       factory (final r) = with_child (widget item) (Some h) (factory s) ∧
       nextObject (final r) = nextObject s).
Proof.
  intros r. destruct (isLoaderEnabled (factory s) (Some h)) eqn:En.
  - right. destruct (create (plugin h) index parent (ext s)) as [[item0|] e] eqn:Cr.
    + right. split; [done|]. exists item0.
      by apply (createItem_created h index parent s e item0).
    + left. split; [done|]. exists e. by apply createItem_declined.
  - left. split; [done|]. by apply createItem_disabled.
Qed.

Lemma with_child_lookup w (p : ItemLoaderInterfacePtr) f :
  m_loaderChildren (with_child w p f) !! w = Some p.
Proof. unfold with_child. simpl. apply lookup_insert_eq. Qed.

Lemma with_child_lookup_ne w w' (p : ItemLoaderInterfacePtr) f :
  w ≠ w' → m_loaderChildren (with_child w p f) !! w' = m_loaderChildren f !! w'.
Proof. intros. unfold with_child. simpl. by apply lookup_insert_ne. Qed.

(** C9: after a successful [createItem(loader, index, parent)] the
    ownership map sends the widget of the returned item to the loader
    that was passed in (the null loader for the fallback), also when the
    returned item is not the created one but what the transform chain,
    run over all enabled loaders, made of it; no other entry changes. *)
Theorem createItem_records_given_loader (p : ItemLoaderInterfacePtr)
    index parent s item :
  result (createItem plugin p index parent s) = Some item →
  let f' := factory (final (createItem plugin p index parent s)) in
  m_loaderChildren f' !! widget item = Some p ∧
  (∀ w, w ≠ widget item →
        m_loaderChildren f' !! w = m_loaderChildren (factory s) !! w) ∧
  ∃ item0 chain,
    transform_chain index item0 (enabledLoaders (factory s)) chain item ∧
    calls (createItem plugin p index parent s)
    = creation_call p index parent item0 :: chain ++ finishing_calls index item.
Proof.
  intros Hres f'. subst f'. destruct p as [h|].
  - destruct (createItem_cases h index parent s)
      as [[_ E]|[[_ [e E]]|[_ (item0 & item' & chain & Hr & Hc & Hcalls & Hf & _)]]].
    + rewrite E in Hres. done.
    + rewrite E in Hres. done.
    + rewrite Hr in Hres. injection Hres as ->. rewrite Hf. split; [|split].
      * apply with_child_lookup.
      * intros w Hw. by apply with_child_lookup_ne.
      * by exists item0, chain.
  - destruct (createItem_null index parent s)
      as (item' & chain & Hr & Hc & Hcalls & Hf & _).
    rewrite Hr in Hres. injection Hres as ->. rewrite Hf. split; [|split].
    + apply with_child_lookup.
    + intros w Hw. by apply with_child_lookup_ne.
    + by eexists _, chain.
Qed.

(** *** The calls and the plugins' answers *)

Lemma transformItem_from_run loaders item index s :
  let r := transformItem_from plugin loaders item index s in
  factory (final r) = factory s ∧
  nextObject (final r) = nextObject s ∧
  transform_run plugin index item (ext s)
    (filter (λ h, isLoaderEnabled (factory s) (Some h) = true) loaders)
    (calls r) (result r) (ext (final r)).
Proof.
  revert item s. induction loaders as [|l loaders IH]; intros item s; simpl.
  - repeat split. constructor.
  - rewrite filter_cons. destruct (isLoaderEnabled (factory s) (Some l)) eqn:En.
    + rewrite decide_True by done.
      unfold bind, call_transform.
      destruct (transform (plugin l) item index (ext s)) as [newItem e] eqn:Tr.
      destruct newItem as [newItem|].
      * specialize (IH newItem (set_ext e s)). simpl in IH.
        destruct (transformItem_from plugin loaders newItem index (set_ext e s))
          as [[b s2] t2]. unpack.
        destruct IH as (? & ? & ?). repeat split; try done.
        by eapply transform_run_replace.
      * specialize (IH item (set_ext e s)). simpl in IH.
        destruct (transformItem_from plugin loaders item index (set_ext e s))
          as [[b s2] t2]. unpack.
        destruct IH as (? & ? & ?). repeat split; try done.
        by eapply transform_run_keep.
    + rewrite decide_False by done. apply IH.
Qed.

Lemma transform_run_chain index item (e : Ext) hs cs last_item eN :
  transform_run plugin index item e hs cs last_item eN →
  transform_chain index item hs cs last_item.
Proof. induction 1; by constructor. Qed.

Lemma adopt_run (p : ItemLoaderInterfacePtr) index item0 s :
  let r := adopt plugin p index item0 s in
  ∃ item chain,
    result r = Some item ∧
    transform_run plugin index item0 (ext s) (enabledLoaders (factory s)) chain item
      (ext (final r)) ∧
    calls r = chain ++ finishing_calls index item ∧
    factory (final r) = with_child (widget item) p (factory s) ∧
    nextObject (final r) = nextObject s.
Proof.
  intros r. subst r. unfold adopt, bind.
  pose proof (transformItem_from_run (m_loaders (factory s)) item0 index s) as H.
  fold (transformItem plugin item0 index s) in H. simpl in H.
  destruct (transformItem plugin item0 index s) as [[item s1] chain].
  destruct H as (Hf & Hn & Hc). unfold result, final, calls in *. simpl in *.
  exists item, chain. unfold finishing_calls, with_child.
  destruct (bool_decide (dataNotes index = "")); simpl;
    rewrite ?app_nil_r, Hf; done.
Qed.

(** What a call of [createItem] comes to, with the answers of the
    plugins. *)
Lemma createItem_run_cases h index parent s :
  let r := createItem plugin (Some h) index parent s in
  (isLoaderEnabled (factory s) (Some h) = false ∧ r = (None, s, []))
  ∨ (isLoaderEnabled (factory s) (Some h) = true ∧
     ∃ e, create (plugin h) index parent (ext s) = (None, e) ∧
          r = (None, set_ext e s, [CallCreate h index parent None]))
  ∨ (isLoaderEnabled (factory s) (Some h) = true ∧
     ∃ item0 e item chain,
       create (plugin h) index parent (ext s) = (Some item0, e) ∧
       result r = Some item ∧
       transform_run plugin index item0 e (enabledLoaders (factory s)) chain item
         (ext (final r)) ∧
       calls r = CallCreate h index parent (Some item0)
                 :: chain ++ finishing_calls index item ∧
       factory (final r) = with_child (widget item) (Some h) (factory s) ∧
       nextObject (final r) = nextObject s).
Proof.
  intros r. destruct (isLoaderEnabled (factory s) (Some h)) eqn:En.
  - right. destruct (create (plugin h) index parent (ext s)) as [[item0|] e] eqn:Cr.
    + right. split; [done|]. exists item0, e. subst r.
      unfold createItem, bind, call_create. simpl. rewrite En, Cr.
      pose proof (adopt_run (Some h) index item0 (set_ext e s)) as H. simpl in H.
      destruct (adopt plugin (Some h) index item0 (set_ext e s)) as [[r s1] t].
      destruct H as (item & chain & ? & ? & Hcalls & ? & ?). exists item, chain.
      unpack. rewrite Hcalls. done.
    + left. split; [done|]. exists e. split; [done|]. by apply createItem_declined.
  - left. split; [done|]. by apply createItem_disabled.
Qed.

Lemma createItem_null_run index parent s :
  let d := DummyItem (nextObject s) parent
             (QString_left dummyItemMaxChars (dataText index)) in
  let r := createItem plugin None index parent s in
  ∃ item chain,
    result r = Some item ∧
    transform_run plugin index d (ext s) (enabledLoaders (factory s)) chain item
      (ext (final r)) ∧
    calls r = NewDummyItem index parent d :: chain ++ finishing_calls index item ∧
    factory (final r) = with_child (widget item) None (factory s) ∧
    nextObject (final r) = S (nextObject s).
Proof.
  intros d. unfold createItem, bind, new_DummyItem, ret. simpl. fold d.
  pose proof (adopt_run None index d
                (mkWorld (factory s) (ext s) (S (nextObject s)))) as H.
  simpl in H.
  destruct (adopt plugin None index d _) as [[r s1] t].
  destruct H as (item & chain & ? & ? & Hcalls & ? & ?). exists item, chain.
  unpack. rewrite Hcalls. done.
Qed.

(** C10: the item made for the null loader goes through the transform
    chain like any other: after the [DummyItem] is constructed, the
    [transform] of every enabled loader is called, in collection order,
    on the current item, over the plugins' state as the calls before it
    left it; what the loader answers is what the call shows, and a
    non-null answer replaces the current item; the last current item is
    returned and recorded under the null loader. *)
Theorem createItem_null_is_transformed index parent s :
  let d := DummyItem (nextObject s) parent
             (QString_left dummyItemMaxChars (dataText index)) in
  let r := createItem plugin None index parent s in
  ∃ item chain,
    calls r = NewDummyItem index parent d :: chain ++ finishing_calls index item ∧
    transform_run plugin index d (ext s) (enabledLoaders (factory s)) chain item
      (ext (final r)) ∧
    transform_chain index d (enabledLoaders (factory s)) chain item ∧
    callee <$> chain = Some <$> enabledLoaders (factory s) ∧
    result r = Some item ∧
    m_loaderChildren (factory (final r)) !! widget item = Some None.
Proof.
  intros d r.
  destruct (createItem_null_run index parent s)
    as (item & chain & Hr & Hrun & Hcalls & Hf & _).
  exists item, chain. subst r. fold d in Hcalls, Hrun.
  pose proof (transform_run_chain _ _ _ _ _ _ _ Hrun) as Hc.
  repeat split; try done.
  - by apply transform_chain_callees in Hc.
  - rewrite Hf. apply with_child_lookup.
Qed.

(** C7: a loader that is not null and is disabled gets no item from
    [createItem], and nothing is called and nothing changes; the null
    loader is never refused, whatever the set of disabled loaders holds:
    the [DummyItem] is constructed from the capped text, no loader's
    [create] is entered, and an item is returned. *)
Theorem createItem_disabled_or_null index parent s :
  (∀ h, isLoaderEnabled (factory s) (Some h) = false →
        createItem plugin (Some h) index parent s = (None, s, [])) ∧
  let d := DummyItem (nextObject s) parent
             (QString_left dummyItemMaxChars (dataText index)) in
  let r := createItem plugin None index parent s in
  ∃ item tail,
    result r = Some item ∧
    calls r = NewDummyItem index parent d :: tail ∧
    Forall (λ c, is_creation c = false) tail ∧
    (enabledLoaders (factory s) = [] → item = d).
Proof.
  split; [intros h; apply createItem_disabled|].
  intros d r.
  destruct (createItem_null index parent s) as (item & chain & Hr & Hc & Hcalls & _).
  fold d in Hc, Hcalls. exists item, (chain ++ finishing_calls index item).
  repeat split; try done.
  - apply Forall_app. split; [by eapply transform_chain_no_creation|].
    unfold finishing_calls. destruct (bool_decide _); repeat constructor.
  - intros E. rewrite E in Hc. by inversion Hc.
Qed.

(** ** Creating an item with any loader *)

Lemma createItem_foreach_spec loaders index parent s :
  let r := createItem_foreach plugin loaders index parent s in
  ∃ tried rest owner item0 item chain,
    filter (λ h, isLoaderEnabled (factory s) (Some h) = true) loaders
    = tried ++ rest ∧
    match owner with
    | Some h => ∃ rest', rest = h :: rest'
    | None => rest = [] ∧
              item0 = DummyItem (nextObject s) parent
                        (QString_left dummyItemMaxChars (dataText index))
    end ∧
    calls r = (declined_call index parent <$> tried)
              ++ creation_call owner index parent item0
              :: chain ++ finishing_calls index item ∧
    transform_chain index item0 (enabledLoaders (factory s)) chain item ∧
    result r = Some item ∧
    factory (final r) = with_child (widget item) owner (factory s).
Proof.
  revert s. induction loaders as [|l loaders IH]; intros s; simpl.
  - destruct (createItem_null index parent s)
      as (item & chain & Hr & Hc & Hcalls & Hf & _).
    exists [], [], None. eexists _, item, chain. done.
  - rewrite filter_cons. unfold bind.
    destruct (createItem_cases l index parent s)
      as [[En E]|[[En [e E]]|[En (item0 & item & chain & Hr & Hc & Hcalls & Hf & _)]]].
    + rewrite E, En. rewrite decide_False by done.
      specialize (IH s). simpl in IH.
      destruct (createItem_foreach plugin loaders index parent s) as [[r s2] t2].
      done.
    + rewrite E, En. rewrite decide_True by done.
      specialize (IH (set_ext e s)). simpl in IH.
      destruct (createItem_foreach plugin loaders index parent (set_ext e s))
        as [[r s2] t2].
      destruct IH as (tried & rest & owner & item0 & item & chain
                      & Hfil & Hown & Hcalls & Hc & Hr & Hf).
      exists (l :: tried), rest, owner, item0, item, chain. unpack.
      rewrite Hfil, Hcalls. done.
    + rewrite En. rewrite decide_True by done.
      destruct (createItem plugin (Some l) index parent s) as [[r s1] t1].
      unpack. subst r. unfold ret. simpl.
      exists [], (l :: filter (λ h, isLoaderEnabled (factory s) (Some h) = true)
                      loaders), (Some l), item0, item, chain.
      rewrite app_nil_r. split; [done|]. split; [by eexists|]. done.
Qed.

Lemma createItem_any_first_helper index parent s :
  let r := createItem_any plugin index parent s in
  ∃ tried rest owner item0 item chain,
    filter (λ h, isLoaderEnabled (factory s) (Some h) = true) (m_loaders (factory s))
    = tried ++ rest ∧
    match owner with
    | Some h => ∃ rest', rest = h :: rest'
    | None => rest = [] ∧
              item0 = DummyItem (nextObject s) parent
                        (QString_left dummyItemMaxChars (dataText index))
    end ∧
    calls r = (declined_call index parent <$> tried)
              ++ creation_call owner index parent item0
              :: chain ++ finishing_calls index item ∧
    transform_chain index item0 (enabledLoaders (factory s)) chain item ∧
    result r = Some item ∧
    factory (final r) = with_child (widget item) owner (factory s).
Proof. apply createItem_foreach_spec. Qed.

Lemma createItem_foreach_run loaders index parent s :
  let r := createItem_foreach plugin loaders index parent s in
  ∃ tried rest owner item0 item chain e1 e2,
    filter (λ h, isLoaderEnabled (factory s) (Some h) = true) loaders
    = tried ++ rest ∧
    match owner with
    | Some h => ∃ rest', rest = h :: rest'
    | None => rest = []
    end ∧
    declined_run plugin index parent (ext s) tried e1 ∧
    made_by plugin owner index parent (nextObject s) e1 item0 e2 ∧
    transform_run plugin index item0 e2 (enabledLoaders (factory s)) chain item
      (ext (final r)) ∧
    calls r = (declined_call index parent <$> tried)
              ++ creation_call owner index parent item0
              :: chain ++ finishing_calls index item ∧
    result r = Some item ∧
    factory (final r) = with_child (widget item) owner (factory s).
Proof.
  revert s. induction loaders as [|l loaders IH]; intros s; simpl.
  - destruct (createItem_null_run index parent s)
      as (item & chain & Hr & Hrun & Hcalls & Hf & _).
    exists [], [], None. eexists _, item, chain, (ext s), (ext s).
    repeat split; try done. constructor.
  - rewrite filter_cons. unfold bind.
    destruct (createItem_run_cases l index parent s)
      as [[En E]|[[En (e & Cr & E)]
                 |[En (item0 & e & item & chain & Cr & Hr & Hrun & Hcalls & Hf & _)]]].
    + rewrite E, En. rewrite decide_False by done.
      specialize (IH s). simpl in IH.
      destruct (createItem_foreach plugin loaders index parent s) as [[r s2] t2].
      done.
    + rewrite E, En. rewrite decide_True by done.
      specialize (IH (set_ext e s)). simpl in IH.
      destruct (createItem_foreach plugin loaders index parent (set_ext e s))
        as [[r s2] t2].
      destruct IH as (tried & rest & owner & item0 & item & chain & e1 & e2
                      & Hfil & Hown & Hdecl & Hmade & Hrun & Hcalls & Hr & Hf).
      exists (l :: tried), rest, owner, item0, item, chain, e1, e2. unpack.
      rewrite Hfil, Hcalls. repeat split; try done.
      by eapply declined_run_cons.
    + rewrite En. rewrite decide_True by done.
      destruct (createItem plugin (Some l) index parent s) as [[r s1] t1].
      unpack. subst r. unfold ret. simpl.
      exists [], (l :: filter (λ h, isLoaderEnabled (factory s) (Some h) = true)
                      loaders), (Some l), item0, item, chain, (ext s), e.
      rewrite app_nil_r. split; [done|]. split; [by eexists|].
      split; [constructor|]. done.
Qed.

(** C4: [createItem(index, parent)] asks the enabled loaders in
    collection order, each over the plugins' state as the one before
    left it: the [create] of those asked first answers null ([tried]),
    and either the [create] of the next enabled loader answers an item,
    which is then transformed, recorded under that loader and returned,
    or every enabled loader has declined ([rest] is empty) and only then
    the [DummyItem] is constructed; a disabled loader is never asked,
    and an item is always returned. *)
Theorem createItem_any_first_success index parent s :
  let r := createItem_any plugin index parent s in
  ∃ tried rest owner item0 item chain e1 e2,
    enabledLoaders (factory s) = tried ++ rest ∧
    match owner with
    | Some h => ∃ rest', rest = h :: rest'
    | None => rest = [] ∧
              item0 = DummyItem (nextObject s) parent
                        (QString_left dummyItemMaxChars (dataText index))
    end ∧
    declined_run plugin index parent (ext s) tried e1 ∧
    made_by plugin owner index parent (nextObject s) e1 item0 e2 ∧
    transform_run plugin index item0 e2 (enabledLoaders (factory s)) chain item
      (ext (final r)) ∧
    calls r = (declined_call index parent <$> tried)
              ++ creation_call owner index parent item0
              :: chain ++ finishing_calls index item ∧
    transform_chain index item0 (enabledLoaders (factory s)) chain item ∧
    result r = Some item ∧
    m_loaderChildren (factory (final r)) !! widget item = Some owner.
Proof.
  intros r.
  destruct (createItem_foreach_run (m_loaders (factory s)) index parent s)
    as (tried & rest & owner & item0 & item & chain & e1 & e2
        & Hfil & Hown & Hdecl & Hmade & Hrun & Hcalls & Hr & Hf).
  exists tried, rest, owner, item0, item, chain, e1, e2.
  subst r. unfold createItem_any.
  pose proof (transform_run_chain _ _ _ _ _ _ _ Hrun) as Hc.
  repeat split; try done.
  - destruct owner as [h|]; [done|]. split; [done|]. by destruct Hmade.
  - rewrite Hf. apply with_child_lookup.
Qed.

(** ** Saving *)

Lemma saveItems_foreach_run loaders (tabName : string) (model : nat) file s :
  let r := saveItems_foreach plugin loaders tabName model file s in
  ∃ attempts : list (Handle * QFile * bool),
    calls r = concat (save_attempt <$> attempts) ∧
    Forall (λ a, filePos a.1.2 = 0) attempts ∧
    save_chain plugin tabName model file (ext s) attempts (result r).2
      (ext (final r)) ∧
    if (result r).1
    then ∃ init last,
           attempts = init ++ [last] ∧ last.2 = true ∧
           Forall (λ a, a.2 = false) init ∧
           ((λ a, a.1.1) <$> attempts)
             `prefix_of` filter (λ h, isLoaderEnabled (factory s) (Some h) = true)
                           loaders
    else Forall (λ a, a.2 = false) attempts ∧
         (λ a, a.1.1) <$> attempts
         = filter (λ h, isLoaderEnabled (factory s) (Some h) = true) loaders.
Proof.
  revert file s. induction loaders as [|l loaders IH]; intros file s; simpl.
  - exists []. unpack. repeat split; constructor.
  - rewrite filter_cons.
    destruct (isLoaderEnabled (factory s) (Some l)) eqn:En.
    + rewrite decide_True by done.
      unfold bind, file_seek, call_saveItems.
      destruct (loaderSaveItems (plugin l) tabName model (seek 0 file) (ext s))
        as [[ok file'] e] eqn:Sv.
      simpl. destruct ok.
      * exists [(l, seek 0 file, true)]. unpack.
        split; [done|]. split; [by repeat constructor|].
        split; [econstructor; [exact Sv|constructor]|].
        exists [], (l, seek 0 file, true). repeat split; try done.
        by apply prefix_cons, prefix_nil.
      * specialize (IH file' (set_ext e s)). simpl in IH.
        destruct (saveItems_foreach plugin loaders tabName model file' (set_ext e s))
          as [[[ok f2] s2] t2].
        destruct IH as (attempts & Hcalls & Hpos & Hchain & Hres). unpack.
        exists ((l, seek 0 file, false) :: attempts). csimpl.
        rewrite Hcalls. split; [done|]. split; [by constructor|].
        split; [econstructor; [exact Sv|exact Hchain]|].
        destruct ok.
        -- destruct Hres as (init & last & -> & Hlast & Hinit & Hpre).
           exists ((l, seek 0 file, false) :: init), last.
           repeat split; try done; [by constructor|].
           by apply prefix_cons.
        -- destruct Hres as [Hall Hmap]. split; [by constructor|].
           by rewrite Hmap.
    + rewrite decide_False by done. apply IH.
Qed.

(** C6: [saveItems] is a sequence of attempts, one per enabled loader in
    collection order, each made of [seek(0)] and then the loader's save,
    so that every loader is given the file at position 0 whatever the
    loaders before it wrote; the answer recorded for an attempt is the
    one that the loader's [saveItems] gave on that rewound file, over
    the file and the plugins' state as the attempt before left them
    ([save_chain]).  When it returns true the last attempt succeeded and
    no attempt before it did, and when it returns false every enabled
    loader has been tried and none succeeded. *)
Theorem saveItems_seeks_before_each_attempt (tabName : string) (model : nat) file s :
  let r := saveItems plugin tabName model file s in
  ∃ attempts : list (Handle * QFile * bool),
    calls r = concat (save_attempt <$> attempts) ∧
    Forall (λ a, filePos a.1.2 = 0) attempts ∧
    save_chain plugin tabName model file (ext s) attempts (result r).2
      (ext (final r)) ∧
    if (result r).1
    then ∃ init last,
           attempts = init ++ [last] ∧ last.2 = true ∧
           Forall (λ a, a.2 = false) init ∧
           ((λ a, a.1.1) <$> attempts) `prefix_of` enabledLoaders (factory s)
    else Forall (λ a, a.2 = false) attempts ∧
         (λ a, a.1.1) <$> attempts = enabledLoaders (factory s).
Proof.
  intros r.
  destruct (saveItems_foreach_run (m_loaders (factory s)) tabName model file s)
    as (attempts & Hcalls & Hpos & Hchain & Hres).
  exists attempts. subst r. unfold saveItems. done.
Qed.

(** ** Formats to save *)

Lemma occurrences_absent (l : list string) x :
  x ∉ l → occurrences l x = 0%nat.
Proof.
  unfold occurrences. induction l as [|y l IH]; intros Hx; [done|].
  apply not_elem_of_cons in Hx as [Hne Hx].
  rewrite filter_cons_False by congruence. by apply IH.
Qed.

Lemma occurrences_NoDup (l : list string) x :
  NoDup l → x ∈ l → occurrences l x = 1%nat.
Proof.
  induction 1 as [|y l Hy Hnd IH]; intros Hx.
  - by apply elem_of_nil in Hx.
  - unfold occurrences. destruct (decide (y = x)) as [->|Hne].
    + rewrite filter_cons_True by done. simpl. f_equal.
      by apply occurrences_absent.
    + rewrite filter_cons_False by done. apply IH.
      apply elem_of_cons in Hx as [->|Hx]; done.
Qed.

Lemma append_new_spec (formats declared : list string) :
  NoDup formats →
  NoDup (append_new formats declared) ∧
  ∀ x, x ∈ append_new formats declared ↔ x ∈ formats ∨ x ∈ declared.
Proof.
  revert formats. induction declared as [|d declared IH]; intros formats Hnd; simpl.
  - split; [done|]. intros x. rewrite elem_of_nil. tauto.
  - unfold contains. case_bool_decide as Hin.
    + destruct (IH formats Hnd) as [Hnd' Hel]. split; [done|].
      intros x. rewrite Hel, elem_of_cons. split; [tauto|].
      intros [?|[->|?]]; tauto.
    + destruct (IH (formats ++ [d])) as [Hnd' Hel].
      { apply NoDup_app. repeat split; [done| |apply NoDup_singleton].
        intros x Hx ->%list_elem_of_singleton. done. }
      split; [done|]. intros x.
      rewrite Hel, elem_of_app, list_elem_of_singleton, elem_of_cons. tauto.
Qed.

Lemma formats_foreach_spec f (e : Ext) loaders (formats : list string) :
  NoDup formats →
  NoDup (formats_foreach plugin f e loaders formats) ∧
  ∀ x, x ∈ formats_foreach plugin f e loaders formats ↔
       x ∈ formats ∨
       ∃ h, h ∈ loaders ∧ isLoaderEnabled f (Some h) = true ∧
            x ∈ loaderFormatsToSave (plugin h) e.
Proof.
  revert formats. induction loaders as [|l loaders IH]; intros formats Hnd; simpl.
  - split; [done|]. intros x. split; [tauto|].
    intros [?|(h & Hh & _)]; [done|]. by apply elem_of_nil in Hh.
  - destruct (isLoaderEnabled f (Some l)) eqn:En.
    + destruct (append_new_spec formats (loaderFormatsToSave (plugin l) e) Hnd)
        as [Hnd1 Hel1].
      destruct (IH _ Hnd1) as [Hnd2 Hel2]. split; [done|].
      intros x. rewrite Hel2, Hel1. split.
      * intros [[?|?]|(h & Hh & ? & ?)]; [tauto| |].
        -- right. exists l. rewrite elem_of_cons. tauto.
        -- right. exists h. rewrite elem_of_cons. tauto.
      * intros [?|(h & Hh & Henh & ?)]; [tauto|].
        apply elem_of_cons in Hh as [->|Hh]; [tauto|]. right. by exists h.
    + destruct (IH _ Hnd) as [Hnd2 Hel2]. split; [done|].
      intros x. rewrite Hel2. split.
      * intros [?|(h & Hh & ? & ?)]; [tauto|].
        right. exists h. rewrite elem_of_cons. tauto.
      * intros [?|(h & Hh & Henh & ?)]; [tauto|].
        apply elem_of_cons in Hh as [->|Hh]; [congruence|]. right. by exists h.
Qed.

(** ** First-seen order *)

Lemma first_seen_elem (l : list string) y : y ∈ first_seen l ↔ y ∈ l.
Proof.
  induction l as [|x l IH]; simpl; [done|].
  rewrite !elem_of_cons, list_elem_of_filter, IH.
  destruct (decide (y = x)); tauto.
Qed.

Lemma first_seen_head (l : list string) : head (first_seen l) = head l.
Proof. by destruct l. Qed.

Lemma first_seen_NoDup (l : list string) : NoDup (first_seen l).
Proof.
  induction l as [|x l IH]; simpl; [constructor|].
  apply NoDup_cons. split; [|by apply NoDup_filter].
  rewrite list_elem_of_filter. tauto.
Qed.

Lemma filter_absent_nil (l : list string) :
  filter (λ y, y ∉ @nil string) l = l.
Proof.
  induction l as [|x l IH]; [done|].
  rewrite filter_cons_True by apply not_elem_of_nil. by rewrite IH.
Qed.

Lemma first_seen_app (l1 l2 : list string) :
  first_seen (l1 ++ l2) = first_seen l1 ++ filter (λ y, y ∉ l1) (first_seen l2).
Proof.
  induction l1 as [|x l1 IH]; simpl.
  - by rewrite filter_absent_nil.
  - f_equal. rewrite IH, filter_app, list_filter_filter. f_equal.
    apply list_filter_iff. intros y. rewrite not_elem_of_cons. tauto.
Qed.

(** A string stands in the first-seen order right behind the distinct
    strings that come before its first occurrence. *)
Lemma first_seen_first_occurrence (l1 l2 : list string) x :
  x ∉ l1 →
  first_seen (l1 ++ x :: l2)
  = first_seen l1 ++ x :: filter (λ y, y ∉ x :: l1) (first_seen l2).
Proof.
  intros Hx. rewrite first_seen_app. simpl. f_equal.
  rewrite filter_cons_True by done. f_equal.
  rewrite list_filter_filter. apply list_filter_iff. intros y.
  rewrite not_elem_of_cons. tauto.
Qed.

(** The inner [foreach] appends, in first-seen order, the formats that
    the list does not hold yet. *)
Lemma append_new_first_seen (formats declared : list string) :
  append_new formats declared
  = formats ++ filter (λ y, y ∉ formats) (first_seen declared).
Proof.
  revert formats. induction declared as [|d declared IH]; intros formats; simpl.
  - by rewrite app_nil_r.
  - unfold contains. case_bool_decide as Hin.
    + rewrite IH. f_equal. rewrite filter_cons_False by tauto.
      rewrite list_filter_filter. apply list_filter_iff. intros y.
      split; [|tauto]. intros Hy. split; [done|]. by intros ->.
    + rewrite IH, <- app_assoc. f_equal. simpl.
      rewrite filter_cons_True by done. f_equal.
      rewrite list_filter_filter. apply list_filter_iff. intros y.
      rewrite not_elem_of_app, list_elem_of_singleton. tauto.
Qed.

Lemma formats_foreach_first_seen f (e : Ext) loaders (formats : list string) :
  formats_foreach plugin f e loaders formats
  = formats ++ filter (λ y, y ∉ formats)
                 (first_seen (declared_formats plugin f e loaders)).
Proof.
  revert formats. induction loaders as [|l loaders IH]; intros formats.
  - simpl. by rewrite app_nil_r.
  - unfold declared_formats. rewrite filter_cons. simpl.
    destruct (isLoaderEnabled f (Some l)) eqn:En.
    + rewrite decide_True by done. rewrite fmap_cons. simpl concat.
      fold (declared_formats plugin f e loaders).
      rewrite first_seen_app, IH, append_new_first_seen, <- app_assoc, filter_app.
      f_equal. f_equal.
      rewrite list_filter_filter. apply list_filter_iff. intros y.
      rewrite not_elem_of_app, list_elem_of_filter, first_seen_elem. tauto.
    + rewrite decide_False by done. apply IH.
Qed.

(** The list that the two loops of [formatsToSave] build is the formats
    of the enabled loaders, in collection order and each loader's in the
    order it declares them, in first-seen order. *)
Lemma formats_foreach_declared f (e : Ext) :
  formats_foreach plugin f e (m_loaders f) []
  = first_seen (declared_formats plugin f e (m_loaders f)).
Proof. rewrite formats_foreach_first_seen. simpl. apply filter_absent_nil. Qed.

(** The list of [formatsToSave] in terms of the list that its two
    loops build: its members, and the list as a sequence. *)
Lemma formatsToSave_shape (mimeItemNotes mimeItems : string) f (e : Ext) :
  let declared := formats_foreach plugin f e (m_loaders f) [] in
  let formats := formatsToSave plugin mimeItemNotes mimeItems f e in
  (∀ x, x ∈ formats ↔
        x = "text/plain" ∨ x = mimeItemNotes ∨ x = mimeItems ∨
        ∃ h, h ∈ enabledLoaders f ∧ x ∈ loaderFormatsToSave (plugin h) e) ∧
  NoDup formats ∧
  ∃ front back,
    formats = front ++ declared ++ back ∧
    (front = [] ∧ "text/plain" ∈ declared ∨
     front = ["text/plain"] ∧ "text/plain" ∉ declared) ∧
    Forall (λ x, x = mimeItemNotes ∨ x = mimeItems) back.
Proof.
  intros declared formats.
  destruct (formats_foreach_spec f e (m_loaders f) [] (NoDup_nil_2))
    as [Hnd Hel].
  fold declared in Hnd, Hel.
  assert (Hdecl : ∀ x, x ∈ declared ↔
            ∃ h, h ∈ enabledLoaders f ∧ x ∈ loaderFormatsToSave (plugin h) e).
  { intros x. rewrite Hel. split.
    - intros [Hx|(h & ? & ? & ?)]; [by apply elem_of_nil in Hx|].
      exists h. rewrite enabledLoaders_elem. tauto.
    - intros (h & Hh & ?). right. exists h.
      apply enabledLoaders_elem in Hh. tauto. }
  set (f1 := if contains declared "text/plain" then declared
             else "text/plain" :: declared).
  set (f2 := if contains f1 mimeItemNotes then f1 else f1 ++ [mimeItemNotes]).
  assert (Hformats : formats = if contains f2 mimeItems then f2
                               else f2 ++ [mimeItems]) by done.
  assert (∃ front, f1 = front ++ declared ∧
            (front = [] ∧ "text/plain" ∈ declared ∨
             front = ["text/plain"] ∧ "text/plain" ∉ declared))
    as (front & Hf1 & Hfront).
  { subst f1. unfold contains. case_bool_decide.
    - exists []. tauto.
    - exists ["text/plain"]. tauto. }
  assert (∃ b1, f2 = f1 ++ b1 ∧
            ((b1 = [] ∧ mimeItemNotes ∈ f1) ∨
             (b1 = [mimeItemNotes] ∧ mimeItemNotes ∉ f1)))
    as (b1 & Hf2 & Hb1).
  { subst f2. unfold contains. case_bool_decide.
    - exists []. rewrite app_nil_r. tauto.
    - exists [mimeItemNotes]. tauto. }
  assert (∃ b2, formats = f2 ++ b2 ∧
            ((b2 = [] ∧ mimeItems ∈ f2) ∨ (b2 = [mimeItems] ∧ mimeItems ∉ f2)))
    as (b2 & Hf3 & Hb2).
  { rewrite Hformats. unfold contains. case_bool_decide.
    - exists []. rewrite app_nil_r. tauto.
    - exists [mimeItems]. tauto. }
  clearbody f1 f2 formats. clear Hformats.
  assert (Hnd1 : NoDup f1).
  { rewrite Hf1. destruct Hfront as [[-> _]|[-> Hout]]; [done|]. by apply NoDup_cons. }
  assert (Hnd2 : NoDup f2).
  { rewrite Hf2. destruct Hb1 as [[-> _]|[-> Hout]]; [by rewrite app_nil_r|].
    apply NoDup_app. repeat split; [done| |apply NoDup_singleton].
    intros x Hx ->%list_elem_of_singleton. done. }
  split; [|split].
  - intros x. rewrite Hf3, elem_of_app, Hf2, elem_of_app, Hf1, elem_of_app.
    rewrite <- Hdecl. split.
    + intros [[[Hx|Hx]|Hx]|Hx].
      * destruct Hfront as [[-> _]|[-> _]]; [by apply elem_of_nil in Hx|].
        apply list_elem_of_singleton in Hx. tauto.
      * tauto.
      * destruct Hb1 as [[-> _]|[-> _]]; [by apply elem_of_nil in Hx|].
        apply list_elem_of_singleton in Hx. tauto.
      * destruct Hb2 as [[-> _]|[-> _]]; [by apply elem_of_nil in Hx|].
        apply list_elem_of_singleton in Hx. tauto.
    + intros [->|[->|[->|Hx]]].
      * destruct Hfront as [[-> Hin]|[-> _]]; [tauto|].
        left. left. left. by apply list_elem_of_singleton.
      * destruct Hb1 as [[-> Hin]|[-> _]].
        -- rewrite Hf1, elem_of_app in Hin. tauto.
        -- left. right. by apply list_elem_of_singleton.
      * destruct Hb2 as [[-> Hin]|[-> _]].
        -- rewrite Hf2, elem_of_app, Hf1, elem_of_app in Hin. tauto.
        -- right. by apply list_elem_of_singleton.
      * tauto.
  - rewrite Hf3. destruct Hb2 as [[-> _]|[-> Hout]]; [by rewrite app_nil_r|].
    apply NoDup_app. repeat split; [done| |apply NoDup_singleton].
    intros x Hx ->%list_elem_of_singleton. done.
  - exists front, (b1 ++ b2). split; [|split; [done|]].
    + by rewrite Hf3, Hf2, Hf1, <- !app_assoc.
    + apply Forall_app. split.
      * destruct Hb1 as [[-> _]|[-> _]]; [constructor|].
        constructor; [tauto|constructor].
      * destruct Hb2 as [[-> _]|[-> _]]; [constructor|].
        constructor; [tauto|constructor].
Qed.

(** How often the fixed entries occur, and when "text/plain" is the
    first one, in terms of the list that the two loops build. *)
Lemma formatsToSave_counts (mimeItemNotes mimeItems : string) f (e : Ext) :
  let declared := formats_foreach plugin f e (m_loaders f) [] in
  let formats := formatsToSave plugin mimeItemNotes mimeItems f e in
  occurrences formats "text/plain" = 1%nat ∧
  occurrences formats mimeItemNotes = 1%nat ∧
  occurrences formats mimeItems = 1%nat ∧
  (head formats = Some "text/plain" ↔
   "text/plain" ∉ declared ∨ head declared = Some "text/plain") ∧
  (∀ x, x ∈ declared ↔
        ∃ h, h ∈ enabledLoaders f ∧ x ∈ loaderFormatsToSave (plugin h) e) ∧
  (enabledLoaders f = [] → head formats = Some "text/plain").
Proof.
  intros declared formats.
  destruct (formats_foreach_spec f e (m_loaders f) [] (NoDup_nil_2)) as [Hnd Hel].
  fold declared in Hnd, Hel.
  assert (Hdecl : ∀ x, x ∈ declared ↔
            ∃ h, h ∈ enabledLoaders f ∧ x ∈ loaderFormatsToSave (plugin h) e).
  { intros x. rewrite Hel. split.
    - intros [Hx|(h & ? & ? & ?)]; [by apply elem_of_nil in Hx|].
      exists h. rewrite enabledLoaders_elem. tauto.
    - intros (h & Hh & ?). right. exists h.
      apply enabledLoaders_elem in Hh. tauto. }
  set (f1 := if contains declared "text/plain" then declared
             else "text/plain" :: declared).
  set (f2 := if contains f1 mimeItemNotes then f1 else f1 ++ [mimeItemNotes]).
  assert (formats = if contains f2 mimeItems then f2 else f2 ++ [mimeItems])
    as Hformats by done.
  assert (NoDup f1 ∧ "text/plain" ∈ f1) as [Hnd1 Hin1].
  { subst f1. unfold contains. case_bool_decide; [done|].
    split; [by apply NoDup_cons|]. apply elem_of_cons. tauto. }
  assert (NoDup f2 ∧ "text/plain" ∈ f2 ∧ mimeItemNotes ∈ f2
          ∧ head f2 = head f1) as (Hnd2 & Hin2 & Hnotes2 & Hhd2).
  { subst f2. unfold contains. case_bool_decide as Hc; [done|].
    repeat split.
    - apply NoDup_app. repeat split; [done| |apply NoDup_singleton].
      intros x Hx ->%list_elem_of_singleton. done.
    - apply elem_of_app. tauto.
    - apply elem_of_app. right. by apply list_elem_of_singleton.
    - destruct f1; [by apply elem_of_nil in Hin1|done]. }
  assert (NoDup formats ∧ "text/plain" ∈ formats ∧ mimeItemNotes ∈ formats
          ∧ mimeItems ∈ formats ∧ head formats = head f1)
    as (Hnd3 & Hin3 & Hnotes3 & Hitems3 & Hhd3).
  { rewrite Hformats. unfold contains. case_bool_decide as Hc; [done|].
    repeat split.
    - apply NoDup_app. repeat split; [done| |apply NoDup_singleton].
      intros x Hx ->%list_elem_of_singleton. done.
    - apply elem_of_app. tauto.
    - apply elem_of_app. tauto.
    - apply elem_of_app. right. by apply list_elem_of_singleton.
    - rewrite <- Hhd2. destruct f2; [by apply elem_of_nil in Hin2|done]. }
  assert (Hhead : head formats = Some "text/plain" ↔
            "text/plain" ∉ declared ∨ head declared = Some "text/plain").
  { rewrite Hhd3. subst f1. unfold contains. case_bool_decide as Hc; simpl.
    - tauto.
    - tauto. }
  repeat split; try (by apply occurrences_NoDup); try apply Hhead; try apply Hdecl.
  intros Hnone. apply Hhead. left. intros Hin. apply Hdecl in Hin as (h & Hh & _).
  rewrite Hnone in Hh. by apply elem_of_nil in Hh.
Qed.

(** C2, amended: whatever loaders are enabled, the list of
    [formatsToSave] holds "text/plain" and each of the two markers
    exactly once.  With [all] the formats of the enabled loaders, in
    collection order and each loader's in the order it declares them,
    "text/plain" is the first element exactly when no enabled loader
    declares it or it is the first format of [all], so in particular
    when no loader is enabled; the list is [all] in first-seen order,
    with "text/plain" in front only when [all] does not hold it, so a
    "text/plain" declared later stays where it was declared, and behind
    it only markers. *)
Theorem formatsToSave_entries (mimeItemNotes mimeItems : string) f (e : Ext) :
  let all := declared_formats plugin f e (m_loaders f) in
  let formats := formatsToSave plugin mimeItemNotes mimeItems f e in
  occurrences formats "text/plain" = 1%nat ∧
  occurrences formats mimeItemNotes = 1%nat ∧
  occurrences formats mimeItems = 1%nat ∧
  (head formats = Some "text/plain" ↔
   "text/plain" ∉ all ∨ head all = Some "text/plain") ∧
  all = concat ((λ h, loaderFormatsToSave (plugin h) e) <$> enabledLoaders f) ∧
  (∃ front back,
     formats = front ++ first_seen all ++ back ∧
     (front = [] ∧ "text/plain" ∈ all ∨
      front = ["text/plain"] ∧ "text/plain" ∉ all) ∧
     Forall (λ x, x = mimeItemNotes ∨ x = mimeItems) back) ∧
  (∀ x, x ∈ all ↔
        ∃ h, h ∈ enabledLoaders f ∧ x ∈ loaderFormatsToSave (plugin h) e) ∧
  (enabledLoaders f = [] → head formats = Some "text/plain").
Proof.
  intros all formats.
  destruct (formatsToSave_counts mimeItemNotes mimeItems f e)
    as (Hplain & Hnotes & Hitems & Hhead & Hdecl & Hnone).
  destruct (formatsToSave_shape mimeItemNotes mimeItems f e)
    as (_ & _ & front & back & Hseq & Hfront & Hback).
  fold formats in Hplain, Hnotes, Hitems, Hhead, Hnone, Hseq.
  rewrite formats_foreach_declared in Hhead, Hdecl, Hseq, Hfront.
  fold all in Hhead, Hdecl, Hseq, Hfront.
  rewrite first_seen_elem, first_seen_head in Hhead.
  rewrite !first_seen_elem in Hfront.
  split; [done|]. split; [done|]. split; [done|]. split; [done|].
  split; [done|]. split; [by exists front, back|].
  split; [|done]. intros x. by rewrite <- Hdecl, first_seen_elem.
Qed.

(** ** Ordering by a list of names *)

Lemma indexOf_from_spec `{EqDecision A} (l : list A) (x : A) (from : Z) :
  ((x ∉ l) ∧ indexOf_from l x from = -1) ∨
  (∃ (i : nat), l !! i = Some x ∧ (∀ (j : nat), (j < i)%nat → l !! j ≠ Some x) ∧
                indexOf_from l x from = from + Z.of_nat i).
Proof.
  revert from. induction l as [|y l IH]; intros from; simpl.
  - left. split; [apply not_elem_of_nil|done].
  - destruct (decide (y = x)) as [->|Hne].
    + right. exists 0%nat. repeat split; [|lia]. intros j Hj. lia.
    + destruct (IH (from + 1)) as [[Hx E]|(i & Hi & Hmin & E)].
      * left. split; [|done]. apply not_elem_of_cons. done.
      * right. exists (S i). repeat split; [done| |lia].
        intros [|j] Hj; simpl; [congruence|]. apply Hmin. lia.
Qed.

Lemma indexOf_absent `{EqDecision A} (l : list A) (x : A) :
  indexOf l x = -1 ↔ x ∉ l.
Proof.
  unfold indexOf. destruct (indexOf_from_spec l x 0) as [[Hx E]|(i & Hi & _ & E)].
  - tauto.
  - split; [lia|]. intros Hx. exfalso. apply Hx. by eapply list_elem_of_lookup_2.
Qed.

Lemma indexOf_first `{EqDecision A} (l : list A) (x : A) :
  x ∈ l →
  ∃ i : nat, indexOf l x = Z.of_nat i ∧ l !! i = Some x ∧
             ∀ j : nat, (j < i)%nat → l !! j ≠ Some x.
Proof.
  intros Hx. unfold indexOf.
  destruct (indexOf_from_spec l x 0) as [[Hx' _]|(i & Hi & Hmin & E)]; [done|].
  exists i. repeat split; [lia|done|done].
Qed.

Lemma PluginSorter_formula (pluginNames : list string) x y :
  let rank := PluginSorter_value plugin pluginNames in
  PluginSorter plugin pluginNames x y = true ↔
  (rank x ≠ -1 ∧ (rank y = -1 ∨ rank x < rank y)) ∨
  (rank x = -1 ∧ rank y = -1 ∧ priority (plugin x) > priority (plugin y)).
Proof.
  intros rank. unfold PluginSorter. fold (rank x) (rank y).
  repeat case_bool_decide; simpl; split; intros; try done; try lia; try tauto.
Qed.

Lemma PluginSorter_strict_order (pluginNames : list string) :
  strict_order (PluginSorter plugin pluginNames).
Proof.
  split.
  - intros x. apply not_true_iff_false. rewrite PluginSorter_formula. lia.
  - intros x y z. rewrite !PluginSorter_formula. lia.
Qed.

Lemma PluginSorter_strict_weak_order (pluginNames : list string) :
  strict_weak_order (PluginSorter plugin pluginNames).
Proof.
  split; [apply PluginSorter_strict_order|].
  intros x y z. rewrite <- !not_true_iff_false, !PluginSorter_formula. lia.
Qed.

Lemma ascending_before {A} (lessThan : A → A → bool) (l : list A) (i j : nat) x y :
  strict_order lessThan → ascending lessThan l →
  l !! i = Some x → l !! j = Some y → lessThan x y = true → (i < j)%nat.
Proof.
  intros [Hirr _] Hasc Hi Hj Hlt.
  destruct (decide (i < j)%nat) as [|Hge]; [done|]. exfalso.
  destruct (decide (i = j)) as [->|Hne].
  - rewrite Hi in Hj. injection Hj as ->. rewrite Hirr in Hlt. done.
  - assert (lessThan x y = false) by (eapply (Hasc j i); [lia|done..]).
    congruence.
Qed.

(** C3: [setPluginPriority] sorts [m_loaders] by [PluginSorter], which is
    the comparator of the claim over [rank], the first index of the
    loader's name in the list or -1; by what [qSort] promises, in the
    sorted collection a loader that the comparator puts before another
    stands before it: a named loader before an unnamed one, of two named
    loaders the one of smaller index, of two unnamed loaders the one of
    higher priority.  Nothing but the order of the collection changes. *)
Theorem setPluginPriority_order
    (qSort : (Handle → Handle → bool) → list Handle → list Handle)
    (pluginNames : list string) f :
  sorts_by_lessThan qSort →
  let rank := PluginSorter_value plugin pluginNames in
  let f' := setPluginPriority plugin qSort pluginNames f in
  (∀ x y, PluginSorter plugin pluginNames x y = true ↔
          (rank x ≠ -1 ∧ (rank y = -1 ∨ rank x < rank y)) ∨
          (rank x = -1 ∧ rank y = -1 ∧ priority (plugin x) > priority (plugin y))) ∧
  (∀ x, rank x = -1 ↔ name (plugin x) ∉ pluginNames) ∧
  (∀ x, name (plugin x) ∈ pluginNames →
        ∃ i : nat, rank x = Z.of_nat i ∧ pluginNames !! i = Some (name (plugin x))) ∧
  m_loaders f ≡ₚ m_loaders f' ∧
  m_disabledLoaders f' = m_disabledLoaders f ∧
  m_loaderChildren f' = m_loaderChildren f ∧
  ∀ (i j : nat) x y,
    m_loaders f' !! i = Some x → m_loaders f' !! j = Some y →
    (PluginSorter plugin pluginNames x y = true → (i < j)%nat) ∧
    (name (plugin x) ∈ pluginNames → name (plugin y) ∉ pluginNames → (i < j)%nat) ∧
    (name (plugin x) ∈ pluginNames → name (plugin y) ∈ pluginNames →
     rank x < rank y → (i < j)%nat) ∧
    (name (plugin x) ∉ pluginNames → name (plugin y) ∉ pluginNames →
     priority (plugin x) > priority (plugin y) → (i < j)%nat).
Proof.
  intros Hsort rank f'.
  destruct (Hsort (PluginSorter plugin pluginNames) (m_loaders f)
              (PluginSorter_strict_weak_order pluginNames)) as [Hperm Hasc].
  assert (Hrank : ∀ x, rank x = -1 ↔ name (plugin x) ∉ pluginNames).
  { intros x. apply indexOf_absent. }
  split; [intros x y; apply PluginSorter_formula|].
  split; [done|].
  split.
  { intros x Hx. destruct (indexOf_first _ _ Hx) as (i & E & Hi & _). by exists i. }
  split; [done|]. split; [done|]. split; [done|].
  intros i j x y Hi Hj.
  assert (Hbefore : PluginSorter plugin pluginNames x y = true → (i < j)%nat).
  { intros Hlt.
    exact (ascending_before (PluginSorter plugin pluginNames) (m_loaders f') i j x y
             (PluginSorter_strict_order pluginNames) Hasc Hi Hj Hlt). }
  split; [done|].
  repeat split; intros; apply Hbefore, PluginSorter_formula; fold rank.
  - left. split; [by rewrite Hrank; intros ?|]. left. by apply Hrank.
  - left. split; [by rewrite Hrank; intros ?|]. tauto.
  - right. rewrite !Hrank. done.
Qed.

(** Insertion sort keeps the promise of [qSort]. *)
Lemma insert_sorted_perm {A} (lessThan : A → A → bool) x l :
  x :: l ≡ₚ insert_sorted lessThan x l.
Proof.
  induction l as [|y l IH]; simpl; [done|].
  destruct (lessThan x y); [done|]. rewrite <- IH. apply perm_swap.
Qed.

Lemma insertion_sort_perm {A} (lessThan : A → A → bool) l :
  l ≡ₚ insertion_sort lessThan l.
Proof.
  induction l as [|x l IH]; simpl; [done|].
  rewrite <- insert_sorted_perm. by constructor.
Qed.

Lemma insert_sorted_ascending {A} (lessThan : A → A → bool) x l :
  strict_order lessThan →
  StronglySorted (λ a b, lessThan b a = false) l →
  StronglySorted (λ a b, lessThan b a = false) (insert_sorted lessThan x l).
Proof.
  intros [Hirr Htr]. induction 1 as [|y l Hs IH Hall]; simpl.
  - repeat constructor.
  - destruct (lessThan x y) eqn:Hxy.
    + constructor; [by constructor|]. constructor.
      * apply not_true_iff_false. intros Hyx.
        pose proof (Htr _ _ _ Hxy Hyx) as Hxx. rewrite Hirr in Hxx. done.
      * eapply Forall_impl; [exact Hall|]. simpl. intros z Hzy.
        apply not_true_iff_false. intros Hzx.
        pose proof (Htr _ _ _ Hzx Hxy). congruence.
    + constructor; [done|].
      rewrite <- (insert_sorted_perm lessThan x l). by constructor.
Qed.

Lemma StronglySorted_ascending {A} (lessThan : A → A → bool) (l : list A) :
  StronglySorted (λ a b, lessThan b a = false) l → ascending lessThan l.
Proof.
  induction 1 as [|x l Hs IH Hall]; intros i j a b Hij Hi Hj.
  - done.
  - destruct j as [|j]; [lia|]. simpl in Hj. destruct i as [|i]; simpl in Hi.
    + injection Hi as ->. rewrite Forall_forall in Hall.
      apply Hall. by eapply list_elem_of_lookup_2.
    + eapply (IH i j); [lia|done..].
Qed.

Lemma insertion_sort_sorts : sorts_by_lessThan insertion_sort.
Proof.
  intros lessThan l [Hord _]. split; [apply insertion_sort_perm|].
  apply StronglySorted_ascending.
  induction l as [|x l IH]; simpl; [constructor|].
  by apply insert_sorted_ascending.
Qed.

(** ** Disabled loaders are not entered *)

Lemma isLoaderEnabled_same_set f f' (p : ItemLoaderInterfacePtr) :
  m_disabledLoaders f = m_disabledLoaders f' →
  isLoaderEnabled f p = isLoaderEnabled f' p.
Proof. unfold isLoaderEnabled. by intros ->. Qed.

Lemma enters_only_enabled_same_set f f' cs :
  m_disabledLoaders f = m_disabledLoaders f' →
  enters_only_enabled f cs → enters_only_enabled f' cs.
Proof.
  intros E Hcs. unfold enters_only_enabled in *.
  eapply Forall_impl; [exact Hcs|]. simpl. intros c H h Hc.
  rewrite <- (isLoaderEnabled_same_set f f') by done. by apply H.
Qed.

Lemma enters_only_enabled_not_enters f cs h :
  enters_only_enabled f cs → isLoaderEnabled f (Some h) = false → ¬ enters h cs.
Proof.
  unfold enters_only_enabled, enters. rewrite Forall_forall. intros H En Hin.
  apply list_elem_of_fmap in Hin as (c & Hc & Hin).
  specialize (H c Hin h (eq_sym Hc)). congruence.
Qed.

Lemma transform_chain_enters index item hs cs last :
  transform_chain index item hs cs last →
  Forall (λ c, ∀ h, callee c = Some h → h ∈ hs) cs.
Proof.
  induction 1 as [| item h hs cs last _ IH | item newItem h hs cs last _ IH].
  - constructor.
  - constructor.
    + simpl. intros ? [= <-]. apply elem_of_cons. tauto.
    + eapply Forall_impl; [exact IH|]. simpl. intros c H x Hx.
      apply elem_of_cons. right. by apply H.
  - constructor.
    + simpl. intros ? [= <-]. apply elem_of_cons. tauto.
    + eapply Forall_impl; [exact IH|]. simpl. intros c H x Hx.
      apply elem_of_cons. right. by apply H.
Qed.

Lemma chain_only_enabled index item f cs last :
  transform_chain index item (enabledLoaders f) cs last →
  enters_only_enabled f cs.
Proof.
  intros H%transform_chain_enters. unfold enters_only_enabled.
  eapply Forall_impl; [exact H|]. simpl. intros c Hc h Hh.
  specialize (Hc h Hh). apply enabledLoaders_elem in Hc. tauto.
Qed.

Lemma finishing_only_enabled f index item :
  enters_only_enabled f (finishing_calls index item).
Proof.
  unfold enters_only_enabled, finishing_calls.
  destruct (bool_decide _); repeat constructor; simpl; intros; done.
Qed.

Lemma createItem_frame (p : ItemLoaderInterfacePtr) index parent s :
  let r := createItem plugin p index parent s in
  enters_only_enabled (factory s) (calls r) ∧
  m_loaders (factory (final r)) = m_loaders (factory s) ∧
  m_disabledLoaders (factory (final r)) = m_disabledLoaders (factory s).
Proof.
  intros r. subst r. destruct p as [h|].
  - destruct (createItem_cases h index parent s)
      as [[_ E]|[[En [e E]]|[En (item0 & item & chain & Hr & Hc & Hcalls & Hf & _)]]].
    + rewrite E. unpack. repeat split. constructor.
    + rewrite E. unpack. repeat split. repeat constructor. simpl. by intros ? [= <-].
    + rewrite Hcalls, Hf. repeat split. constructor.
      * simpl. by intros ? [= <-].
      * apply Forall_app. split; [by eapply chain_only_enabled|].
        apply finishing_only_enabled.
  - destruct (createItem_null index parent s)
      as (item & chain & Hr & Hc & Hcalls & Hf & _).
    rewrite Hcalls, Hf. repeat split. constructor; [done|].
    apply Forall_app. split; [by eapply chain_only_enabled|].
    apply finishing_only_enabled.
Qed.

Lemma createItem_any_only_enabled index parent s :
  enters_only_enabled (factory s) (calls (createItem_any plugin index parent s)).
Proof.
  destruct (createItem_any_first_helper index parent s)
    as (tried & rest & owner & item0 & item & chain & Hfil & Hown & Hcalls & Hc & _).
  rewrite Hcalls. apply Forall_app. split.
  - apply Forall_fmap, Forall_forall. intros h Hh. simpl. intros ? [= <-].
    assert (h ∈ enabledLoaders (factory s)) as Hen.
    { unfold enabledLoaders. rewrite Hfil. apply elem_of_app. tauto. }
    apply enabledLoaders_elem in Hen. tauto.
  - constructor.
    + destruct owner as [h|]; simpl; [|done]. intros ? [= <-].
      destruct Hown as [rest' ->].
      assert (h ∈ enabledLoaders (factory s)) as Hen.
      { unfold enabledLoaders. rewrite Hfil. apply elem_of_app. right.
        apply elem_of_cons. tauto. }
      apply enabledLoaders_elem in Hen. tauto.
    + apply Forall_app. split; [by eapply chain_only_enabled|].
      apply finishing_only_enabled.
Qed.

Lemma otherItemLoader_loop_frame fuel (currentIndex size dir i : Z) index
    (parent : QObject) s :
  let r := otherItemLoader_loop plugin fuel currentIndex size dir i index parent s in
  enters_only_enabled (factory s) (calls r) ∧
  m_loaders (factory (final r)) = m_loaders (factory s) ∧
  m_disabledLoaders (factory (final r)) = m_disabledLoaders (factory s).
Proof.
  revert i s. induction fuel as [|fuel IH]; intros i s; simpl.
  - repeat split. constructor.
  - case_bool_decide; [|repeat split; constructor].
    destruct (at_index (m_loaders (factory s)) (wrap size i)) as [loader|];
      [|repeat split; constructor].
    pose proof (createItem_frame (Some loader) index parent s) as Hc. simpl in Hc.
    destruct (createItem plugin (Some loader) index parent s) as [[item s1] t1].
    unpack. destruct Hc as (Hen & Hl & Hd).
    destruct item as [item|]; [done|].
    specialize (IH (wrap size i + dir) s1). simpl in IH.
    destruct (otherItemLoader_loop plugin fuel currentIndex size dir
                (wrap size i + dir) index parent s1) as [[r s2] t2].
    unpack. destruct IH as (Hen2 & Hl2 & Hd2). repeat split; try congruence.
    apply Forall_app. split; [done|].
    by apply (enters_only_enabled_same_set (factory s1)).
Qed.

Lemma otherItemLoader_frame fuel index (current : ItemWidget) (dir : Z) s :
  let r := otherItemLoader plugin fuel index current dir s in
  enters_only_enabled (factory s) (calls r) ∧
  m_loaders (factory (final r)) = m_loaders (factory s) ∧
  m_disabledLoaders (factory (final r)) = m_disabledLoaders (factory s).
Proof.
  unfold otherItemLoader, lookup_child. simpl.
  destruct (negb _); [repeat split; constructor|].
  destruct (default None (m_loaderChildren (factory s) !! widget current))
    as [loader|]; [|repeat split; constructor].
  case_bool_decide; [repeat split; constructor|].
  match goal with
  | |- context [otherItemLoader_loop plugin fuel ?c ?n dir ?i index ?p ?s'] =>
      pose proof (otherItemLoader_loop_frame fuel c n dir i index p s') as H'
  end.
  simpl in H'. destruct H' as (Hen & Hl & Hd). repeat split; done.
Qed.

Lemma loadItems_foreach_frame loaders (tabName : string) (model : nat) file s :
  let r := loadItems_foreach plugin loaders tabName model file s in
  enters_only_enabled (factory s) (calls r) ∧ factory (final r) = factory s.
Proof.
  revert file s. induction loaders as [|l loaders IH]; intros file s; simpl.
  - repeat split. constructor.
  - destruct (isLoaderEnabled (factory s) (Some l)) eqn:En; [|apply IH].
    unfold bind, call_loadItems.
    destruct (loaderLoadItems (plugin l) tabName model file (ext s))
      as [[ok file'] e].
    simpl. destruct ok.
    + unpack. repeat split. repeat constructor. simpl. by intros ? [= <-].
    + specialize (IH file' (set_ext e s)). simpl in IH.
      destruct (loadItems_foreach plugin loaders tabName model file' (set_ext e s))
        as [[r s2] t2].
      unpack. destruct IH as [Hen Hf]. split; [|done].
      constructor; [|done]. simpl. by intros ? [= <-].
Qed.

Lemma saveItems_foreach_frame loaders (tabName : string) (model : nat) file s :
  let r := saveItems_foreach plugin loaders tabName model file s in
  enters_only_enabled (factory s) (calls r) ∧ factory (final r) = factory s.
Proof.
  revert file s. induction loaders as [|l loaders IH]; intros file s; simpl.
  - repeat split. constructor.
  - destruct (isLoaderEnabled (factory s) (Some l)) eqn:En; [|apply IH].
    unfold bind, file_seek, call_saveItems.
    destruct (loaderSaveItems (plugin l) tabName model (seek 0 file) (ext s))
      as [[ok file'] e].
    simpl. destruct ok.
    + unpack. repeat split. repeat constructor; simpl; try done.
      by intros ? [= <-].
    + specialize (IH file' (set_ext e s)). simpl in IH.
      destruct (saveItems_foreach plugin loaders tabName model file' (set_ext e s))
        as [[r s2] t2].
      unpack. destruct IH as [Hen Hf]. split; [|done].
      constructor; [done|]. constructor; [|done]. simpl. by intros ? [= <-].
Qed.

Lemma itemsLoaded_foreach_callees loaders (tabName : string) (model : nat) file s :
  let r := itemsLoaded_foreach plugin loaders tabName model file s in
  callee <$> calls r
  = Some <$> filter (λ h, isLoaderEnabled (factory s) (Some h) = true) loaders ∧
  factory (final r) = factory s.
Proof.
  revert file s. induction loaders as [|l loaders IH]; intros file s; simpl.
  - done.
  - rewrite filter_cons.
    destruct (isLoaderEnabled (factory s) (Some l)) eqn:En.
    + rewrite decide_True by done.
      unfold bind, call_itemsLoaded.
      destruct (loaderItemsLoaded (plugin l) tabName model file (ext s))
        as [file' e].
      specialize (IH file' (set_ext e s)). simpl in IH.
      destruct (itemsLoaded_foreach plugin loaders tabName model file' (set_ext e s))
        as [[r s2] t2].
      destruct IH as [Hc Hf]. unfold calls, final in *. cbn [fst snd] in *.
      rewrite fmap_app, Hc. done.
    + rewrite decide_False by done. apply IH.
Qed.

Lemma callees_only_enabled f cs :
  callee <$> cs = Some <$> enabledLoaders f → enters_only_enabled f cs.
Proof.
  intros E. apply Forall_forall. intros c Hc h Hh.
  assert (Some h ∈ callee <$> cs) as Hin.
  { rewrite <- Hh. by apply list_elem_of_fmap_2. }
  rewrite E in Hin. apply list_elem_of_fmap in Hin as (x & [= <-] & Hx).
  apply enabledLoaders_elem in Hx. tauto.
Qed.

(** A disabled loader adds nothing to the formats. *)
Lemma formats_foreach_without h f (e : Ext) loaders (formats : list string) :
  isLoaderEnabled f (Some h) = false →
  formats_foreach plugin f e loaders formats
  = formats_foreach plugin (without_loader h f) e (filter (λ x, x ≠ h) loaders) formats.
Proof.
  intros En. revert formats. induction loaders as [|l loaders IH]; intros formats.
  - done.
  - simpl. rewrite filter_cons. destruct (decide (l ≠ h)) as [Hne|Heq].
    + simpl. rewrite IH.
      by rewrite (isLoaderEnabled_same_set (without_loader h f) f).
    + apply dec_stable in Heq. subst l. rewrite En. apply IH.
Qed.

Lemma dispatch_skips_disabled h s :
  isLoaderEnabled (factory s) (Some h) = false → dispatch_skips plugin h s.
Proof.
  intros En. unfold dispatch_skips. repeat split.
  - intros p index parent.
    eapply enters_only_enabled_not_enters; [|done]. apply createItem_frame.
  - intros index parent.
    eapply enters_only_enabled_not_enters; [|done].
    apply createItem_any_only_enabled.
  - intros item index.
    eapply enters_only_enabled_not_enters; [|done].
    eapply chain_only_enabled. apply transformItem_chain.
  - intros fuel index current dir.
    eapply enters_only_enabled_not_enters; [|done]. apply otherItemLoader_frame.
  - intros tabName model file.
    eapply enters_only_enabled_not_enters; [|done].
    apply (loadItems_foreach_frame (m_loaders (factory s))).
  - intros tabName model file.
    eapply enters_only_enabled_not_enters; [|done].
    apply (saveItems_foreach_frame (m_loaders (factory s))).
  - intros tabName model file.
    eapply enters_only_enabled_not_enters; [|done].
    apply callees_only_enabled.
    apply (itemsLoaded_foreach_callees (m_loaders (factory s))).
  - intros notes items. unfold formatsToSave.
    by rewrite (formats_foreach_without h (factory s)).
Qed.

Lemma formatsToSave_declared (notes items : string) f (e : Ext) x :
  x ∈ formats_foreach plugin f e (m_loaders f) [] →
  x ∈ formatsToSave plugin notes items f e.
Proof.
  intros Hx. unfold formatsToSave, contains.
  repeat case_bool_decide; rewrite ?elem_of_app, ?elem_of_cons; tauto.
Qed.

Lemma dispatch_reaches_enabled h s :
  isLoaderEnabled (factory s) (Some h) = true → h ∈ m_loaders (factory s) →
  dispatch_reaches plugin h s.
Proof.
  intros En Hin.
  assert (h ∈ enabledLoaders (factory s)) as Hen by by apply enabledLoaders_elem.
  unfold dispatch_reaches, enters. repeat split.
  - intros index parent.
    destruct (createItem_cases h index parent s)
      as [[E _]|[[_ [e E]]|[_ (item0 & item & chain & _ & _ & Hcalls & _)]]].
    + congruence.
    + rewrite E. unpack. apply elem_of_cons. tauto.
    + rewrite Hcalls. csimpl. apply elem_of_cons. tauto.
  - intros item index.
    destruct (transformItem_chain item index s) as (_ & _ & Hc).
    apply transform_chain_callees in Hc. rewrite Hc. by apply list_elem_of_fmap_2.
  - intros tabName model file.
    destruct (itemsLoaded_foreach_callees (m_loaders (factory s)) tabName model file s)
      as [Hc _].
    unfold itemsLoaded. rewrite Hc. by apply list_elem_of_fmap_2.
  - intros notes items x Hx. apply formatsToSave_declared.
    apply (formats_foreach_spec (factory s) (ext s) (m_loaders (factory s)) []
             NoDup_nil_2).
    right. by exists h.
Qed.

Lemma dispatch_reaches_not_skips h s :
  dispatch_reaches plugin h s → ¬ dispatch_skips plugin h s.
Proof.
  intros (_ & Hreach & _) (_ & _ & Hskip & _).
  apply (Hskip (DummyItem 0 0 "") (mkIndex 0 "" "")), Hreach.
Qed.

Lemma setLoaderEnabled_self f (p : ItemLoaderInterfacePtr) (enabled : bool) :
  isLoaderEnabled (setLoaderEnabled p enabled f) p = enabled.
Proof.
  destruct enabled; simpl.
  - apply isLoaderEnabled_true. simpl. apply not_elem_of_difference. right.
    by apply elem_of_singleton.
  - apply isLoaderEnabled_false. simpl. apply elem_of_union. right.
    by apply elem_of_singleton.
Qed.

Lemma setLoaderEnabled_other f (p q : ItemLoaderInterfacePtr) (enabled : bool) :
  q ≠ p →
  isLoaderEnabled (setLoaderEnabled p enabled f) q = isLoaderEnabled f q.
Proof.
  intros Hq. unfold isLoaderEnabled. f_equal. apply bool_decide_ext.
  destruct enabled; simpl.
  - rewrite elem_of_difference, elem_of_singleton. tauto.
  - rewrite elem_of_union, elem_of_singleton. tauto.
Qed.

(** C5: [setLoaderEnabled] changes the set of disabled loaders and
    nothing else: the collection and the position of every loader in it
    are what they were, so is the ownership map, the loader is enabled
    afterwards exactly when so asked, and no other loader changes its
    state.  In the state that results, when the loader was disabled no
    dispatch operation enters it, and when it was enabled and is in the
    collection the operations that go through the collection reach it;
    so a loader of the collection is skipped exactly when disabled. *)
Theorem setLoaderEnabled_changes_membership_only (p : ItemLoaderInterfacePtr)
    (enabled : bool) s :
  let f := factory s in
  let f' := setLoaderEnabled p enabled f in
  m_loaders f' = m_loaders f ∧
  m_loaderChildren f' = m_loaderChildren f ∧
  (∀ x, indexOf (m_loaders f') x = indexOf (m_loaders f) x) ∧
  isLoaderEnabled f' p = enabled ∧
  (∀ q : ItemLoaderInterfacePtr, q ≠ p → isLoaderEnabled f' q = isLoaderEnabled f q) ∧
  ∀ h, p = Some h →
    (if enabled
     then h ∈ m_loaders f → dispatch_reaches plugin h (set_factory f' s)
     else dispatch_skips plugin h (set_factory f' s)) ∧
    (h ∈ m_loaders f →
     (dispatch_skips plugin h (set_factory f' s) ↔ enabled = false)).
Proof.
  intros f f'.
  assert (Hl : m_loaders f' = m_loaders f) by (subst f'; by destruct enabled).
  assert (Hp : isLoaderEnabled f' p = enabled) by apply setLoaderEnabled_self.
  split; [done|]. split; [subst f'; by destruct enabled|].
  split; [intros x; by rewrite Hl|]. split; [done|].
  split; [intros q Hq; by apply setLoaderEnabled_other|].
  intros h ->.
  assert (Hskip : enabled = false → dispatch_skips plugin h (set_factory f' s)).
  { intros ->. by apply dispatch_skips_disabled. }
  assert (Hreach : enabled = true → h ∈ m_loaders f →
                   dispatch_reaches plugin h (set_factory f' s)).
  { intros -> Hin. apply dispatch_reaches_enabled; simpl; done. }
  split.
  - destruct enabled; [by apply Hreach|by apply Hskip].
  - intros Hin. split; [|done].
    intros Hs. destruct enabled; [|done].
    exfalso. by apply (dispatch_reaches_not_skips h (set_factory f' s)); [apply Hreach|].
Qed.

(** ** Cycling *)

(** C8, amended: when the ownership lookup for the current item gives
    the null loader, because the item is recorded under it or because it
    has no entry, [otherItemLoader] returns no item for every direction
    and every bound on the loop, enters no plugin and makes no call; the
    collection, the disabled set, the plugins' state and the allocator
    are unchanged, and every later ownership lookup gives what it gave
    before.  The ownership map itself ends with the entry of the item's
    widget set to the null loader: unchanged when the item was recorded,
    one entry more when it was not. *)
Theorem otherItemLoader_without_owner fuel index (current : ItemWidget) (dir : Z) s :
  dir = 1 ∨ dir = -1 →
  default None (m_loaderChildren (factory s) !! widget current) = None →
  let r := otherItemLoader plugin fuel index current dir s in
  result r = Returned None ∧
  calls r = [] ∧
  ext (final r) = ext s ∧
  nextObject (final r) = nextObject s ∧
  m_loaders (factory (final r)) = m_loaders (factory s) ∧
  m_disabledLoaders (factory (final r)) = m_disabledLoaders (factory s) ∧
  m_loaderChildren (factory (final r))
  = <[widget current := None]> (m_loaderChildren (factory s)) ∧
  (∀ w, default None (m_loaderChildren (factory (final r)) !! w)
        = default None (m_loaderChildren (factory s) !! w)) ∧
  (m_loaderChildren (factory s) !! widget current = Some None → final r = s).
Proof.
  intros Hdir Hnone. unfold otherItemLoader, lookup_child. simpl.
  assert (negb (bool_decide (dir = -1) || bool_decide (dir = 1)) = false) as ->.
  { destruct Hdir as [-> | ->]; done. }
  rewrite Hnone. unpack. repeat split.
  - intros w. destruct (decide (w = widget current)) as [->|Hne].
    + by rewrite lookup_insert_eq, Hnone.
    + by rewrite lookup_insert_ne.
  - intros Hrec. rewrite insert_id by done.
    destruct s as [[l d c] e n]. done.
Qed.

Lemma at_index_in_range {A} (l : list A) (i : Z) :
  0 ≤ i < Z.of_nat (length l) → ∃ x, at_index l i = Some x ∧ x ∈ l.
Proof.
  intros Hi. unfold at_index. rewrite bool_decide_eq_false_2 by lia.
  destruct (lookup_lt_is_Some_2 l (Z.to_nat i)) as [x Hx]; [lia|].
  exists x. split; [done|]. by eapply list_elem_of_lookup_2.
Qed.

(** With the owner at position 0 and going forward, the loop comes back
    to position 0 inside its body, after the test that should stop it:
    when no loader makes an item the loop never ends. *)
Lemma otherItemLoader_loop_forward_never_returns fuel (size i : Z) index
    (parent : QObject) s :
  size = Z.of_nat (length (m_loaders (factory s))) →
  (∀ x, x ∈ m_loaders (factory s) → isLoaderEnabled (factory s) (Some x) = false) →
  1 ≤ i ≤ size →
  otherItemLoader_loop plugin fuel 0 size 1 i index parent s = (OutOfFuel, s, []).
Proof.
  intros Hsize Hoff. revert i. induction fuel as [|fuel IH]; intros i Hi; simpl.
  - done.
  - rewrite bool_decide_eq_true_2 by lia.
    assert (0 ≤ wrap size i < size ∧ 1 ≤ wrap size i + 1 ≤ size) as [Hw Hnext].
    { unfold wrap. case_bool_decide.
      - assert (i = size) as -> by lia. rewrite Z.rem_same by lia. lia.
      - rewrite bool_decide_eq_false_2 by lia. lia. }
    destruct (at_index_in_range (m_loaders (factory s)) (wrap size i))
      as (x & -> & Hx); [lia|].
    rewrite createItem_disabled by by apply Hoff.
    rewrite IH by done. done.
Qed.

(** The same going backward with the owner at the last position. *)
Lemma otherItemLoader_loop_backward_never_returns fuel (size i : Z) index
    (parent : QObject) s :
  size = Z.of_nat (length (m_loaders (factory s))) →
  (∀ x, x ∈ m_loaders (factory s) → isLoaderEnabled (factory s) (Some x) = false) →
  -1 ≤ i ≤ size - 2 →
  otherItemLoader_loop plugin fuel (size - 1) size (-1) i index parent s
  = (OutOfFuel, s, []).
Proof.
  intros Hsize Hoff. revert i. induction fuel as [|fuel IH]; intros i Hi; simpl.
  - done.
  - rewrite bool_decide_eq_true_2 by lia.
    assert (0 ≤ wrap size i < size ∧ -1 ≤ wrap size i + -1 ≤ size - 2)
      as [Hw Hnext].
    { unfold wrap. rewrite bool_decide_eq_false_2 by lia.
      case_bool_decide; lia. }
    destruct (at_index_in_range (m_loaders (factory s)) (wrap size i))
      as (x & -> & Hx); [lia|].
    rewrite createItem_disabled by by apply Hoff.
    rewrite IH by done. done.
Qed.

(** X18: whatever bound is put on the loop, cycling forward from the
    first loader, or backward from the last one, does not return when
    every loader of the collection is disabled. *)
Lemma otherItemLoader_never_returns fuel index (current : ItemWidget) h s :
  m_loaderChildren (factory s) !! widget current = Some (Some h) →
  h ∈ m_loaders (factory s) →
  (∀ x, x ∈ m_loaders (factory s) → isLoaderEnabled (factory s) (Some x) = false) →
  (indexOf (m_loaders (factory s)) h = 0 →
   result (nextItemLoader plugin fuel index current s) = OutOfFuel) ∧
  (indexOf (m_loaders (factory s)) h = Z.of_nat (length (m_loaders (factory s))) - 1 →
   result (previousItemLoader plugin fuel index current s) = OutOfFuel).
Proof.
  intros Hown Hin Hoff.
  assert (Hlen : 1 ≤ Z.of_nat (length (m_loaders (factory s)))).
  { destruct (m_loaders (factory s)); simpl; [by apply elem_of_nil in Hin|lia]. }
  split; intros Hidx.
  - unfold nextItemLoader, otherItemLoader, lookup_child. simpl.
    rewrite Hown. simpl. rewrite Hidx. simpl.
    rewrite otherItemLoader_loop_forward_never_returns; try done.
  - unfold previousItemLoader, otherItemLoader, lookup_child. simpl.
    rewrite Hown. simpl. rewrite Hidx.
    case_bool_decide as Hm; [lia|].
    rewrite otherItemLoader_loop_backward_never_returns; try done.
    simpl. lia.
Qed.

(** *** The walk from a position that is not at the end of its direction *)

Lemma createItem_keeps_loaders h index parent s :
  m_loaders (factory (final (createItem plugin (Some h) index parent s)))
  = m_loaders (factory s).
Proof. apply (createItem_frame (Some h)). Qed.

(** One turn of the loop at a position [p] in range that is not the
    owner's: the loader there is asked, and the loop goes on from
    [p + dir] when it declines. *)
Lemma otherItemLoader_loop_turn fuel (c dir i : Z) (p : nat) h index
    (parent : QObject) s :
  i ≠ c →
  wrap (Z.of_nat (length (m_loaders (factory s)))) i = Z.of_nat p →
  m_loaders (factory s) !! p = Some h →
  otherItemLoader_loop plugin (S fuel) c (Z.of_nat (length (m_loaders (factory s))))
    dir i index parent s
  = let '(item, s1, t1) := createItem plugin (Some h) index parent s in
    match item with
    | Some item => (Returned (Some item), s1, t1)
    | None =>
        let '(r, s2, t2) :=
          otherItemLoader_loop plugin fuel c
            (Z.of_nat (length (m_loaders (factory s)))) dir (Z.of_nat p + dir)
            index parent s1 in
        (r, s2, t1 ++ t2)
    end.
Proof.
  intros Hne Hwrap Hh. simpl. rewrite bool_decide_eq_true_2 by done.
  rewrite Hwrap. unfold at_index. rewrite bool_decide_eq_false_2 by lia.
  rewrite Nat2Z.id, Hh. done.
Qed.

Lemma try_positions_cons (l : list Handle) (p : nat) rest h index (parent : QObject) s :
  l !! p = Some h →
  returned (try_positions plugin l (p :: rest) index parent) s
  = let '(item, s1, t1) := createItem plugin (Some h) index parent s in
    match item with
    | Some item => (Returned (Some item), s1, t1)
    | None =>
        let '(r, s2, t2) := returned (try_positions plugin l rest index parent) s1 in
        (r, s2, t1 ++ t2)
    end.
Proof.
  intros Hh. unfold returned. simpl. rewrite Hh. unfold bind.
  destruct (createItem plugin (Some h) index parent s) as [[[item|] s1] t1].
  - unfold ret. by rewrite app_nil_r.
  - by destruct (try_positions plugin l rest index parent s1) as [[r s2] t2].
Qed.

(** Both sides take the same turn. *)
Lemma walk_step fuel (c dir i : Z) (p : nat) rest index (parent : QObject) s :
  i ≠ c →
  wrap (Z.of_nat (length (m_loaders (factory s)))) i = Z.of_nat p →
  (p < length (m_loaders (factory s)))%nat →
  (∀ s1, m_loaders (factory s1) = m_loaders (factory s) →
         otherItemLoader_loop plugin fuel c
           (Z.of_nat (length (m_loaders (factory s)))) dir (Z.of_nat p + dir)
           index parent s1
         = returned (try_positions plugin (m_loaders (factory s)) rest index parent) s1) →
  otherItemLoader_loop plugin (S fuel) c (Z.of_nat (length (m_loaders (factory s))))
    dir i index parent s
  = returned (try_positions plugin (m_loaders (factory s)) (p :: rest) index parent) s.
Proof.
  intros Hne Hwrap Hp Hrest.
  destruct (lookup_lt_is_Some_2 (m_loaders (factory s)) p) as [h Hh]; [done|].
  rewrite (otherItemLoader_loop_turn fuel c dir i p h) by done.
  rewrite (try_positions_cons _ p rest h) by done.
  pose proof (createItem_keeps_loaders h index parent s) as Hkeep.
  destruct (createItem plugin (Some h) index parent s) as [[[item|] s1] t1]; [done|].
  unpack. by rewrite Hrest.
Qed.

Lemma wrap_in_range (n i : Z) : 0 ≤ i < n → wrap n i = i.
Proof.
  intros Hi. unfold wrap. by rewrite !bool_decide_eq_false_2 by lia.
Qed.

Lemma wrap_past_end (n : Z) : 0 < n → wrap n n = 0.
Proof.
  intros Hn. unfold wrap. rewrite bool_decide_eq_true_2 by lia.
  apply Z.rem_same. lia.
Qed.

Lemma wrap_before_start (n : Z) : 0 < n → wrap n (-1) = n - 1.
Proof.
  intros Hn. unfold wrap. rewrite bool_decide_eq_false_2 by lia.
  by rewrite bool_decide_eq_true_2 by lia.
Qed.

(** Forward, at or before the owner's position [c]: the positions up to
    [c], excluded, remain. *)
Lemma walk_forward_tail fuel (c i : nat) index (parent : QObject) s :
  (i ≤ c)%nat → (c < length (m_loaders (factory s)))%nat → (c - i < fuel)%nat →
  otherItemLoader_loop plugin fuel (Z.of_nat c)
    (Z.of_nat (length (m_loaders (factory s)))) 1 (Z.of_nat i) index parent s
  = returned (try_positions plugin (m_loaders (factory s)) (seq i (c - i))
                index parent) s.
Proof.
  revert i s. induction fuel as [|fuel IH]; intros i s Hi Hc Hfuel; [lia|].
  destruct (decide (i = c)) as [->|Hne].
  - simpl. rewrite bool_decide_eq_false_2 by (intros ?; done).
    by rewrite Nat.sub_diag.
  - replace (c - i)%nat with (S (c - S i)) by lia. rewrite <- cons_seq.
    apply walk_step; [lia|apply wrap_in_range; lia|lia|].
    intros s1 Hs1. rewrite <- Hs1.
    replace (Z.of_nat i + 1) with (Z.of_nat (S i)) by lia.
    apply IH; rewrite ?Hs1; lia.
Qed.

(** Forward, past the owner's position [c > 0]: the positions up to the
    end remain, then those from 0 up to [c], excluded. *)
Lemma walk_forward_head fuel (c i : nat) index (parent : QObject) s :
  (0 < c)%nat → (c < i)%nat → (i ≤ length (m_loaders (factory s)))%nat →
  (length (m_loaders (factory s)) - i + c < fuel)%nat →
  otherItemLoader_loop plugin fuel (Z.of_nat c)
    (Z.of_nat (length (m_loaders (factory s)))) 1 (Z.of_nat i) index parent s
  = returned (try_positions plugin (m_loaders (factory s))
                (seq i (length (m_loaders (factory s)) - i) ++ seq 0 c)
                index parent) s.
Proof.
  intros Hc. revert i s. induction fuel as [|fuel IH]; intros i s Hi Hn Hfuel; [lia|].
  destruct (decide (i = length (m_loaders (factory s)))) as [->|Hne].
  - rewrite Nat.sub_diag. simpl (seq _ 0 ++ _).
    replace c with (S (c - 1)) at 2 by lia. rewrite <- cons_seq.
    apply walk_step; [lia|apply wrap_past_end; lia|lia|].
    intros s1 Hs1. rewrite <- Hs1.
    apply (walk_forward_tail fuel c 1); rewrite ?Hs1; lia.
  - replace (length (m_loaders (factory s)) - i)%nat
      with (S (length (m_loaders (factory s)) - S i)) by lia.
    rewrite <- cons_seq. rewrite <- app_comm_cons.
    apply walk_step; [lia|apply wrap_in_range; lia|lia|].
    intros s1 Hs1. rewrite <- Hs1.
    replace (Z.of_nat i + 1) with (Z.of_nat (S i)) by lia.
    apply IH; rewrite ?Hs1; lia.
Qed.

(** Backward, at or after the owner's position [c]: the positions down
    to [c], excluded, remain. *)
Lemma walk_backward_tail fuel (c i : nat) index (parent : QObject) s :
  (c ≤ i)%nat → (i < length (m_loaders (factory s)))%nat → (i - c < fuel)%nat →
  otherItemLoader_loop plugin fuel (Z.of_nat c)
    (Z.of_nat (length (m_loaders (factory s)))) (-1) (Z.of_nat i) index parent s
  = returned (try_positions plugin (m_loaders (factory s))
                (reverse (seq (S c) (i - c))) index parent) s.
Proof.
  revert i s. induction fuel as [|fuel IH]; intros i s Hi Hn Hfuel; [lia|].
  destruct (decide (i = c)) as [->|Hne].
  - simpl. rewrite bool_decide_eq_false_2 by (intros ?; done).
    by rewrite Nat.sub_diag.
  - replace (i - c)%nat with (S (i - 1 - c)) by lia.
    rewrite seq_S, reverse_snoc.
    replace (S c + (i - 1 - c))%nat with i by lia.
    apply walk_step; [lia|apply wrap_in_range; lia|lia|].
    intros s1 Hs1. rewrite <- Hs1.
    replace (Z.of_nat i + -1) with (Z.of_nat (i - 1)) by lia.
    apply IH; rewrite ?Hs1; lia.
Qed.

(** Backward, before the owner's position [c], which is not the last:
    the positions down to 0 remain, then those from the end down to
    [c], excluded. *)
Lemma walk_backward_head fuel (c j : nat) index (parent : QObject) s :
  (c + 1 < length (m_loaders (factory s)))%nat → (j ≤ c)%nat →
  (j + (length (m_loaders (factory s)) - 1 - c) < fuel)%nat →
  otherItemLoader_loop plugin fuel (Z.of_nat c)
    (Z.of_nat (length (m_loaders (factory s)))) (-1) (Z.of_nat j - 1) index parent s
  = returned (try_positions plugin (m_loaders (factory s))
                (reverse (seq 0 j)
                 ++ reverse (seq (S c) (length (m_loaders (factory s)) - 1 - c)))
                index parent) s.
Proof.
  revert j s. induction fuel as [|fuel IH]; intros j s Hc Hj Hfuel; [lia|].
  destruct j as [|j].
  - simpl (reverse (seq 0 0) ++ _).
    replace (length (m_loaders (factory s)) - 1 - c)%nat
      with (S (length (m_loaders (factory s)) - 2 - c)) by lia.
    rewrite seq_S, reverse_snoc.
    replace (S c + (length (m_loaders (factory s)) - 2 - c))%nat
      with (length (m_loaders (factory s)) - 1)%nat by lia.
    apply walk_step; [lia| |lia|].
    { replace (Z.of_nat 0 - 1) with (-1) by lia. rewrite wrap_before_start; lia. }
    intros s1 Hs1.
    assert (length (m_loaders (factory s1)) = length (m_loaders (factory s)))
      as Hlen by (by rewrite Hs1).
    rewrite <- Hs1.
    replace (Z.of_nat (length (m_loaders (factory s1)) - 1) + -1)
      with (Z.of_nat (length (m_loaders (factory s1)) - 2)) by lia.
    apply (walk_backward_tail fuel c (length (m_loaders (factory s1)) - 2)); lia.
  - rewrite seq_S, reverse_snoc. simpl (0 + j)%nat. rewrite <- app_comm_cons.
    apply walk_step; [lia|rewrite wrap_in_range; lia|lia|].
    intros s1 Hs1. rewrite <- Hs1.
    replace (Z.of_nat j + -1) with (Z.of_nat j - 1) by lia.
    apply IH; rewrite ?Hs1; lia.
Qed.

Lemma fmap_seq_shift (f : nat → nat) (a b m : nat) :
  (∀ k, (k < m)%nat → f (a + k)%nat = (b + k)%nat) → f <$> seq a m = seq b m.
Proof.
  revert a b. induction m as [|m IH]; intros a b H; [done|].
  csimpl. f_equal.
  - specialize (H 0%nat). rewrite !Nat.add_0_r in H. apply H. lia.
  - apply IH. intros k Hk. specialize (H (S k)).
    replace (S a + k)%nat with (a + S k)%nat by lia.
    replace (S b + k)%nat with (b + S k)%nat by lia. apply H. lia.
Qed.

Lemma cycle_positions_forward (n c : nat) :
  (c < n)%nat →
  cycle_positions n c 1 = seq (S c) (n - S c) ++ seq 0 c.
Proof.
  intros Hc. unfold cycle_positions. rewrite bool_decide_eq_true_2 by done.
  replace (n - 1)%nat with ((n - S c) + c)%nat by lia.
  rewrite seq_app, fmap_app. f_equal.
  - apply fmap_seq_shift. intros k Hk. rewrite Nat.mod_small by lia. lia.
  - apply fmap_seq_shift. intros k Hk.
    replace (c + (1 + (n - S c) + k))%nat with (k + 1 * n)%nat by lia.
    rewrite Nat.Div0.mod_add. rewrite Nat.mod_small by lia. lia.
Qed.

Lemma cycle_positions_backward (n c : nat) :
  (c < n)%nat →
  cycle_positions n c (-1) = reverse (seq 0 c) ++ reverse (seq (S c) (n - 1 - c)).
Proof.
  intros Hc. pose proof (cycle_positions_forward n c Hc) as H.
  unfold cycle_positions in *. rewrite bool_decide_eq_true_2 in H by done.
  rewrite bool_decide_eq_false_2 by done. rewrite H, reverse_app.
  by replace (n - S c)%nat with (n - 1 - c)%nat by lia.
Qed.

Lemma lookup_child_recorded (w : QObject) (p : ItemLoaderInterfacePtr) s :
  m_loaderChildren (factory s) !! w = Some p →
  lookup_child w s = (p, s, []).
Proof.
  intros H. unfold lookup_child. rewrite H. simpl. rewrite insert_id by done.
  by destruct s as [[l d c] e n].
Qed.

(** X17: where [otherItemLoader] does what the cycling claim says: the owner
    is at position [c] of the collection, and it is not at position 0
    when going forward, not at the last position when going backward.
    With a bound of at least the size of the collection the loop returns,
    and it is the walk of the claim: the loaders at the positions
    [c+1], ..., [c+n-1] modulo [n] (reversed when going backward) are
    asked in that order, the first item made is returned, and no item
    when all decline; the owner's position is not among them. *)
Lemma otherItemLoader_walk fuel index (current : ItemWidget) (dir : Z) h (c : nat) s :
  m_loaderChildren (factory s) !! widget current = Some (Some h) →
  indexOf (m_loaders (factory s)) h = Z.of_nat c →
  (length (m_loaders (factory s)) ≤ fuel)%nat →
  (dir = 1 ∧ (0 < c)%nat) ∨
  (dir = -1 ∧ (c + 1 < length (m_loaders (factory s)))%nat) →
  otherItemLoader plugin fuel index current dir s
  = returned (try_positions plugin (m_loaders (factory s))
                (cycle_positions (length (m_loaders (factory s))) c dir)
                index (parentWidget current)) s
  ∧ c ∉ cycle_positions (length (m_loaders (factory s))) c dir.
Proof.
  intros Hown Hidx Hfuel Hdir.
  assert (c < length (m_loaders (factory s)))%nat as Hc.
  { destruct (decide (h ∈ m_loaders (factory s))) as [Hin|Hout].
    - destruct (indexOf_first _ _ Hin) as (i & E & Hi & _).
      apply lookup_lt_Some in Hi. lia.
    - apply indexOf_absent in Hout. lia. }
  split.
  - unfold otherItemLoader.
    assert (negb (bool_decide (dir = -1) || bool_decide (dir = 1)) = false) as ->.
    { destruct Hdir as [[-> _]|[-> _]]; done. }
    rewrite (lookup_child_recorded _ _ _ Hown). rewrite Hidx.
    rewrite bool_decide_eq_false_2 by lia.
    destruct Hdir as [[-> H0]|[-> Hlast]].
    + rewrite cycle_positions_forward by done.
      replace (Z.of_nat c + 1) with (Z.of_nat (S c)) by lia.
      apply walk_forward_head; lia.
    + rewrite cycle_positions_backward by done.
      replace (Z.of_nat c + -1) with (Z.of_nat c - 1) by lia.
      apply walk_backward_head; lia.
  - destruct Hdir as [[-> H0]|[-> Hlast]].
    + rewrite cycle_positions_forward by done.
      rewrite elem_of_app, !elem_of_seq. lia.
    + rewrite cycle_positions_backward by done.
      rewrite elem_of_app, !elem_of_reverse, !elem_of_seq. lia.
Qed.

End Properties.

(** * Further properties of the factory *)

Section MoreProperties.

Context {Ext : Type} (plugin : Handle → ItemLoaderInterface Ext).

Implicit Types (s : World Ext) (f : ItemFactory) (h loader : Handle).
Implicit Types (index : QModelIndex) (item : ItemWidget) (file : QFile).

Ltac unpack := unfold result, final, calls in *; simpl in *.

(** ** Loading and notifying *)

Lemma loadItems_foreach_spec loaders (tabName : string) (model : nat) file s :
  let r := loadItems_foreach plugin loaders tabName model file s in
  ∃ attempts : list (Handle * QFile * bool),
    calls r = load_attempt <$> attempts ∧
    load_chain plugin tabName model file (ext s) attempts (result r).2
      (ext (final r)) ∧
    factory (final r) = factory s ∧
    if (result r).1
    then ∃ init last,
           attempts = init ++ [last] ∧ last.2 = true ∧
           Forall (λ a, a.2 = false) init ∧
           ((λ a, a.1.1) <$> attempts)
             `prefix_of` filter (λ h, isLoaderEnabled (factory s) (Some h) = true)
                           loaders
    else Forall (λ a, a.2 = false) attempts ∧
         (λ a, a.1.1) <$> attempts
         = filter (λ h, isLoaderEnabled (factory s) (Some h) = true) loaders.
Proof.
  revert file s. induction loaders as [|l loaders IH]; intros file s; simpl.
  - exists []. unpack. repeat split; constructor.
  - rewrite filter_cons.
    destruct (isLoaderEnabled (factory s) (Some l)) eqn:En.
    + rewrite decide_True by done.
      unfold bind, call_loadItems.
      destruct (loaderLoadItems (plugin l) tabName model file (ext s))
        as [[ok file'] e] eqn:Ld.
      simpl. destruct ok.
      * exists [(l, file, true)]. unpack.
        repeat split; try done.
        -- econstructor; [exact Ld|constructor].
        -- exists [], (l, file, true). repeat split; try done.
           by apply prefix_cons, prefix_nil.
      * specialize (IH file' (set_ext e s)). simpl in IH.
        destruct (loadItems_foreach plugin loaders tabName model file' (set_ext e s))
          as [[[ok f2] s2] t2].
        destruct IH as (attempts & Hcalls & Hchain & Hf & Hres). unpack.
        exists ((l, file, false) :: attempts). csimpl.
        rewrite Hcalls. repeat split; try done.
        -- econstructor; [exact Ld|exact Hchain].
        -- destruct ok.
           ++ destruct Hres as (init & last & -> & Hlast & Hinit & Hpre).
              exists ((l, file, false) :: init), last.
              repeat split; try done; [by constructor|].
              by apply prefix_cons.
           ++ destruct Hres as [Hall Hmap]. split; [by constructor|].
              by rewrite Hmap.
    + rewrite decide_False by done. apply IH.
Qed.

(** X1: [loadItems] asks the enabled loaders in collection order and
    nothing else (it never seeks): each loader is handed the file as the
    loader before it left it, the first one the file given.  It returns
    true at the first loader that reports success, and false after
    every enabled loader has been asked and none succeeded; the factory
    is unchanged. *)
Theorem loadItems_first_success (tabName : string) (model : nat) file s :
  let r := loadItems plugin tabName model file s in
  ∃ attempts : list (Handle * QFile * bool),
    calls r = load_attempt <$> attempts ∧
    load_chain plugin tabName model file (ext s) attempts (result r).2
      (ext (final r)) ∧
    factory (final r) = factory s ∧
    if (result r).1
    then ∃ init last,
           attempts = init ++ [last] ∧ last.2 = true ∧
           Forall (λ a, a.2 = false) init ∧
           ((λ a, a.1.1) <$> attempts) `prefix_of` enabledLoaders (factory s)
    else Forall (λ a, a.2 = false) attempts ∧
         (λ a, a.1.1) <$> attempts = enabledLoaders (factory s).
Proof. apply loadItems_foreach_spec. Qed.

Lemma itemsLoaded_foreach_spec loaders (tabName : string) (model : nat) file s :
  let r := itemsLoaded_foreach plugin loaders tabName model file s in
  ∃ files : list QFile,
    calls r
    = zip_with CallItemsLoaded
        (filter (λ h, isLoaderEnabled (factory s) (Some h) = true) loaders) files ∧
    length files
    = length (filter (λ h, isLoaderEnabled (factory s) (Some h) = true) loaders) ∧
    head files = (if files is [] then None else Some file) ∧
    (files = [] → result r = file ∧ final r = s) ∧
    factory (final r) = factory s.
Proof.
  revert file s. induction loaders as [|l loaders IH]; intros file s; simpl.
  - exists []. done.
  - rewrite filter_cons.
    destruct (isLoaderEnabled (factory s) (Some l)) eqn:En.
    + rewrite decide_True by done.
      unfold bind, call_itemsLoaded.
      destruct (loaderItemsLoaded (plugin l) tabName model file (ext s))
        as [file' e].
      specialize (IH file' (set_ext e s)). simpl in IH.
      destruct (itemsLoaded_foreach plugin loaders tabName model file' (set_ext e s))
        as [[r s2] t2].
      destruct IH as (files & Hcalls & Hlen & _ & _ & Hf). unpack.
      exists (file :: files). simpl. rewrite Hcalls, Hlen. done.
    + rewrite decide_False by done. apply IH.
Qed.

(** X2: [itemsLoaded] calls [itemsLoaded] of every enabled loader of the
    collection exactly once, in collection order, and of no other
    loader; the first is handed the file given.  With no enabled loader
    it calls nothing and changes nothing.  The factory is unchanged. *)
Theorem itemsLoaded_notifies_every_enabled_loader (tabName : string) (model : nat)
    file s :
  let r := itemsLoaded plugin tabName model file s in
  ∃ files : list QFile,
    calls r = zip_with CallItemsLoaded (enabledLoaders (factory s)) files ∧
    length files = length (enabledLoaders (factory s)) ∧
    head files = (if files is [] then None else Some file) ∧
    (files = [] → result r = file ∧ final r = s) ∧
    factory (final r) = factory s.
Proof. apply itemsLoaded_foreach_spec. Qed.

Lemma saveItems_foreach_chain loaders (tabName : string) (model : nat) file s :
  let r := saveItems_foreach plugin loaders tabName model file s in
  ∃ attempts : list (Handle * QFile * bool),
    calls r = concat (save_attempt <$> attempts) ∧
    save_chain plugin tabName model file (ext s) attempts (result r).2
      (ext (final r)) ∧
    (λ a, a.1.1) <$> attempts
    `prefix_of` filter (λ h, isLoaderEnabled (factory s) (Some h) = true) loaders ∧
    (attempts = [] → result r = (false, file) ∧ final r = s).
Proof.
  revert file s. induction loaders as [|l loaders IH]; intros file s; simpl.
  - exists []. unpack. repeat split; [constructor|done].
  - rewrite filter_cons.
    destruct (isLoaderEnabled (factory s) (Some l)) eqn:En.
    + rewrite decide_True by done.
      unfold bind, file_seek, call_saveItems.
      destruct (loaderSaveItems (plugin l) tabName model (seek 0 file) (ext s))
        as [[ok file'] e] eqn:Sv.
      simpl. destruct ok.
      * exists [(l, seek 0 file, true)]. unpack. repeat split; try done.
        -- econstructor; [exact Sv|constructor].
        -- by apply prefix_cons, prefix_nil.
      * specialize (IH file' (set_ext e s)). simpl in IH.
        destruct (saveItems_foreach plugin loaders tabName model file' (set_ext e s))
          as [[[ok f2] s2] t2].
        destruct IH as (attempts & Hcalls & Hchain & Hpre & _). unpack.
        exists ((l, seek 0 file, false) :: attempts). csimpl.
        rewrite Hcalls. repeat split; try done.
        -- econstructor; [exact Sv|exact Hchain].
        -- by apply prefix_cons.
    + rewrite decide_False by done. apply IH.
Qed.

(** X16: [saveItems] rewinds and never truncates: each enabled loader
    that is tried gets the file that the loader tried before it left,
    with its position set to 0 and its bytes untouched (the first one
    the file given), so what a failed loader wrote is still in the file
    that the next one is handed.  With no enabled loader the file is
    returned as it was given, not even rewound. *)
Theorem saveItems_never_truncates (tabName : string) (model : nat) file s :
  let r := saveItems plugin tabName model file s in
  ∃ attempts : list (Handle * QFile * bool),
    calls r = concat (save_attempt <$> attempts) ∧
    save_chain plugin tabName model file (ext s) attempts (result r).2
      (ext (final r)) ∧
    (λ a, a.1.1) <$> attempts `prefix_of` enabledLoaders (factory s) ∧
    (∀ pos any, fileData (seek pos any) = fileData any) ∧
    (enabledLoaders (factory s) = [] → result r = (false, file) ∧ final r = s).
Proof.
  intros r.
  destruct (saveItems_foreach_chain (m_loaders (factory s)) tabName model file s)
    as (attempts & Hcalls & Hchain & Hpre & Hnil).
  exists attempts. fold (enabledLoaders (factory s)) in Hpre.
  split; [done|]. split; [done|]. split; [done|]. split; [done|].
  intros Hnone. rewrite Hnone in Hpre. apply prefix_nil_inv in Hpre.
  apply fmap_nil_inv in Hpre. by apply Hnil.
Qed.

(** ** The transform chain *)

Lemma transform_chain_last index item hs cs last_item :
  transform_chain index item hs cs last_item →
  last_item = default item (last (omap transform_answer cs)).
Proof.
  induction 1 as [| item h hs cs lst _ IH | item newItem h hs cs lst _ IH]; simpl.
  - done.
  - done.
  - rewrite last_cons. rewrite IH.
    change (list_omap Call ItemWidget transform_answer cs)
      with (omap transform_answer cs).
    by destruct (last (omap transform_answer cs)).
Qed.

(** X3: [transformItem] returns the last non-null answer that the
    enabled loaders gave, and the item it was given when every one of
    them declined or none is enabled; it calls [transform] of each
    enabled loader once, in collection order, each on the item current
    at that point and over the plugins' state as the call before left
    it, the answer recorded being the one that loader's [transform]
    gave ([transform_run]); it leaves the factory as it is. *)
Theorem transformItem_last_answer item index s :
  let r := transformItem plugin item index s in
  result r = default item (last (omap transform_answer (calls r))) ∧
  transform_run plugin index item (ext s) (enabledLoaders (factory s))
    (calls r) (result r) (ext (final r)) ∧
  callee <$> calls r = Some <$> enabledLoaders (factory s) ∧
  Forall (λ c, ∃ h it res, c = CallTransform h it index res) (calls r) ∧
  factory (final r) = factory s.
Proof.
  intros r.
  destruct (transformItem_from_run plugin (m_loaders (factory s)) item index s)
    as (Hf & _ & Hrun).
  pose proof (transform_run_chain plugin _ _ _ _ _ _ _ Hrun) as Hc.
  change (transformItem_from plugin (m_loaders (factory s)) item index s)
    with r in Hf, Hrun, Hc.
  split; [by apply transform_chain_last in Hc|].
  split; [exact Hrun|].
  split; [by apply transform_chain_callees in Hc|].
  split; [|done].
  clear Hf Hrun. induction Hc; constructor; eauto.
Qed.

(** ** Enabling and disabling *)

Lemma ItemFactory_eq f f' :
  m_loaders f = m_loaders f' → m_disabledLoaders f = m_disabledLoaders f' →
  m_loaderChildren f = m_loaderChildren f' → f = f'.
Proof. destruct f, f'. simpl. by intros -> -> ->. Qed.

(** X4: [setLoaderEnabled] is idempotent, the last call for a loader
    decides its state, and setting a loader back to the state it had
    restores the factory exactly, whatever was set in between. *)
Theorem setLoaderEnabled_round_trip (p : ItemLoaderInterfacePtr) (a b : bool) f :
  setLoaderEnabled p b (setLoaderEnabled p b f) = setLoaderEnabled p b f ∧
  setLoaderEnabled p b (setLoaderEnabled p a f) = setLoaderEnabled p b f ∧
  setLoaderEnabled p (isLoaderEnabled f p) (setLoaderEnabled p a f) = f.
Proof.
  assert (∀ (D D' : gset ItemLoaderInterfacePtr),
            (∀ x, x ≠ p → (x ∈ D ↔ x ∈ D')) → (p ∈ D ↔ p ∈ D') → D = D')
    as Hset.
  { intros D D' Hne Hp. apply set_eq. intros x.
    destruct (decide (x = p)) as [->|]; auto. }
  assert (Hp : ∀ (D : gset ItemLoaderInterfacePtr) x,
            (x ∈ D ∪ {[p]} ↔ x ∈ D ∨ x = p) ∧ (x ∈ D ∖ {[p]} ↔ x ∈ D ∧ x ≠ p)).
  { intros D x. rewrite elem_of_union, elem_of_difference, elem_of_singleton. done. }
  repeat split.
  - apply ItemFactory_eq; destruct b; simpl; try done; apply Hset; intros;
      repeat (rewrite (proj1 (Hp _ _)) || rewrite (proj2 (Hp _ _))); intuition congruence.
  - apply ItemFactory_eq; destruct a, b; simpl; try done; apply Hset; intros;
      repeat (rewrite (proj1 (Hp _ _)) || rewrite (proj2 (Hp _ _))); intuition congruence.
  - destruct (isLoaderEnabled f p) eqn:En.
    + apply isLoaderEnabled_true in En.
      apply ItemFactory_eq; destruct a; simpl; try done; apply Hset; intros;
        repeat (rewrite (proj1 (Hp _ _)) || rewrite (proj2 (Hp _ _))); intuition congruence.
    + apply isLoaderEnabled_false in En.
      apply ItemFactory_eq; destruct a; simpl; try done; apply Hset; intros;
        repeat (rewrite (proj1 (Hp _ _)) || rewrite (proj2 (Hp _ _))); intuition congruence.
Qed.

(** ** What a [createItem] leaves behind *)

Lemma transform_chain_shape index item hs cs last_item :
  transform_chain index item hs cs last_item →
  Forall (λ c, ∃ h it res, c = CallTransform h it index res) cs.
Proof. induction 1; constructor; eauto. Qed.

Lemma createItem_success (p : ItemLoaderInterfacePtr) index parent s item :
  result (createItem plugin p index parent s) = Some item →
  ∃ item0 chain,
    transform_chain index item0 (enabledLoaders (factory s)) chain item ∧
    calls (createItem plugin p index parent s)
    = creation_call p index parent item0 :: chain ++ finishing_calls index item ∧
    factory (final (createItem plugin p index parent s))
    = with_child (widget item) p (factory s).
Proof.
  intros Hres. destruct p as [h|].
  - destruct (createItem_cases plugin h index parent s)
      as [[_ E]|[[_ [e E]]|[_ (item0 & item' & chain & Hr & Hc & Hcalls & Hf & _)]]].
    + rewrite E in Hres. done.
    + rewrite E in Hres. done.
    + rewrite Hr in Hres. injection Hres as ->. by exists item0, chain.
  - destruct (createItem_null plugin index parent s)
      as (item' & chain & Hr & Hc & Hcalls & Hf & _).
    rewrite Hr in Hres. injection Hres as ->. by eexists _, chain.
Qed.

(** X5: when the widget of an item that [createItem] returned is
    destroyed, [loaderChildDestroyed] removes its entry and no other:
    the ownership lookup for it then misses, every other entry, the
    collection and the disabled set are as before the item was made,
    and if the widget had no entry before, the factory is exactly what
    it was.  Cycling from the destroyed item returns no item, forward
    and backward, for every bound on the loop. *)
Theorem loaderChildDestroyed_forgets (p : ItemLoaderInterfacePtr) index
    (parent : QObject) s item (fuel : nat) :
  result (createItem plugin p index parent s) = Some item →
  let s1 := final (createItem plugin p index parent s) in
  let f2 := loaderChildDestroyed (widget item) (factory s1) in
  m_loaderChildren f2 !! widget item = None ∧
  (∀ w, w ≠ widget item →
        m_loaderChildren f2 !! w = m_loaderChildren (factory s) !! w) ∧
  m_loaders f2 = m_loaders (factory s) ∧
  m_disabledLoaders f2 = m_disabledLoaders (factory s) ∧
  (m_loaderChildren (factory s) !! widget item = None → f2 = factory s) ∧
  result (nextItemLoader plugin fuel index item (set_factory f2 s1)) = Returned None ∧
  result (previousItemLoader plugin fuel index item (set_factory f2 s1))
  = Returned None.
Proof.
  intros Hres s1 f2.
  destruct (createItem_success _ _ _ _ _ Hres) as (item0 & chain & _ & _ & Hf).
  assert (Hgone : m_loaderChildren f2 !! widget item = None).
  { subst f2. simpl. apply lookup_delete_eq. }
  subst f2 s1. rewrite Hf in *. simpl in *.
  repeat split.
  - done.
  - intros w Hw. rewrite lookup_delete_ne by done. by rewrite lookup_insert_ne.
  - intros Hfresh. apply ItemFactory_eq; simpl; try done.
    rewrite delete_insert_eq. by apply delete_id.
  - unfold nextItemLoader, otherItemLoader, lookup_child. simpl.
    rewrite lookup_delete_eq. done.
  - unfold previousItemLoader, otherItemLoader, lookup_child. simpl.
    rewrite lookup_delete_eq. done.
Qed.

(** X6: in a successful [createItem] the tool tip is set exactly when
    the notes of the index are not empty, with those notes and on the
    widget of the item that is returned, that is after the transform
    chain; the [destroyed] signal is connected for that widget and no
    other, and this is the last thing [createItem] does. *)
Theorem createItem_tool_tip (p : ItemLoaderInterfacePtr) index (parent : QObject)
    s item :
  result (createItem plugin p index parent s) = Some item →
  let cs := calls (createItem plugin p index parent s) in
  (∀ w notes, SetToolTip w notes ∈ cs ↔
              w = widget item ∧ notes = dataNotes index ∧ notes ≠ "") ∧
  (∀ w, ConnectDestroyed w ∈ cs ↔ w = widget item) ∧
  last cs = Some (ConnectDestroyed (widget item)).
Proof.
  intros Hres cs.
  destruct (createItem_success _ _ _ _ _ Hres) as (item0 & chain & Hc & Hcalls & _).
  subst cs. rewrite Hcalls.
  pose proof (transform_chain_shape _ _ _ _ _ Hc) as Hshape.
  rewrite Forall_forall in Hshape.
  assert (Hfirst : ∀ c, c = creation_call p index parent item0 →
                        (∀ w n, c ≠ SetToolTip w n) ∧ (∀ w, c ≠ ConnectDestroyed w)).
  { intros c ->. destruct p; done. }
  assert (Hchain : ∀ c, c ∈ chain →
                        (∀ w n, c ≠ SetToolTip w n) ∧ (∀ w, c ≠ ConnectDestroyed w)).
  { intros c Hin. destruct (Hshape c Hin) as (h & it & res & ->). done. }
  split; [|split].
  - intros w notes. split.
    + rewrite elem_of_cons, elem_of_app. intros [E|[Hin|Hin]].
      * exfalso. exact (proj1 (Hfirst _ E) w notes eq_refl).
      * exfalso. exact (proj1 (Hchain _ Hin) w notes eq_refl).
      * revert Hin. unfold finishing_calls. case_bool_decide.
        -- rewrite app_nil_l, list_elem_of_singleton. done.
        -- rewrite elem_of_app, !list_elem_of_singleton. intros [[= -> ->]|?]; done.
    + intros (-> & -> & Hn). rewrite elem_of_cons, elem_of_app. right. right.
      unfold finishing_calls. rewrite bool_decide_eq_false_2 by done.
      apply elem_of_app. left. by apply list_elem_of_singleton.
  - intros w. split.
    + rewrite elem_of_cons, elem_of_app. intros [E|[Hin|Hin]].
      * exfalso. exact (proj2 (Hfirst _ E) w eq_refl).
      * exfalso. exact (proj2 (Hchain _ Hin) w eq_refl).
      * revert Hin. unfold finishing_calls.
        rewrite elem_of_app, list_elem_of_singleton. intros [Hin|[= ->]]; [|done].
        revert Hin. case_bool_decide; [by rewrite elem_of_nil|].
        by rewrite list_elem_of_singleton.
    + intros ->. rewrite elem_of_cons, elem_of_app. right. right.
      unfold finishing_calls. apply elem_of_app. right.
      by apply list_elem_of_singleton.
  - unfold finishing_calls. rewrite app_comm_cons, !app_assoc. apply last_snoc.
Qed.

(** X7: a [createItem] that returns no item leaves no trace: the
    loader given is not null, and either it is disabled and nothing at
    all happened, or it is enabled and its [create] was called once and
    declined, with no transform, no tool tip, no ownership entry and no
    connection; the factory and the allocator are unchanged. *)
Theorem createItem_failure_leaves_no_trace (p : ItemLoaderInterfacePtr) index
    (parent : QObject) s :
  result (createItem plugin p index parent s) = None →
  let r := createItem plugin p index parent s in
  factory (final r) = factory s ∧
  nextObject (final r) = nextObject s ∧
  ∃ h, p = Some h ∧
       ((isLoaderEnabled (factory s) (Some h) = false ∧ calls r = [] ∧ final r = s) ∨
        (isLoaderEnabled (factory s) (Some h) = true ∧
         calls r = [CallCreate h index parent None])).
Proof.
  intros Hres r. subst r. destruct p as [h|].
  - destruct (createItem_cases plugin h index parent s)
      as [[En E]|[[En [e E]]|[_ (item0 & item' & chain & Hr & _)]]].
    + rewrite E. unpack. repeat split. exists h. split; [done|]. left. done.
    + rewrite E. unpack. repeat split. exists h. split; [done|]. right. done.
    + rewrite Hr in Hres. done.
  - destruct (createItem_null plugin index parent s) as (item' & chain & Hr & _).
    rewrite Hr in Hres. done.
Qed.

(** ** The fallback item *)

Lemma QString_left_spec (n : nat) (text : string) :
  ∃ rest, text = String.append (QString_left n text) rest ∧
          String.length (QString_left n text) = Nat.min n (String.length text).
Proof.
  unfold QString_left. revert text.
  induction n as [|n IH]; intros [|c text]; simpl.
  - by exists "".
  - by exists (String c text).
  - by exists "".
  - destruct (IH text) as (rest & Htext & Hlen). exists rest.
    split; [|by f_equal].
    change (String c (String.substring 0 n text) +:+ rest)
      with (String c (String.substring 0 n text +:+ rest)).
    by f_equal.
Qed.

Lemma createItem_any_fallback index (parent : QObject) s :
  enabledLoaders (factory s) = [] →
  let d := DummyItem (nextObject s) parent
             (QString_left dummyItemMaxChars (dataText index)) in
  let r := createItem_any plugin index parent s in
  result r = Some d ∧
  calls r = NewDummyItem index parent d :: finishing_calls index d ∧
  factory (final r) = with_child (nextObject s) None (factory s).
Proof.
  intros Hnone d r.
  destruct (createItem_any_first_helper plugin index parent s)
    as (tried & rest & owner & item0 & item & chain
        & Hfil & Hown & Hcalls & Hc & Hr & Hf).
  fold (enabledLoaders (factory s)) in Hfil. rewrite Hnone in Hfil, Hc.
  symmetry in Hfil. apply app_eq_nil in Hfil as [-> ->].
  destruct owner as [h|]; [by destruct Hown|]. destruct Hown as [_ ->].
  inversion Hc; subst. subst r. rewrite Hr, Hcalls, Hf. done.
Qed.

(** X8: with no enabled loader, [createItem(index, parent)] enters no
    plugin and returns the [DummyItem] itself, a fresh widget under the
    given parent whose label is the text of the index cut after
    [dummyItemMaxChars] characters (the whole text when it is not
    longer); the item is recorded under the null loader. *)
Theorem createItem_any_without_enabled_loaders index (parent : QObject) s :
  enabledLoaders (factory s) = [] →
  let r := createItem_any plugin index parent s in
  ∃ label rest,
    result r = Some (DummyItem (nextObject s) parent label) ∧
    dataText index = String.append label rest ∧
    String.length label
    = Nat.min dummyItemMaxChars (String.length (dataText index)) ∧
    calls r = NewDummyItem index parent (DummyItem (nextObject s) parent label)
              :: finishing_calls index (DummyItem (nextObject s) parent label) ∧
    factory (final r) = with_child (nextObject s) None (factory s).
Proof.
  intros Hnone r.
  destruct (createItem_any_fallback index parent s Hnone) as (Hr & Hcalls & Hf).
  destruct (QString_left_spec dummyItemMaxChars (dataText index))
    as (rest & Htext & Hlen).
  exists (QString_left dummyItemMaxChars (dataText index)), rest. done.
Qed.

(** ** Cycling: what it returns and what it keeps *)

Lemma at_index_elem {A} (l : list A) (i : Z) x : at_index l i = Some x → x ∈ l.
Proof.
  unfold at_index. case_bool_decide; [done|]. apply list_elem_of_lookup_2.
Qed.

Lemma createItem_failure_state h index (parent : QObject) s :
  result (createItem plugin (Some h) index parent s) = None →
  factory (final (createItem plugin (Some h) index parent s)) = factory s.
Proof.
  intros Hres.
  destruct (createItem_cases plugin h index parent s)
    as [[_ E]|[[_ [e E]]|[_ (item0 & item' & chain & Hr & _)]]].
  - by rewrite E.
  - by rewrite E.
  - rewrite Hr in Hres. done.
Qed.

Lemma otherItemLoader_loop_success fuel (c size dir i : Z) index (parent : QObject)
    s item :
  result (otherItemLoader_loop plugin fuel c size dir i index parent s)
  = Returned (Some item) →
  ∃ h, h ∈ m_loaders (factory s) ∧
       isLoaderEnabled (factory s) (Some h) = true ∧
       m_loaderChildren
         (factory (final (otherItemLoader_loop plugin fuel c size dir i index parent s)))
       !! widget item = Some (Some h).
Proof.
  revert i s. induction fuel as [|fuel IH]; intros i s; simpl; [done|].
  case_bool_decide; [|done].
  destruct (at_index (m_loaders (factory s)) (wrap size i)) as [loader|] eqn:Hat;
    [|done].
  apply at_index_elem in Hat.
  pose proof (createItem_failure_state loader index parent s) as Hfail.
  destruct (createItem_cases plugin loader index parent s)
    as [[En E]|[[En [e E]]|[En (item0 & item' & chain & Hr & _ & _ & Hf & _)]]].
  - rewrite E in *. specialize (IH (wrap size i + dir) s).
    destruct (otherItemLoader_loop plugin fuel c size dir (wrap size i + dir)
                index parent s) as [[r s2] t2].
    unpack. done.
  - rewrite E in *. specialize (IH (wrap size i + dir) (set_ext e s)).
    destruct (otherItemLoader_loop plugin fuel c size dir (wrap size i + dir)
                index parent (set_ext e s)) as [[r s2] t2].
    unpack. done.
  - destruct (createItem plugin (Some loader) index parent s) as [[r s1] t1].
    unfold result, final in Hr, Hf. simpl in Hr, Hf. subst r.
    unpack. intros [= ->]. exists loader. rewrite Hf.
    repeat split; try done. apply with_child_lookup.
Qed.

(** X9: an item that cycling returns was made by a loader of the
    collection that is enabled, and its widget is recorded under that
    loader, never under the null loader; the collection and the set of
    disabled loaders are unchanged. *)
Theorem otherItemLoader_result_owner fuel index (current : ItemWidget) (dir : Z)
    s item :
  result (otherItemLoader plugin fuel index current dir s) = Returned (Some item) →
  let r := otherItemLoader plugin fuel index current dir s in
  (∃ h, h ∈ m_loaders (factory s) ∧
        isLoaderEnabled (factory s) (Some h) = true ∧
        m_loaderChildren (factory (final r)) !! widget item = Some (Some h)) ∧
  m_loaders (factory (final r)) = m_loaders (factory s) ∧
  m_disabledLoaders (factory (final r)) = m_disabledLoaders (factory s).
Proof.
  intros Hres r. split; [|apply otherItemLoader_frame].
  subst r. revert Hres. unfold otherItemLoader, lookup_child. simpl.
  destruct (negb _); [done|].
  destruct (default None (m_loaderChildren (factory s) !! widget current))
    as [loader|]; [|done].
  case_bool_decide; [done|].
  intros Hres. apply otherItemLoader_loop_success in Hres. exact Hres.
Qed.

Lemma owners_with_child f (w : QObject) (p : ItemLoaderInterfacePtr) :
  owners_in_collection f → (∀ h, p = Some h → h ∈ m_loaders f) →
  owners_in_collection (with_child w p f).
Proof.
  intros Hinv Hp w' h. unfold with_child. simpl.
  destruct (decide (w = w')) as [->|Hne].
  - rewrite lookup_insert_eq. intros [= ->]. by apply Hp.
  - rewrite lookup_insert_ne by done. apply Hinv.
Qed.

Lemma owners_same_parts f f' :
  m_loaders f' = m_loaders f → m_loaderChildren f' = m_loaderChildren f →
  owners_in_collection f → owners_in_collection f'.
Proof. intros Hl Hc Hinv w h. rewrite Hl, Hc. apply Hinv. Qed.

Lemma createItem_keeps_owners (p : ItemLoaderInterfacePtr) index (parent : QObject) s :
  owners_in_collection (factory s) →
  (∀ h, p = Some h → h ∈ m_loaders (factory s)) →
  owners_in_collection (factory (final (createItem plugin p index parent s))).
Proof.
  intros Hinv Hp.
  destruct (result (createItem plugin p index parent s)) as [item|] eqn:Hres.
  - destruct (createItem_success _ _ _ _ _ Hres) as (_ & _ & _ & _ & ->).
    by apply owners_with_child.
  - destruct p as [h|].
    + by rewrite createItem_failure_state.
    + destruct (createItem_null plugin index parent s) as (item' & chain & Hr & _).
      rewrite Hr in Hres. done.
Qed.

Lemma otherItemLoader_loop_keeps_owners fuel (c size dir i : Z) index
    (parent : QObject) s :
  owners_in_collection (factory s) →
  owners_in_collection
    (factory (final (otherItemLoader_loop plugin fuel c size dir i index parent s))).
Proof.
  revert i s. induction fuel as [|fuel IH]; intros i s Hinv; simpl; [done|].
  case_bool_decide; [|done].
  destruct (at_index (m_loaders (factory s)) (wrap size i)) as [loader|] eqn:Hat;
    [|done].
  apply at_index_elem in Hat.
  pose proof (createItem_keeps_owners (Some loader) index parent s Hinv) as Hkeep.
  destruct (createItem plugin (Some loader) index parent s) as [[[item|] s1] t1].
  - unpack. apply Hkeep. by intros ? [= <-].
  - specialize (IH (wrap size i + dir) s1).
    destruct (otherItemLoader_loop plugin fuel c size dir (wrap size i + dir)
                index parent s1) as [[r s2] t2].
    unpack. apply IH, Hkeep. by intros ? [= <-].
Qed.

(** X10: that every loader named in the ownership map is in the
    collection holds of a new factory and is kept by every operation
    that changes the factory: [createItem] for a loader of the
    collection or the null loader, [createItem] for any loader, cycling,
    [setLoaderEnabled], [loaderChildDestroyed] and [setPluginPriority]
    (for a [qSort] that permutes). *)
Theorem owners_in_collection_kept s :
  owners_in_collection (factory s) →
  (∀ (p : ItemLoaderInterfacePtr) index (parent : QObject),
     (∀ h, p = Some h → h ∈ m_loaders (factory s)) →
     owners_in_collection (factory (final (createItem plugin p index parent s)))) ∧
  (∀ index (parent : QObject),
     owners_in_collection (factory (final (createItem_any plugin index parent s)))) ∧
  (∀ fuel index (current : ItemWidget) (dir : Z),
     owners_in_collection
       (factory (final (otherItemLoader plugin fuel index current dir s)))) ∧
  (∀ (p : ItemLoaderInterfacePtr) (enabled : bool),
     owners_in_collection (setLoaderEnabled p enabled (factory s))) ∧
  (∀ obj : QObject, owners_in_collection (loaderChildDestroyed obj (factory s))) ∧
  (∀ qSort (pluginNames : list string),
     (∀ lessThan l, l ≡ₚ qSort lessThan l) →
     owners_in_collection (setPluginPriority plugin qSort pluginNames (factory s))).
Proof.
  intros Hinv. repeat split.
  - intros p index parent Hp. by apply createItem_keeps_owners.
  - intros index parent.
    destruct (createItem_any_first_helper plugin index parent s)
      as (tried & rest & owner & item0 & item & chain
          & Hfil & Hown & _ & _ & _ & ->).
    apply owners_with_child; [done|]. intros h ->. destruct Hown as [rest' ->].
    assert (h ∈ tried ++ h :: rest') as Hin.
    { apply elem_of_app. right. apply elem_of_cons. tauto. }
    rewrite <- Hfil in Hin. apply list_elem_of_filter in Hin. tauto.
  - intros fuel index current dir. unfold otherItemLoader, lookup_child. simpl.
    destruct (negb _); [done|].
    assert (owners_in_collection
              {| m_loaders := m_loaders (factory s);
                 m_disabledLoaders := m_disabledLoaders (factory s);
                 m_loaderChildren :=
                   <[widget current :=
                       default None (m_loaderChildren (factory s) !! widget current)]>
                     (m_loaderChildren (factory s)) |}) as Hinv'.
    { intros w h. simpl. destruct (decide (widget current = w)) as [<-|Hne].
      - rewrite lookup_insert_eq. intros [= E]. apply (Hinv (widget current)).
        destruct (m_loaderChildren (factory s) !! widget current) as [q|]; simpl in E;
          [by rewrite E|done].
      - rewrite lookup_insert_ne by done. apply Hinv. }
    destruct (default None (m_loaderChildren (factory s) !! widget current))
      as [loader|]; [|done].
    case_bool_decide; [done|].
    by apply otherItemLoader_loop_keeps_owners.
  - intros p enabled. apply (owners_same_parts (factory s)); try done;
      by destruct enabled.
  - intros obj w h. unfold loaderChildDestroyed. simpl.
    destruct (decide (obj = w)) as [->|Hne].
    + by rewrite lookup_delete_eq.
    + rewrite lookup_delete_ne by done. apply Hinv.
  - intros qSort pluginNames Hperm w h. unfold setPluginPriority. simpl.
    intros Hw. rewrite <- Hperm. by apply (Hinv w).
Qed.

Lemma otherItemLoader_loop_asserts fuel (c dir i : Z) index (parent : QObject) s :
  dir = 1 ∨ dir = -1 →
  0 < Z.of_nat (length (m_loaders (factory s))) →
  -1 ≤ i ≤ Z.of_nat (length (m_loaders (factory s))) →
  result (otherItemLoader_loop plugin fuel c
            (Z.of_nat (length (m_loaders (factory s)))) dir i index parent s)
  ≠ AssertFailed.
Proof.
  intros Hdir. revert i s. induction fuel as [|fuel IH]; intros i s Hn Hi; simpl;
    [done|].
  case_bool_decide; [|done].
  assert (0 ≤ wrap (Z.of_nat (length (m_loaders (factory s)))) i
          < Z.of_nat (length (m_loaders (factory s)))) as Hw.
  { unfold wrap. repeat case_bool_decide; try lia.
    assert (i = Z.of_nat (length (m_loaders (factory s)))) as -> by lia.
    rewrite Z.rem_same by lia. lia. }
  destruct (at_index_in_range (m_loaders (factory s)) _ Hw) as (x & -> & _).
  pose proof (createItem_keeps_loaders plugin x index parent s) as Hkeep.
  destruct (createItem plugin (Some x) index parent s) as [[[item|] s1] t1];
    [done|].
  unpack.
  specialize (IH (wrap (Z.of_nat (length (m_loaders (factory s)))) i + dir) s1).
  rewrite Hkeep in IH.
  destruct (otherItemLoader_loop plugin fuel c
              (Z.of_nat (length (m_loaders (factory s)))) dir
              (wrap (Z.of_nat (length (m_loaders (factory s)))) i + dir)
              index parent s1) as [[r s2] t2].
  unpack. apply IH; [done|]. destruct Hdir as [-> | ->]; lia.
Qed.

(** X11: when every loader named in the ownership map is in the
    collection, no assertion of [otherItemLoader] fails for a request
    forward or backward: the owner is found in the collection and every
    index that the loop uses is in range.  A run then either returns or
    uses up its bound. *)
Theorem otherItemLoader_asserts_hold fuel index (current : ItemWidget) (dir : Z) s :
  owners_in_collection (factory s) →
  dir = 1 ∨ dir = -1 →
  result (otherItemLoader plugin fuel index current dir s) ≠ AssertFailed.
Proof.
  intros Hinv Hdir. unfold otherItemLoader, lookup_child. simpl.
  assert (negb (bool_decide (dir = -1) || bool_decide (dir = 1)) = false) as ->.
  { destruct Hdir as [-> | ->]; done. }
  destruct (m_loaderChildren (factory s) !! widget current) as [[loader|]|] eqn:Hown;
    simpl; try done.
  assert (loader ∈ m_loaders (factory s)) as Hin by by apply (Hinv (widget current)).
  destruct (indexOf_first _ _ Hin) as (c & Hc & Hlook & _).
  apply lookup_lt_Some in Hlook.
  rewrite bool_decide_eq_false_2 by lia.
  match goal with
  | |- context [otherItemLoader_loop plugin fuel ?c' ?n dir ?i index ?p ?s'] =>
      apply (otherItemLoader_loop_asserts fuel c' dir i index p s' Hdir)
  end; simpl; destruct Hdir as [-> | ->]; lia.
Qed.

(** ** Start-up *)

Lemma priorityLessThan_strict_weak_order :
  strict_weak_order (priorityLessThan plugin).
Proof.
  unfold priorityLessThan. repeat split.
  - intros x. apply bool_decide_eq_false. lia.
  - intros x y z. rewrite !bool_decide_eq_true. lia.
  - intros x y z. rewrite !bool_decide_eq_false. lia.
Qed.

Lemma ascending_priority (l : list Handle) :
  ascending (priorityLessThan plugin) l → priority_descending plugin l.
Proof.
  intros Hasc i j x y Hij Hi Hj. specialize (Hasc i j x y Hij Hi Hj).
  unfold priorityLessThan in Hasc. apply bool_decide_eq_false in Hasc. lia.
Qed.

Lemma loadPlugins_foreach_loaders (libs : Libraries) (dir : QDir) files loaders :
  (loadPlugins_foreach libs dir files loaders).1
  = loaders ++ loaders_found libs dir files.
Proof.
  revert loaders. induction files as [|fileName files IH]; intros loaders; simpl.
  - by rewrite app_nil_r.
  - unfold loaders_found in *. simpl. unfold loadPlugins_file.
    destruct (isLibrary libs fileName).
    + destruct (instance libs (absoluteFilePath dir fileName)) as [err| |h]; simpl.
      * specialize (IH loaders).
        destruct (loadPlugins_foreach libs dir files loaders) as [l2 t2]. exact IH.
      * specialize (IH loaders).
        destruct (loadPlugins_foreach libs dir files loaders) as [l2 t2]. exact IH.
      * specialize (IH (loaders ++ [h])).
        destruct (loadPlugins_foreach libs dir files (loaders ++ [h])) as [l2 t2].
        simpl in *. rewrite IH. by rewrite <- app_assoc.
    + specialize (IH loaders).
      destruct (loadPlugins_foreach libs dir files loaders) as [l2 t2]. exact IH.
Qed.

(** The events of one file. *)
Lemma loadPlugins_file_events (libs : Libraries) (dir : QDir) fileName loaders ev :
  ev ∈ (loadPlugins_file libs dir fileName loaders).2 →
  isLibrary libs fileName = true ∧
  (ev = Instantiate (absoluteFilePath dir fileName) ∨
   ev = Log (String.append "Loading plugin: " (absoluteFilePath dir fileName)) LogNote ∨
   (∃ err, instance libs (absoluteFilePath dir fileName) = NoInstance err ∧
           ev = Log err LogError) ∨
   (instance libs (absoluteFilePath dir fileName) = OtherObject ∧
    ev = Unload (absoluteFilePath dir fileName))).
Proof.
  unfold loadPlugins_file. destruct (isLibrary libs fileName); simpl;
    [|by rewrite elem_of_nil].
  destruct (instance libs (absoluteFilePath dir fileName)) as [err| |h] eqn:Hi; simpl;
    rewrite ?elem_of_cons, ?elem_of_nil; intros H; split; try done;
    intuition eauto.
Qed.

Lemma loadPlugins_foreach_events (libs : Libraries) (dir : QDir) files loaders ev :
  ev ∈ (loadPlugins_foreach libs dir files loaders).2 →
  ∃ fileName, fileName ∈ files ∧ isLibrary libs fileName = true ∧
    (ev = Instantiate (absoluteFilePath dir fileName) ∨
     ev = Log (String.append "Loading plugin: " (absoluteFilePath dir fileName))
            LogNote ∨
     (∃ err, instance libs (absoluteFilePath dir fileName) = NoInstance err ∧
             ev = Log err LogError) ∨
     (instance libs (absoluteFilePath dir fileName) = OtherObject ∧
      ev = Unload (absoluteFilePath dir fileName))).
Proof.
  revert loaders. induction files as [|fileName files IH]; intros loaders; simpl.
  - by rewrite elem_of_nil.
  - pose proof (loadPlugins_file_events libs dir fileName loaders ev) as Hfile.
    destruct (loadPlugins_file libs dir fileName loaders) as [l1 t1].
    specialize (IH l1).
    destruct (loadPlugins_foreach libs dir files l1) as [l2 t2]. simpl in *.
    rewrite elem_of_app. intros [Hin|Hin].
    + destruct (Hfile Hin) as [Hlib Hev]. exists fileName.
      rewrite elem_of_cons. tauto.
    + destruct (IH Hin) as (fn & Hfn & Hrest). exists fn.
      rewrite elem_of_cons. tauto.
Qed.

Lemma loadPlugins_foreach_reports (libs : Libraries) (dir : QDir) files loaders
    fileName :
  fileName ∈ files → isLibrary libs fileName = true →
  let events := (loadPlugins_foreach libs dir files loaders).2 in
  Instantiate (absoluteFilePath dir fileName) ∈ events ∧
  Log (String.append "Loading plugin: " (absoluteFilePath dir fileName)) LogNote
    ∈ events ∧
  (∀ err, instance libs (absoluteFilePath dir fileName) = NoInstance err →
          Log err LogError ∈ events) ∧
  (instance libs (absoluteFilePath dir fileName) = OtherObject →
   Unload (absoluteFilePath dir fileName) ∈ events).
Proof.
  intros Hin Hlib. revert loaders.
  induction files as [|fn files IH]; intros loaders; [by apply elem_of_nil in Hin|].
  simpl.
  destruct (loadPlugins_file libs dir fn loaders) as [l1 t1] eqn:Hfile.
  specialize (IH).
  destruct (decide (fn = fileName)) as [->|Hne].
  - clear IH. unfold loadPlugins_file in Hfile. rewrite Hlib in Hfile.
    destruct (loadPlugins_foreach libs dir files l1) as [l2 t2]. simpl.
    destruct (instance libs (absoluteFilePath dir fileName)) as [err| |h];
      injection Hfile as <- <-; simpl;
      repeat split; try done;
      try (intros ? [= <-]);
      repeat (rewrite elem_of_cons || rewrite elem_of_app); tauto.
  - apply elem_of_cons in Hin as [->|Hin]; [done|].
    specialize (IH Hin l1).
    destruct (loadPlugins_foreach libs dir files l1) as [l2 t2]. simpl in *.
    destruct IH as (H1 & H2 & H3 & H4).
    repeat split; intros; apply elem_of_app; right; auto.
Qed.

(** X12: from a readable directory [loadPlugins] returns true; the
    collection then holds what it held together with the loaders behind
    the library files of the directory, ordered by descending priority;
    every library file, and no other file, is instantiated; the error of
    each library that gives no object is logged as an error; each
    library whose object is not a loader is unloaded and nothing else
    is; the disabled set and the ownership map are unchanged. *)
Theorem loadPlugins_loads_the_libraries
    (qSort : (Handle → Handle → bool) → list Handle → list Handle)
    (libs : Libraries) (dir : QDir) f :
  sorts_by_lessThan qSort →
  isReadable dir = true →
  let r := loadPlugins plugin qSort libs (Some dir) f in
  r.1.1 = true ∧
  m_loaders r.1.2 ≡ₚ m_loaders f ++ loaders_found libs dir (entryList dir) ∧
  priority_descending plugin (m_loaders r.1.2) ∧
  m_disabledLoaders r.1.2 = m_disabledLoaders f ∧
  m_loaderChildren r.1.2 = m_loaderChildren f ∧
  (∀ path, Instantiate path ∈ r.2 ↔
           ∃ fileName, fileName ∈ entryList dir ∧ isLibrary libs fileName = true ∧
                       path = absoluteFilePath dir fileName) ∧
  (∀ err, Log err LogError ∈ r.2 ↔
          ∃ fileName, fileName ∈ entryList dir ∧ isLibrary libs fileName = true ∧
                      instance libs (absoluteFilePath dir fileName) = NoInstance err) ∧
  (∀ path, Unload path ∈ r.2 ↔
           ∃ fileName, fileName ∈ entryList dir ∧ isLibrary libs fileName = true ∧
                       path = absoluteFilePath dir fileName ∧
                       instance libs path = OtherObject).
Proof.
  intros Hsort Hread r. subst r. unfold loadPlugins. rewrite Hread. simpl.
  pose proof (loadPlugins_foreach_loaders libs dir (entryList dir) (m_loaders f))
    as Hloaders.
  pose proof (loadPlugins_foreach_events libs dir (entryList dir) (m_loaders f))
    as Hev.
  pose proof (loadPlugins_foreach_reports libs dir (entryList dir) (m_loaders f))
    as Hrep.
  destruct (loadPlugins_foreach libs dir (entryList dir) (m_loaders f))
    as [loaders t].
  simpl in *. subst loaders.
  destruct (Hsort (priorityLessThan plugin)
              (m_loaders f ++ loaders_found libs dir (entryList dir))
              priorityLessThan_strict_weak_order) as [Hperm Hasc].
  split; [done|]. split; [done|]. split; [by apply ascending_priority|].
  split; [done|]. split; [done|]. split; [|split].
  - intros path. split.
    + intros Hin. destruct (Hev _ Hin) as (fn & Hfn & Hlib & Hcases).
      exists fn. split; [done|]. split; [done|].
      destruct Hcases as [[= ->]|[?|[(? & _ & ?)|[_ ?]]]]; done.
    + intros (fn & Hfn & Hlib & ->). by apply (Hrep fn Hfn Hlib).
  - intros err. split.
    + intros Hin. destruct (Hev _ Hin) as (fn & Hfn & Hlib & Hcases).
      exists fn. split; [done|]. split; [done|].
      destruct Hcases as [?|[?|[(err' & Herr & [= ->])|[_ ?]]]]; done.
    + intros (fn & Hfn & Hlib & Herr). by apply (Hrep fn Hfn Hlib).
  - intros path. split.
    + intros Hin. destruct (Hev _ Hin) as (fn & Hfn & Hlib & Hcases).
      exists fn. split; [done|]. split; [done|].
      destruct Hcases as [?|[?|[(? & _ & ?)|[Hother [= ->]]]]]; done.
    + intros (fn & Hfn & Hlib & -> & Hother). by apply (Hrep fn Hfn Hlib).
Qed.

(** X13: the constructor gives a factory with no loader disabled and no
    ownership entry, whose collection is the loaders found in the
    directory in descending priority, and empty when the directory is
    not resolved or not readable.  "No plugins loaded" is logged exactly
    when the collection is empty, and the factory then still makes
    items: [createItem(index, parent)] returns the [DummyItem]. *)
Theorem ItemFactory_new_spec
    (qSort : (Handle → Handle → bool) → list Handle → list Handle)
    (libs : Libraries) (pluginsDir : option QDir) :
  sorts_by_lessThan qSort →
  let found :=
    match pluginsDir with
    | Some dir => if isReadable dir then loaders_found libs dir (entryList dir) else []
    | None => []
    end in
  let r := ItemFactory_new plugin qSort libs pluginsDir in
  m_loaders r.1 ≡ₚ found ∧
  priority_descending plugin (m_loaders r.1) ∧
  m_disabledLoaders r.1 = ∅ ∧
  m_loaderChildren r.1 = ∅ ∧
  owners_in_collection r.1 ∧
  (Log "No plugins loaded" LogNote ∈ r.2 ↔ m_loaders r.1 = []) ∧
  (found = [] →
   r.1 = mkFactory [] ∅ ∅ ∧
   ∀ (e : Ext) (n : QObject) index (parent : QObject),
     result (createItem_any plugin index parent (mkWorld r.1 e n))
     = Some (DummyItem n parent (QString_left dummyItemMaxChars (dataText index)))).
Proof.
  intros Hsort found r.
  assert (Hempty : ∀ f', m_loaders f' = [] → m_disabledLoaders f' = ∅ →
            m_loaderChildren f' = ∅ →
            f' = mkFactory [] ∅ ∅ ∧
            ∀ (e : Ext) (n : QObject) index (parent : QObject),
              result (createItem_any plugin index parent (mkWorld f' e n))
              = Some (DummyItem n parent
                        (QString_left dummyItemMaxChars (dataText index)))).
  { intros f' Hl Hd Hc. split; [by apply ItemFactory_eq|].
    intros e n index parent.
    apply (createItem_any_fallback index parent (mkWorld f' e n)).
    unfold enabledLoaders. simpl. by rewrite Hl. }
  assert (Hno : owners_in_collection (mkFactory [] ∅ ∅)).
  { intros w h. simpl. by rewrite lookup_empty. }
  subst r. unfold ItemFactory_new, loadPlugins.
  destruct pluginsDir as [dir|]; [destruct (isReadable dir) eqn:Hread|]; simpl.
  - pose proof (loadPlugins_foreach_loaders libs dir (entryList dir) []) as Hloaders.
    pose proof (loadPlugins_foreach_events libs dir (entryList dir) []) as Hev.
    destruct (loadPlugins_foreach libs dir (entryList dir) []) as [loaders t].
    simpl in *. subst loaders found.
    destruct (Hsort (priorityLessThan plugin) (loaders_found libs dir (entryList dir))
                priorityLessThan_strict_weak_order) as [Hperm Hasc].
    assert (Hown : ∀ l, owners_in_collection (mkFactory l ∅ ∅)).
    { intros l w h. simpl. by rewrite lookup_empty. }
    assert (Hnil_found : qSort (priorityLessThan plugin)
                           (loaders_found libs dir (entryList dir)) = [] ↔
                         loaders_found libs dir (entryList dir) = []).
    { split; intros E.
      - rewrite E in Hperm. by apply Permutation_nil_r in Hperm.
      - rewrite E in Hperm |- *. by apply Permutation_nil_l in Hperm. }
    case_bool_decide as Hnil; simpl in *.
    + split; [by symmetry|]. split; [by apply ascending_priority|].
      split; [done|]. split; [done|]. split; [apply Hown|]. split.
      * split; [done|]. intros _. apply elem_of_app. right.
        by apply list_elem_of_singleton.
      * intros _. by apply Hempty.
    + split; [by symmetry|]. split; [by apply ascending_priority|].
      split; [done|]. split; [done|]. split; [apply Hown|]. split.
      * split; [|done]. intros Hin. exfalso.
        destruct (Hev _ Hin) as (fn & _ & _ & Hcases).
        destruct Hcases as [?|[E|[(? & _ & ?)|[_ ?]]]]; try done.
      * intros Hfound. exfalso. by apply Hnil, Hnil_found.
  - subst found. split; [done|]. split; [done|]. split; [done|]. split; [done|].
    split; [done|]. split.
    + split; [done|]. intros _. by apply list_elem_of_singleton.
    + intros _. by apply Hempty.
  - subst found. split; [done|]. split; [done|]. split; [done|]. split; [done|].
    split; [done|]. split.
    + split; [done|]. intros _. by apply list_elem_of_singleton.
    + intros _. by apply Hempty.
Qed.

(** ** Ordering by names that name no loader *)

(** X14: with no name to go by the comparator of [setPluginPriority] is
    [priorityLessThan]: for the empty list of names outright, and for
    any list that names no loader of the collection on that collection.
    The collection then comes out in descending priority, the order
    that [loadPlugins] gives. *)
Theorem setPluginPriority_unknown_names
    (qSort : (Handle → Handle → bool) → list Handle → list Handle)
    (pluginNames : list string) f :
  sorts_by_lessThan qSort →
  (∀ h, h ∈ m_loaders f → name (plugin h) ∉ pluginNames) →
  (∀ x y, PluginSorter plugin [] x y = priorityLessThan plugin x y) ∧
  (∀ x y, x ∈ m_loaders f → y ∈ m_loaders f →
          PluginSorter plugin pluginNames x y = priorityLessThan plugin x y) ∧
  priority_descending plugin
    (m_loaders (setPluginPriority plugin qSort pluginNames f)).
Proof.
  intros Hsort Hunknown.
  assert (Hcmp : ∀ x y, x ∈ m_loaders f → y ∈ m_loaders f →
            PluginSorter plugin pluginNames x y = priorityLessThan plugin x y).
  { intros x y Hx Hy. unfold PluginSorter, PluginSorter_value, priorityLessThan.
    rewrite (bool_decide_eq_true_2 (indexOf pluginNames (name (plugin x)) = -1))
      by by apply indexOf_absent, Hunknown.
    rewrite (bool_decide_eq_true_2 (indexOf pluginNames (name (plugin y)) = -1))
      by by apply indexOf_absent, Hunknown.
    done. }
  split; [|split; [done|]].
  - intros x y. unfold PluginSorter, PluginSorter_value, priorityLessThan. done.
  - destruct (Hsort (PluginSorter plugin pluginNames) (m_loaders f)
                (PluginSorter_strict_weak_order plugin pluginNames))
      as [Hperm Hasc].
    intros i j x y Hij Hi Hj. simpl in Hi, Hj.
    pose proof (Hasc i j x y Hij Hi Hj) as Hlt.
    rewrite Hcmp in Hlt.
    + unfold priorityLessThan in Hlt. apply bool_decide_eq_false in Hlt. lia.
    + rewrite Hperm. by eapply list_elem_of_lookup_2.
    + rewrite Hperm. by eapply list_elem_of_lookup_2.
Qed.

(** ** The formats to save, as a set and as a sequence *)

(** X15: the formats to save are "text/plain", the two markers and the
    formats that enabled loaders declare, and nothing else; as a
    sequence they are the formats of the enabled loaders (in collection
    order, each loader's in the order it declares them) in first-seen
    order, with "text/plain" in front when no loader declares it and
    the missing markers behind, and no format occurs twice. *)
Theorem formatsToSave_members (mimeItemNotes mimeItems : string) f (e : Ext) :
  let all := concat ((λ h, loaderFormatsToSave (plugin h) e) <$> enabledLoaders f) in
  let formats := formatsToSave plugin mimeItemNotes mimeItems f e in
  (∀ x, x ∈ formats ↔
        x = "text/plain" ∨ x = mimeItemNotes ∨ x = mimeItems ∨
        ∃ h, h ∈ enabledLoaders f ∧ x ∈ loaderFormatsToSave (plugin h) e) ∧
  NoDup formats ∧
  ∃ front back,
    formats = front ++ first_seen all ++ back ∧
    (front = [] ∧ "text/plain" ∈ all ∨
     front = ["text/plain"] ∧ "text/plain" ∉ all) ∧
    Forall (λ x, x = mimeItemNotes ∨ x = mimeItems) back.
Proof.
  intros all formats.
  destruct (formatsToSave_shape plugin mimeItemNotes mimeItems f e)
    as (Hmem & Hnd & front & back & Hseq & Hfront & Hback).
  fold formats in Hmem, Hnd, Hseq.
  rewrite (formats_foreach_declared plugin) in Hseq, Hfront.
  change (declared_formats plugin f e (m_loaders f)) with all in Hseq, Hfront.
  rewrite !first_seen_elem in Hfront.
  split; [done|]. split; [done|]. by exists front, back.
Qed.

End MoreProperties.

(** * Concrete runs *)

Import Demo.

(** C1 at a failing input.  Two loaders; the current item was made by
    the first, at position 0, and is recorded so; the second declines.
    The walk of the claim asks position 1 only and returns no item.
    [nextItemLoader] asks position 1, then wraps to position 0 inside
    the loop body and asks the owner itself, whose new item it returns.
    Backward from the last position it is the same: with the owner at
    position 1, [previousItemLoader] asks position 0 and then the owner
    at position 1. *)
Theorem otherItemLoader_asks_the_owner_again :
  let s := world [0; 1]%nat [] [(50%nat, Some 0%nat)] in
  let r := nextItemLoader (plugins first_creates) 2 index1 (shown 50 0) s in
  let claimed :=
    returned (try_positions (plugins first_creates) (m_loaders (factory s))
                (cycle_positions 2 0 1) index1 9) s in
  let s' := world [0; 1]%nat [] [(50%nat, Some 1%nat)] in
  let r' := previousItemLoader (plugins second_creates) 2 index1 (shown 50 1) s' in
  let claimed' :=
    returned (try_positions (plugins second_creates) (m_loaders (factory s'))
                (cycle_positions 2 1 (-1)) index1 9) s' in
  (indexOf (m_loaders (factory s)) 0%nat = 0 ∧
   cycle_positions 2 0 1 = [1%nat] ∧
   result claimed = Returned None ∧
   calls claimed = [CallCreate 1 index1 9 None] ∧
   result r = Returned (Some (PluginItem 100 9 0)) ∧
   filter (λ c, is_creation c = true) (calls r)
   = [CallCreate 1 index1 9 None;
      CallCreate 0 index1 9 (Some (PluginItem 100 9 0))]) ∧
  (indexOf (m_loaders (factory s')) 1%nat = 1 ∧
   cycle_positions 2 1 (-1) = [0%nat] ∧
   result claimed' = Returned None ∧
   calls claimed' = [CallCreate 0 index1 9 None] ∧
   result r' = Returned (Some (PluginItem 100 9 1)) ∧
   filter (λ c, is_creation c = true) (calls r')
   = [CallCreate 0 index1 9 None;
      CallCreate 1 index1 9 (Some (PluginItem 100 9 1))]).
Proof. vm_compute. repeat split. Qed.

(** C2, counterexample: one enabled loader declares "text/html" before
    "text/plain"; the plain text is then present and is not moved to the
    front. *)
Lemma formatsToSave_plain_text_not_first :
  formatsToSave (plugins html_first) notes_marker items_marker
    (factory (world [0%nat] [] [])) 0%nat
  = ["text/html"; "text/plain"; notes_marker; items_marker] ∧
  head (formatsToSave (plugins html_first) notes_marker items_marker
          (factory (world [0%nat] [] [])) 0%nat)
  ≠ Some "text/plain".
Proof. split; [by vm_compute|]. vm_compute. discriminate. Qed.

(** The formats of two enabled loaders that overlap: each format stands
    where it was first declared, the marker that a loader declares is
    not appended again, and the other marker comes last. *)
Example formatsToSave_overlapping :
  let f := factory (world [0; 1]%nat [] []) in
  declared_formats (plugins overlapping) f 0%nat (m_loaders f)
  = ["image/png"; "text/plain"; "image/png";
     "text/uri-list"; "image/png"; notes_marker] ∧
  first_seen (declared_formats (plugins overlapping) f 0%nat (m_loaders f))
  = ["image/png"; "text/plain"; "text/uri-list"; notes_marker] ∧
  formatsToSave (plugins overlapping) notes_marker items_marker f 0%nat
  = ["image/png"; "text/plain"; "text/uri-list"; notes_marker; items_marker].
Proof. vm_compute. repeat split. Qed.

(** C2, witness: with the only loader disabled, the plain text is first. *)
Lemma formatsToSave_entries_witness :
  enabledLoaders (factory (world [0%nat] [0%nat] [])) = [] ∧
  head (formatsToSave (plugins html_first) notes_marker items_marker
          (factory (world [0%nat] [0%nat] [])) 0%nat)
  = Some "text/plain".
Proof.
  assert (enabledLoaders (factory (world [0%nat] [0%nat] [])) = []) as H
    by (vm_compute; reflexivity).
  split; [exact H|].
  exact (proj2 (proj2 (proj2 (proj2 (proj2 (proj2 (proj2
           (formatsToSave_entries (plugins html_first) notes_marker items_marker
              (factory (world [0%nat] [0%nat] [])) 0%nat))))))) H).
Defined.

(** C3, witness: insertion sort in the place of [qSort]; the loaders
    "text", "image", "notes", "web" ordered by the names "notes", "text"
    come out as notes, text, web (priority 40), image (priority 30). *)
Lemma setPluginPriority_order_witness :
  sorts_by_lessThan insertion_sort ∧
  m_loaders (setPluginPriority (plugins named) insertion_sort ["notes"; "text"]
               (factory (world [0; 1; 2; 3]%nat [] [])))
  = [2; 0; 3; 1]%nat ∧
  ∀ (i j : nat) x y,
    m_loaders (setPluginPriority (plugins named) insertion_sort ["notes"; "text"]
                 (factory (world [0; 1; 2; 3]%nat [] []))) !! i = Some x →
    m_loaders (setPluginPriority (plugins named) insertion_sort ["notes"; "text"]
                 (factory (world [0; 1; 2; 3]%nat [] []))) !! j = Some y →
    PluginSorter (plugins named) ["notes"; "text"] x y = true → (i < j)%nat.
Proof.
  split; [exact insertion_sort_sorts|]. split; [vm_compute; reflexivity|].
  intros i j x y Hi Hj.
  exact (proj1 (proj2 (proj2 (proj2 (proj2 (proj2 (proj2
           (setPluginPriority_order (plugins named) insertion_sort
              ["notes"; "text"] (factory (world [0; 1; 2; 3]%nat [] []))
              insertion_sort_sorts)))))) i j x y Hi Hj)).
Defined.

(** C4, the example of the claim: [A] is disabled, [B] declines, [C]
    makes the item; [A] is not asked, the item is the one of [C] and is
    recorded under [C], and no [DummyItem] is constructed. *)
Example createItem_any_disabled_declined_created :
  let r := createItem_any (plugins abc) index1 9 (world [0; 1; 2]%nat [0%nat] []) in
  result r = Some (PluginItem 100 9 2) ∧
  filter (λ c, is_creation c = true) (calls r)
  = [CallCreate 1 index1 9 None; CallCreate 2 index1 9 (Some (PluginItem 100 9 2))] ∧
  m_loaderChildren (factory (final r)) !! 100%nat = Some (Some 2%nat).
Proof. vm_compute. repeat split. Qed.

(** C5, witness: after [A] is disabled it keeps position 0 and no
    dispatch operation enters it. *)
Lemma setLoaderEnabled_changes_membership_only_witness :
  indexOf (m_loaders (setLoaderEnabled (Some 0%nat) false
                        (factory (world [0; 1; 2]%nat [] [])))) 0%nat = 0 ∧
  dispatch_skips (plugins abc) 0%nat
    (set_factory (setLoaderEnabled (Some 0%nat) false
                    (factory (world [0; 1; 2]%nat [] [])))
       (world [0; 1; 2]%nat [] [])).
Proof.
  split; [vm_compute; reflexivity|].
  exact (proj1 (proj2 (proj2 (proj2 (proj2 (proj2
           (setLoaderEnabled_changes_membership_only (plugins abc) (Some 0%nat) false
              (world [0; 1; 2]%nat [] [])))))) 0%nat eq_refl)).
Defined.

(** C6, the example of the claim: [A] writes three bytes and fails; [B]
    is given the file at position 0, with the three bytes still in it. *)
Example saveItems_after_partial_write :
  let r := saveItems (plugins partial_writer) "tab" 0 (mkFile 5 [])
             (world [0; 1]%nat [] []) in
  (result r).1 = true ∧
  calls r = [FileSeek 0; CallSaveItems 0 (mkFile 0 []) false;
             FileSeek 0;
             CallSaveItems 1 (mkFile 0 [Byte.x61; Byte.x62; Byte.x63]) true].
Proof. vm_compute. repeat split. Qed.

(** C7, witness: [A] is disabled; a [createItem] for it returns nothing,
    calls nothing and changes nothing. *)
Lemma createItem_disabled_or_null_witness :
  isLoaderEnabled (factory (world [0; 1; 2]%nat [0%nat] [])) (Some 0%nat) = false ∧
  createItem (plugins abc) (Some 0%nat) index1 9 (world [0; 1; 2]%nat [0%nat] [])
  = (None, world [0; 1; 2]%nat [0%nat] [], []).
Proof.
  assert (isLoaderEnabled (factory (world [0; 1; 2]%nat [0%nat] [])) (Some 0%nat)
          = false) as H by (vm_compute; reflexivity).
  split; [exact H|].
  exact (proj1 (createItem_disabled_or_null (plugins abc) index1 9
                  (world [0; 1; 2]%nat [0%nat] [])) 0%nat H).
Defined.

(** C8, counterexample: the current item has no entry; cycling returns
    no item, and the ownership map has an entry more than before. *)
Lemma otherItemLoader_unrecorded_adds_entry :
  let s := world [0; 1]%nat [] [] in
  let r := nextItemLoader (plugins none_creates) 2 index1 (shown 50 1) s in
  result r = Returned None ∧
  m_loaderChildren (factory s) !! 50%nat = None ∧
  m_loaderChildren (factory (final r)) !! 50%nat = Some None ∧
  final r ≠ s.
Proof.
  intros s r. split; [by vm_compute|]. split; [by vm_compute|].
  assert (m_loaderChildren (factory (final r)) !! 50%nat = Some None) as H
    by (by vm_compute).
  split; [exact H|]. intros E. rewrite E in H. vm_compute in H. discriminate.
Qed.

(** C8, witness: an item made by the fallback, recorded under the null
    loader; cycling returns no item and the state is what it was. *)
Lemma otherItemLoader_without_owner_witness :
  (1 = 1 ∨ 1 = -1) ∧
  default None (m_loaderChildren (factory (world [0; 1]%nat [] [(50%nat, None)]))
                !! widget (DummyItem 50 9 "some text")) = None ∧
  final (otherItemLoader (plugins first_creates) 2 index1 (DummyItem 50 9 "some text")
           1 (world [0; 1]%nat [] [(50%nat, None)]))
  = world [0; 1]%nat [] [(50%nat, None)].
Proof.
  assert (default None
            (m_loaderChildren (factory (world [0; 1]%nat [] [(50%nat, None)]))
             !! widget (DummyItem 50 9 "some text")) = None) as H
    by (vm_compute; reflexivity).
  split; [left; reflexivity|]. split; [exact H|].
  refine (proj2 (proj2 (proj2 (proj2 (proj2 (proj2 (proj2 (proj2
            (otherItemLoader_without_owner (plugins first_creates) 2 index1
               (DummyItem 50 9 "some text") 1
               (world [0; 1]%nat [] [(50%nat, None)])
               (or_introl eq_refl) H)))))))) _).
  vm_compute. reflexivity.
Defined.

(** C9, witness: [A] creates the item and [B] replaces it in the
    transform chain; the returned item is the one of [B], and its widget
    is recorded under [A], the loader that was passed in. *)
Lemma createItem_records_given_loader_witness :
  result (createItem (plugins creator_and_wrapper) (Some 0%nat) index1 9
            (world [0; 1]%nat [] []))
  = Some (PluginItem 101 9 1) ∧
  m_loaderChildren
    (factory (final (createItem (plugins creator_and_wrapper) (Some 0%nat) index1 9
                       (world [0; 1]%nat [] []))))
  !! widget (PluginItem 101 9 1) = Some (Some 0%nat).
Proof.
  assert (result (createItem (plugins creator_and_wrapper) (Some 0%nat) index1 9
                    (world [0; 1]%nat [] []))
          = Some (PluginItem 101 9 1)) as H by (vm_compute; reflexivity).
  split; [exact H|].
  exact (proj1 (createItem_records_given_loader (plugins creator_and_wrapper)
                  (Some 0%nat) index1 9 (world [0; 1]%nat [] [])
                  (PluginItem 101 9 1) H)).
Defined.

(** C10, an example: the fallback item is shown to [A], which keeps it,
    and to [B], which replaces it; the item of [B] is returned and
    recorded under the null loader. *)
Example createItem_null_replaced :
  let r := createItem (plugins creator_and_wrapper) None index1 9
             (world [0; 1]%nat [] []) in
  result r = Some (PluginItem 100 9 1) ∧
  calls r = [NewDummyItem index1 9 (DummyItem 1 9 "some text");
             CallTransform 0 (DummyItem 1 9 "some text") index1 None;
             CallTransform 1 (DummyItem 1 9 "some text") index1
               (Some (PluginItem 100 9 1));
             ConnectDestroyed 100] ∧
  m_loaderChildren (factory (final r)) !! 100%nat = Some None.
Proof. vm_compute. repeat split. Qed.

(** * Concrete runs of the further properties *)

Import Demo2.

Lemma demo_owners :
  owners_in_collection (factory (world [0; 1; 2]%nat [] [(50%nat, Some 1%nat)])).
Proof.
  intros w h. simpl. destruct (decide (w = 50%nat)) as [->|Hne].
  - rewrite lookup_insert_eq. intros [= <-]. apply elem_of_cons. right.
    apply elem_of_cons. tauto.
  - rewrite lookup_insert_ne by done. by rewrite lookup_empty.
Qed.

Lemma demo_unknown_names h :
  h ∈ m_loaders (factory (world [0; 1; 2; 3]%nat [] [])) →
  name (plugins named h) ∉ ["nothing"].
Proof.
  simpl. intros Hin. rewrite !elem_of_cons, elem_of_nil in Hin.
  rewrite list_elem_of_singleton.
  destruct Hin as [->|[->|[->|[->|[]]]]]; by vm_compute.
Qed.

(** X2, witness: with both loaders disabled nothing is notified and the
    file comes back as given. *)
Lemma itemsLoaded_notifies_every_enabled_loader_witness :
  enabledLoaders (factory (world [0; 1]%nat [0; 1]%nat [])) = [] ∧
  result (itemsLoaded (plugins partial_writer) "tab" 0 (mkFile 5 [])
            (world [0; 1]%nat [0; 1]%nat []))
  = mkFile 5 [].
Proof.
  assert (enabledLoaders (factory (world [0; 1]%nat [0; 1]%nat [])) = []) as H
    by (vm_compute; reflexivity).
  split; [exact H|].
  destruct (itemsLoaded_notifies_every_enabled_loader (plugins partial_writer)
              "tab" 0 (mkFile 5 []) (world [0; 1]%nat [0; 1]%nat []))
    as (files & _ & Hlen & _ & Hnil & _).
  rewrite H in Hlen. destruct files; [|discriminate Hlen].
  exact (proj1 (Hnil eq_refl)).
Defined.

(** X5, witness: [A] creates, [B] replaces; the widget of the item
    returned had no entry, and after its destruction the factory is
    what it was before the item was made. *)
Lemma loaderChildDestroyed_forgets_witness :
  result (createItem (plugins creator_and_wrapper) (Some 0%nat) index1 9
            (world [0; 1]%nat [] []))
  = Some (PluginItem 101 9 1) ∧
  loaderChildDestroyed (widget (PluginItem 101 9 1))
    (factory (final (createItem (plugins creator_and_wrapper) (Some 0%nat) index1 9
                       (world [0; 1]%nat [] []))))
  = factory (world [0; 1]%nat [] []).
Proof.
  assert (result (createItem (plugins creator_and_wrapper) (Some 0%nat) index1 9
                    (world [0; 1]%nat [] []))
          = Some (PluginItem 101 9 1)) as H by (vm_compute; reflexivity).
  split; [exact H|].
  refine (proj1 (proj2 (proj2 (proj2 (proj2
            (loaderChildDestroyed_forgets (plugins creator_and_wrapper)
               (Some 0%nat) index1 9 (world [0; 1]%nat [] [])
               (PluginItem 101 9 1) 0 H))))) _).
  vm_compute. reflexivity.
Defined.

(** X6, witness: the index has notes, [A] creates widget 100 and [B]
    replaces it by widget 101; the tool tip is set on widget 101. *)
Lemma createItem_tool_tip_witness :
  result (createItem (plugins creator_and_wrapper) (Some 0%nat) index2 9
            (world [0; 1]%nat [] []))
  = Some (PluginItem 101 9 1) ∧
  SetToolTip 101 "a note"
  ∈ calls (createItem (plugins creator_and_wrapper) (Some 0%nat) index2 9
             (world [0; 1]%nat [] [])).
Proof.
  assert (result (createItem (plugins creator_and_wrapper) (Some 0%nat) index2 9
                    (world [0; 1]%nat [] []))
          = Some (PluginItem 101 9 1)) as H by (vm_compute; reflexivity).
  split; [exact H|].
  apply (proj1 (createItem_tool_tip (plugins creator_and_wrapper) (Some 0%nat)
                  index2 9 (world [0; 1]%nat [] []) (PluginItem 101 9 1) H)
           101%nat "a note").
  repeat split. discriminate.
Defined.

(** X7, witness: [B] is enabled and declines; the factory is as before. *)
Lemma createItem_failure_leaves_no_trace_witness :
  result (createItem (plugins abc) (Some 1%nat) index1 9 (world [0; 1; 2]%nat [] []))
  = None ∧
  factory (final (createItem (plugins abc) (Some 1%nat) index1 9
                    (world [0; 1; 2]%nat [] [])))
  = factory (world [0; 1; 2]%nat [] []).
Proof.
  assert (result (createItem (plugins abc) (Some 1%nat) index1 9
                    (world [0; 1; 2]%nat [] [])) = None) as H
    by (vm_compute; reflexivity).
  split; [exact H|].
  exact (proj1 (createItem_failure_leaves_no_trace (plugins abc) (Some 1%nat)
                  index1 9 (world [0; 1; 2]%nat [] []) H)).
Defined.

(** X8, witness: every loader is disabled; the item is the label. *)
Lemma createItem_any_without_enabled_loaders_witness :
  enabledLoaders (factory (world [0; 1; 2]%nat [0; 1; 2]%nat [])) = [] ∧
  ∃ label rest,
    result (createItem_any (plugins abc) index1 9
              (world [0; 1; 2]%nat [0; 1; 2]%nat []))
    = Some (DummyItem 1 9 label) ∧
    dataText index1 = String.append label rest.
Proof.
  assert (enabledLoaders (factory (world [0; 1; 2]%nat [0; 1; 2]%nat [])) = [])
    as H by (vm_compute; reflexivity).
  split; [exact H|].
  destruct (createItem_any_without_enabled_loaders (plugins abc) index1 9
              (world [0; 1; 2]%nat [0; 1; 2]%nat []) H)
    as (label & rest & Hr & Htext & _).
  exists label, rest. split; [exact Hr|exact Htext].
Defined.

(** X9, witness: from the item of [B], forward, [C] makes the item and
    the collection is what it was. *)
Lemma otherItemLoader_result_owner_witness :
  result (otherItemLoader (plugins abc) 3 index1 (shown 50 1) 1
            (world [0; 1; 2]%nat [] [(50%nat, Some 1%nat)]))
  = Returned (Some (PluginItem 100 9 2)) ∧
  m_loaders (factory (final (otherItemLoader (plugins abc) 3 index1 (shown 50 1) 1
                               (world [0; 1; 2]%nat [] [(50%nat, Some 1%nat)]))))
  = m_loaders (factory (world [0; 1; 2]%nat [] [(50%nat, Some 1%nat)])).
Proof.
  assert (result (otherItemLoader (plugins abc) 3 index1 (shown 50 1) 1
                    (world [0; 1; 2]%nat [] [(50%nat, Some 1%nat)]))
          = Returned (Some (PluginItem 100 9 2))) as H by (vm_compute; reflexivity).
  split; [exact H|].
  exact (proj1 (proj2 (otherItemLoader_result_owner (plugins abc) 3 index1
                         (shown 50 1) 1
                         (world [0; 1; 2]%nat [] [(50%nat, Some 1%nat)])
                         (PluginItem 100 9 2) H))).
Defined.

(** X10, witness: the map names [B], which is in the collection, and
    this still holds after an item is made. *)
Lemma owners_in_collection_kept_witness :
  owners_in_collection (factory (world [0; 1; 2]%nat [] [(50%nat, Some 1%nat)])) ∧
  owners_in_collection
    (factory (final (createItem_any (plugins abc) index1 9
                       (world [0; 1; 2]%nat [] [(50%nat, Some 1%nat)])))).
Proof.
  split; [exact demo_owners|].
  exact (proj1 (proj2 (owners_in_collection_kept (plugins abc)
                         (world [0; 1; 2]%nat [] [(50%nat, Some 1%nat)])
                         demo_owners)) index1 9%nat).
Defined.

(** X11, witness: no assertion fails when cycling backward from the
    item of [B]. *)
Lemma otherItemLoader_asserts_hold_witness :
  owners_in_collection (factory (world [0; 1; 2]%nat [] [(50%nat, Some 1%nat)])) ∧
  (-1 = 1 ∨ -1 = -1) ∧
  result (otherItemLoader (plugins abc) 3 index1 (shown 50 1) (-1)
            (world [0; 1; 2]%nat [] [(50%nat, Some 1%nat)]))
  ≠ AssertFailed.
Proof.
  split; [exact demo_owners|]. split; [right; reflexivity|].
  exact (otherItemLoader_asserts_hold (plugins abc) 3 index1 (shown 50 1) (-1)
           (world [0; 1; 2]%nat [] [(50%nat, Some 1%nat)])
           demo_owners (or_intror eq_refl)).
Defined.

(** X12, witness: of the five files, "image.so" holds loader 1
    (priority 30) and "web.so" loader 3 (priority 40); the collection
    becomes 3, 1. *)
Lemma loadPlugins_loads_the_libraries_witness :
  sorts_by_lessThan insertion_sort ∧
  isReadable plugin_dir = true ∧
  m_loaders (loadPlugins (plugins named) insertion_sort on_disk (Some plugin_dir)
               (mkFactory [] ∅ ∅)).1.2
  = [3; 1]%nat ∧
  priority_descending (plugins named)
    (m_loaders (loadPlugins (plugins named) insertion_sort on_disk (Some plugin_dir)
                  (mkFactory [] ∅ ∅)).1.2).
Proof.
  split; [exact insertion_sort_sorts|]. split; [reflexivity|].
  split; [vm_compute; reflexivity|].
  exact (proj1 (proj2 (proj2
           (loadPlugins_loads_the_libraries (plugins named) insertion_sort on_disk
              plugin_dir (mkFactory [] ∅ ∅) insertion_sort_sorts eq_refl)))).
Defined.

(** X13, witness: the directory is not readable; the factory is empty. *)
Lemma ItemFactory_new_spec_witness :
  sorts_by_lessThan insertion_sort ∧
  (ItemFactory_new (plugins named) insertion_sort on_disk (Some unreadable_dir)).1
  = mkFactory [] ∅ ∅.
Proof.
  split; [exact insertion_sort_sorts|].
  exact (proj1 (proj2 (proj2 (proj2 (proj2 (proj2 (proj2
           (ItemFactory_new_spec (plugins named) insertion_sort on_disk
              (Some unreadable_dir) insertion_sort_sorts)))))) eq_refl)).
Defined.

(** X14, witness: the list names no loader; the collection comes out in
    descending priority. *)
Lemma setPluginPriority_unknown_names_witness :
  sorts_by_lessThan insertion_sort ∧
  m_loaders (setPluginPriority (plugins named) insertion_sort ["nothing"]
               (factory (world [0; 1; 2; 3]%nat [] [])))
  = [3; 1; 2; 0]%nat ∧
  priority_descending (plugins named)
    (m_loaders (setPluginPriority (plugins named) insertion_sort ["nothing"]
                  (factory (world [0; 1; 2; 3]%nat [] [])))).
Proof.
  split; [exact insertion_sort_sorts|]. split; [vm_compute; reflexivity|].
  exact (proj2 (proj2
           (setPluginPriority_unknown_names (plugins named) insertion_sort
              ["nothing"] (factory (world [0; 1; 2; 3]%nat [] []))
              insertion_sort_sorts demo_unknown_names))).
Defined.

(** X16, witness: with both loaders disabled the file is returned as
    given, at position 5. *)
Lemma saveItems_never_truncates_witness :
  enabledLoaders (factory (world [0; 1]%nat [0; 1]%nat [])) = [] ∧
  result (saveItems (plugins partial_writer) "tab" 0 (mkFile 5 [])
            (world [0; 1]%nat [0; 1]%nat []))
  = (false, mkFile 5 []).
Proof.
  assert (enabledLoaders (factory (world [0; 1]%nat [0; 1]%nat [])) = []) as H
    by (vm_compute; reflexivity).
  split; [exact H|].
  destruct (saveItems_never_truncates (plugins partial_writer) "tab" 0 (mkFile 5 [])
              (world [0; 1]%nat [0; 1]%nat []))
    as (attempts & _ & _ & _ & _ & Hnone).
  exact (proj1 (Hnone H)).
Defined.

(** X17, witness: with the owner at position 1 of three, forward,
    positions 2 and 0 are asked in that order and the owner is not. *)
Lemma otherItemLoader_walk_witness :
  m_loaderChildren (factory (world [0; 1; 2]%nat [] [(50%nat, Some 1%nat)]))
  !! widget (shown 50 1) = Some (Some 1%nat) ∧
  indexOf (m_loaders (factory (world [0; 1; 2]%nat [] [(50%nat, Some 1%nat)]))) 1%nat
  = Z.of_nat 1 ∧
  (length (m_loaders (factory (world [0; 1; 2]%nat [] [(50%nat, Some 1%nat)]))) ≤ 3)%nat ∧
  (1 = 1 ∧ (0 < 1)%nat) ∧
  cycle_positions 3 1 1 = [2; 0]%nat ∧
  otherItemLoader (plugins none_creates) 3 index1 (shown 50 1) 1
    (world [0; 1; 2]%nat [] [(50%nat, Some 1%nat)])
  = returned (try_positions (plugins none_creates)
                (m_loaders (factory (world [0; 1; 2]%nat [] [(50%nat, Some 1%nat)])))
                (cycle_positions
                   (length (m_loaders
                              (factory (world [0; 1; 2]%nat [] [(50%nat, Some 1%nat)]))))
                   1 1)
                index1 (parentWidget (shown 50 1)))
      (world [0; 1; 2]%nat [] [(50%nat, Some 1%nat)]).
Proof.
  split; [reflexivity|]. split; [reflexivity|]. split; [simpl; lia|].
  split; [split; [reflexivity|lia]|]. split; [vm_compute; reflexivity|].
  refine (proj1 (otherItemLoader_walk (plugins none_creates) 3 index1 (shown 50 1)
                   1 1%nat 1%nat
                   (world [0; 1; 2]%nat [] [(50%nat, Some 1%nat)]) _ _ _ _)).
  - reflexivity.
  - reflexivity.
  - simpl. lia.
  - left. split; [reflexivity|lia].
Defined.

(** X18, witness: both loaders are disabled and the owner is at
    position 0; a bound of a thousand turns is used up. *)
Lemma otherItemLoader_never_returns_witness :
  m_loaderChildren
    (factory (world [0; 1]%nat [0; 1]%nat [(50%nat, Some 0%nat)]))
  !! widget (shown 50 0) = Some (Some 0%nat) ∧
  indexOf (m_loaders (factory (world [0; 1]%nat [0; 1]%nat [(50%nat, Some 0%nat)])))
    0%nat = 0 ∧
  result (nextItemLoader (plugins first_creates) 1000 index1 (shown 50 0)
            (world [0; 1]%nat [0; 1]%nat [(50%nat, Some 0%nat)]))
  = OutOfFuel.
Proof.
  split; [reflexivity|]. split; [reflexivity|].
  refine (proj1 (otherItemLoader_never_returns (plugins first_creates) 1000 index1
                   (shown 50 0) 0%nat
                   (world [0; 1]%nat [0; 1]%nat [(50%nat, Some 0%nat)]) _ _ _) _).
  - reflexivity.
  - simpl. apply elem_of_cons. tauto.
  - simpl. intros x Hx. apply isLoaderEnabled_false. simpl.
    rewrite !elem_of_cons in Hx. rewrite elem_of_nil in Hx.
    destruct Hx as [->|[->|[]]]; vm_compute; reflexivity.
  - reflexivity.
Defined.
